(** * tapable: the Hook registry and the code factory

    A shallow embedding of [src/lib/Hook.js]: class [Hook], and of class
    [HookCodeFactory] its [create], [setup], [header], [args], [callTap],
    [callTapsSeries], [callTapsLooping] and [callTapsParallel], followed by
    the proofs of the documented properties of the library and of further
    properties of the code.

    Conventions of the embedding.
    - JavaScript values are the inductive type [value]; plain objects are
      finite maps from property names to values (stdpp's [gmap]), arrays are
      lists. Every property of an object is an own enumerable data property,
      as in an object literal; objects that inherit properties or hide them
      from enumeration are outside the model (for the interceptor handed to
      [intercept], see [intercept_object]). Numbers are integers ([Z]): the
      specification types [stage] as an integer, and NaN, infinities and
      fractions are outside the model.
    - Objects have no identity: a descriptor is the map of its properties.
      Callbacks ([register]) are functions from the descriptor they receive to
      the value they return; a callback that also mutates its argument, throws
      or re-enters the hook is outside the model.
    - A method that mutates [this] is a function from the hook to an
      [outcome]: the hook after a normal return, or the error thrown together
      with the hook as the throw left it. *)

From stdpp Require Import gmap strings list fin_maps pretty.
From Stdlib Require Import ZArith Ascii.

Set Warnings "-register-all".

(** ** JavaScript values *)

Inductive value : Type :=
| VUndefined
| VNull
| VBool (b : bool)
| VNum (n : Z)
| VStr (s : string)
| VFun (fname : string) (id : nat)
| VArr (elems : list value)
| VObj (props : gmap string value).

Inductive error : Type :=
| Error (message : string)
| TypeError (reading : string).

Inductive outcome (A : Type) : Type :=
| Return (a : A)
| Throw (e : error) (a : A).
Arguments Return {A} a.
Arguments Throw {A} e a.

(** [typeof v] *)
Definition typeof (v : value) : string :=
  match v with
  | VUndefined => "undefined"
  | VNull => "object"
  | VBool _ => "boolean"
  | VNum _ => "number"
  | VStr _ => "string"
  | VFun _ _ => "function"
  | VArr _ => "object"
  | VObj _ => "object"
  end.

(** ToBoolean: [undefined], [null], [false], [0] and the empty string are
    falsy, everything else is truthy. *)
Definition truthy (v : value) : bool :=
  match v with
  | VUndefined | VNull => false
  | VBool b => b
  | VNum n => negb (n =? 0)%Z
  | VStr s => negb (String.eqb s "")
  | VFun _ _ | VArr _ | VObj _ => true
  end.

(** The index properties of an array or of a string: ["0"], ["1"], ... *)
Definition index_props (l : list value) : gmap string value :=
  list_to_map (imap (λ i x, (pretty i, x)) l).

Definition chars (s : string) : list value :=
  (λ c, VStr (String c EmptyString)) <$> String.list_ascii_of_string s.

(** The own enumerable properties of a value, as [Object.assign] reads them
    from a source: [undefined], [null], booleans, numbers and functions
    without user properties contribute nothing. *)
Definition own_enumerable (v : value) : gmap string value :=
  match v with
  | VObj m => m
  | VArr l => index_props l
  | VStr s => index_props (chars s)
  | _ => ∅
  end.

(** The own properties of a value, enumerable or not. (The arity of a
    function, its [length], is not modelled.) *)
Definition own_props (v : value) : gmap string value :=
  match v with
  | VArr l => <["length" := VNum (Z.of_nat (length l))]> (index_props l)
  | VStr s => <["length" := VNum (Z.of_nat (String.length s))]> (index_props (chars s))
  | VFun fname _ => {["name" := VStr fname]}
  | _ => own_enumerable v
  end.

(** [undefined] and [null]. *)
Definition nullish (v : value) : bool :=
  match v with VUndefined | VNull => true | _ => false end.

(** The property read [v.k]. It throws a TypeError on [undefined] and
    [null]; everywhere else a property the value does not own reads as
    [undefined]. Properties inherited from the built-in prototypes are not
    modelled; Hook.js reads [name], [before], [stage] and [context], none of
    which is inherited. *)
Definition read (v : value) (k : string) : value :=
  default VUndefined (own_props v !! k).

Definition get (v : value) (k : string) : error + value :=
  if nullish v then inl (TypeError k) else inr (read v k).

(** [Object.assign(target, ...sources)] on a target that is a plain object
    with properties [target]: later sources overwrite earlier ones and the
    target. *)
Definition Object_assign (target : gmap string value) (sources : list value) : value :=
  VObj (foldl (λ t s, own_enumerable s ∪ t) target sources).

(** SameValueZero, the equality of [Set.prototype.has] and [delete].
    Primitives are compared by value and functions by identity; objects and
    arrays carry no identity in this model and are never the same value. *)
Definition same_value_zero (a b : value) : bool :=
  match a, b with
  | VUndefined, VUndefined => true
  | VNull, VNull => true
  | VBool x, VBool y => Bool.eqb x y
  | VNum x, VNum y => (x =? y)%Z
  | VStr x, VStr y => String.eqb x y
  | VFun _ x, VFun _ y => (x =? y)%nat
  | _, _ => false
  end.

(** A JavaScript [Set], as the list of its members in insertion order. *)
Module JSSet.
Definition t : Type := list value.
Definition has (s : t) (v : value) : bool := existsb (same_value_zero v) s.
Definition add (s : t) (v : value) : t := if has s v then s else s ++ [v].
Definition new (iterable : list value) : t := foldl add [] iterable.
Definition delete (s : t) (v : value) : t :=
    List.filter (λ u, negb (same_value_zero v u)) s.
Definition size (s : t) : nat := length s.
End JSSet.

(** Array element read [a[i]] and write [a[i] = v]; a read out of range gives
    [undefined], a write at or past the length extends the array. *)
Definition array_get (a : list value) (i : nat) : value := default VUndefined (a !! i).

Definition array_set (a : list value) (i : nat) (v : value) : list value :=
  if decide (i < length a) then <[i := v]> a
  else a ++ replicate (i - length a) VUndefined ++ [v].

(** [xStage > stage] with a number on the right. Two numbers are compared as
    numbers. For any other left operand ECMAScript first coerces it to a
    number; that coercion (of strings, arrays, objects) is the parameter
    [coerced_gt] of the development, and every theorem holds whatever it
    answers. *)
Definition js_gt (coerced_gt : value → Z → bool) (v : value) (n : Z) : bool :=
  match v with
  | VNum m => (n <? m)%Z
  | _ => coerced_gt v n
  end.

(** The coercion used to run the examples. No example reaches it. *)
Definition never_gt : value → Z → bool := λ _ _, false.

(** ** Interceptors, dispatchers and the hook *)

(** An interceptor descriptor. [register] is the callback when the interceptor
    has one; [call], [tap], [loop] and [context] record whether the property
    is truthy, which is all the code generator looks at. *)
Module Interceptor.
Record t : Type := make {
  register : option (value → value);
  call : bool;
  tap : bool;
  loop : bool;
  context : bool
}.
End Interceptor.

(** What a dispatcher slot can hold: one of the three trampolines of Hook.js,
    or a function synthesized by [compile] ([new Function(params, body)], a
    fresh function distinct from the trampolines). *)
Inductive dispatcher : Type :=
| CALL_DELEGATE
| CALL_ASYNC_DELEGATE
| PROMISE_DELEGATE
| Compiled (params body : string).

(** The argument of [compile]: [{taps, interceptors, args, type}]. *)
Module Options.
Record t : Type := make {
  taps : list value;
  interceptors : list Interceptor.t;
  args : list string;
  type : string
}.
End Options.

(** The fields of a [Hook]. [_x] is written by the factory's [setup] only,
    from inside a subclass's [compile]; Hook.js itself leaves it alone. *)
Record Hook : Type := mkHook {
  _args : list string;
  name : value;
  taps : list value;
  interceptors : list Interceptor.t;
  _call : dispatcher;
  call : dispatcher;
  _callAsync : dispatcher;
  callAsync : dispatcher;
  _promise : dispatcher;
  promise : dispatcher;
  _x : value;
  compile : Options.t → error + (string * string)
}.

(** [Hook.prototype.compile]: abstract. A subclass supplies its own, which
    returns the parameters and body of the synthesized function. *)
Definition Hook_compile (options : Options.t) : error + (string * string) :=
  inl (Error "Abstract: should be overridden").

(** [constructor(args = [], name = undefined)]; [this.compile = this.compile]
    picks the method the class of the instance provides. *)
Definition new_Hook (compile : Options.t → error + (string * string))
    (args : list string) (name : value) : Hook :=
  {| _args := args; name := name; taps := []; interceptors := [];
     _call := CALL_DELEGATE; call := CALL_DELEGATE;
     _callAsync := CALL_ASYNC_DELEGATE; callAsync := CALL_ASYNC_DELEGATE;
     _promise := PROMISE_DELEGATE; promise := PROMISE_DELEGATE;
     _x := VUndefined; compile := compile |}.

Definition set_taps (h : Hook) (ts : list value) : Hook :=
  {| _args := _args h; name := name h; taps := ts; interceptors := interceptors h;
     _call := _call h; call := call h; _callAsync := _callAsync h;
     callAsync := callAsync h; _promise := _promise h; promise := promise h;
     _x := _x h; compile := compile h |}.

Definition set_interceptors (h : Hook) (ics : list Interceptor.t) : Hook :=
  {| _args := _args h; name := name h; taps := taps h; interceptors := ics;
     _call := _call h; call := call h; _callAsync := _callAsync h;
     callAsync := callAsync h; _promise := _promise h; promise := promise h;
     _x := _x h; compile := compile h |}.

Definition set_call (h : Hook) (d : dispatcher) : Hook :=
  {| _args := _args h; name := name h; taps := taps h; interceptors := interceptors h;
     _call := _call h; call := d; _callAsync := _callAsync h;
     callAsync := callAsync h; _promise := _promise h; promise := promise h;
     _x := _x h; compile := compile h |}.

Definition set_callAsync (h : Hook) (d : dispatcher) : Hook :=
  {| _args := _args h; name := name h; taps := taps h; interceptors := interceptors h;
     _call := _call h; call := call h; _callAsync := _callAsync h;
     callAsync := d; _promise := _promise h; promise := promise h;
     _x := _x h; compile := compile h |}.

Definition set_promise (h : Hook) (d : dispatcher) : Hook :=
  {| _args := _args h; name := name h; taps := taps h; interceptors := interceptors h;
     _call := _call h; call := call h; _callAsync := _callAsync h;
     callAsync := callAsync h; _promise := _promise h; promise := d;
     _x := _x h; compile := compile h |}.

(** [_createCall(type)] *)
Definition _createCall (type : string) (h : Hook) : error + (string * string) :=
  compile h (Options.make (taps h) (interceptors h) (_args h) type).

(** [_resetCompilation()] *)
Definition _resetCompilation (h : Hook) : Hook :=
  set_promise (set_callAsync (set_call h (_call h)) (_callAsync h)) (_promise h).

(** The effect on the hook of calling the function [d] as a method of [h].
    A trampoline stores the function [_createCall] returns in its slot (and
    leaves the slot alone when [compile] throws), then calls it; calling a
    synthesized dispatcher runs the taps and does not touch the hook. *)
Definition apply_dispatcher (d : dispatcher) (h : Hook) : outcome Hook :=
  match d with
  | CALL_DELEGATE =>
      match _createCall "sync" h with
      | inl e => Throw e h
      | inr (params, body) => Return (set_call h (Compiled params body))
      end
  | CALL_ASYNC_DELEGATE =>
      match _createCall "async" h with
      | inl e => Throw e h
      | inr (params, body) => Return (set_callAsync h (Compiled params body))
      end
  | PROMISE_DELEGATE =>
      match _createCall "promise" h with
      | inl e => Throw e h
      | inr (params, body) => Return (set_promise h (Compiled params body))
      end
  | Compiled _ _ => Return h
  end.

(** [hook.call(...)], [hook.callAsync(...)], [hook.promise(...)]: whatever the
    slot holds is called. *)
Definition invoke_call (h : Hook) : outcome Hook := apply_dispatcher (call h) h.
Definition invoke_callAsync (h : Hook) : outcome Hook := apply_dispatcher (callAsync h) h.
Definition invoke_promise (h : Hook) : outcome Hook := apply_dispatcher (promise h) h.

(** [_runRegisterInterceptors(options)]: the [for ... of] loop over
    [this.interceptors]. *)
Fixpoint run_register (ics : list Interceptor.t) (options : value) : value :=
  match ics with
  | [] => options
  | interceptor :: rest =>
      match Interceptor.register interceptor with
      | Some register =>
          let newOptions := register options in
          match newOptions with
          | VUndefined => run_register rest options
          | _ => run_register rest newOptions
          end
      | None => run_register rest options
      end
  end.

Definition _runRegisterInterceptors (options : value) (h : Hook) : value :=
  run_register (interceptors h) options.

(** The backward walk of [_insert]: the [while (i > 0)] loop. It returns the
    final [i] and the array with every entry it passed moved up by one, or
    the TypeError of reading [x.stage] on an entry that is [undefined] or
    [null], with the array as the walk left it. *)
Fixpoint insert_walk (coerced_gt : value → Z → bool) (i : nat)
    (before : option JSSet.t) (stage : Z) (ts : list value)
    : outcome (nat * list value) :=
  match i with
  | 0 => Return (0, ts)
  | S i =>
      let x := array_get ts i in
      let ts := array_set ts (i + 1) x in
      match get x "stage", get x "name" with
      | inl e, _ | _, inl e => Throw e (i, ts)
      | inr x_stage, inr x_name =>
          let xStage := if truthy x_stage then x_stage else VNum 0 in
          let by_stage :=
            if js_gt coerced_gt xStage stage
            then insert_walk coerced_gt i before stage ts
            else Return (i + 1, ts) in
          match before with
          | Some b =>
              if JSSet.has b x_name
              then insert_walk coerced_gt i (Some (JSSet.delete b x_name)) stage ts
              else if 0 <? JSSet.size b
              then insert_walk coerced_gt i before stage ts
              else by_stage
          | None => by_stage
          end
      end
  end.

(** The local [before] of [_insert], from the value read at [item.before]: a
    set when that is a string or an array, [undefined] ([None]) otherwise. *)
Definition before_set (item_before : value) : option JSSet.t :=
  if String.eqb (typeof item_before) "string" then Some (JSSet.new [item_before])
  else match item_before with
       | VArr elems => Some (JSSet.new elems)
       | _ => None
       end.

(** [_insert(item)] *)
Definition _insert (coerced_gt : value → Z → bool) (item : value) (h : Hook)
    : outcome Hook :=
  let h := _resetCompilation h in
  match get item "before", get item "stage" with
  | inl e, _ | _, inl e => Throw e h
  | inr item_before, inr item_stage =>
      let before := before_set item_before in
      let stage := match item_stage with VNum n => n | _ => 0%Z end in
      match insert_walk coerced_gt (length (taps h)) before stage (taps h) with
      | Throw e (_, ts) => Throw e (set_taps h ts)
      | Return (i, ts) => Return (set_taps h (array_set ts i item))
      end
  end.

(** [_tap(type, options, fn)]. The deprecation notice for [options.context]
    is written to the process, not to the hook, and is left out. *)
Definition _tap (coerced_gt : value → Z → bool) (type : string)
    (options fn : value) (h : Hook) : outcome Hook :=
  let checked :=
    if String.eqb (typeof options) "string" then inr (VObj {["name" := options]})
    else if negb (String.eqb (typeof options) "object")
            || match options with VNull => true | _ => false end
    then inl (Error "Invalid tap options")
    else inr options in
  match checked with
  | inl e => Throw e h
  | inr options =>
      match get options "name" with
      | inl e => Throw e h
      | inr options_name =>
          if negb (String.eqb (typeof options_name) "string")
             || match options_name with VStr "" => true | _ => false end
          then Throw (Error "Missing name for tap") h
          else
            let options :=
              Object_assign (<["type" := VStr type]> {["fn" := fn]}) [options] in
            let options := _runRegisterInterceptors options h in
            _insert coerced_gt options h
      end
  end.

Definition tap (coerced_gt : value → Z → bool) (options fn : value) (h : Hook) :=
  _tap coerced_gt "sync" options fn h.
Definition tapAsync (coerced_gt : value → Z → bool) (options fn : value) (h : Hook) :=
  _tap coerced_gt "async" options fn h.
Definition tapPromise (coerced_gt : value → Z → bool) (options fn : value) (h : Hook) :=
  _tap coerced_gt "promise" options fn h.

(** [withOptions(options)]: the facade is determined by [options]; its
    registration methods merge them under what the caller passes. *)
Definition mergeOptions (options opt : value) : value :=
  Object_assign ∅
    [options; if String.eqb (typeof opt) "string" then VObj {["name" := opt]} else opt].

Module withOptions.
Definition tap (coerced_gt : value → Z → bool) (options opt fn : value) (h : Hook) :=
  tap coerced_gt (mergeOptions options opt) fn h.
Definition tapAsync (coerced_gt : value → Z → bool) (options opt fn : value) (h : Hook) :=
  tapAsync coerced_gt (mergeOptions options opt) fn h.
Definition tapPromise (coerced_gt : value → Z → bool) (options opt fn : value) (h : Hook) :=
  tapPromise coerced_gt (mergeOptions options opt) fn h.
End withOptions.

(** [isUsed()] *)
Definition isUsed (h : Hook) : bool :=
  (0 <? length (taps h)) || (0 <? length (interceptors h)).

(** The loop of [intercept] over the existing taps:
    [for (let i = 0; i < this.taps.length; i++) this.taps[i] = register(this.taps[i])],
    with [remaining] the number of iterations left. *)
Fixpoint register_existing (register : value → value) (remaining i : nat)
    (ts : list value) : list value :=
  match remaining with
  | 0 => ts
  | S remaining =>
      register_existing register remaining (i + 1)
        (array_set ts i (register (array_get ts i)))
  end.

(** [intercept(interceptor)]; the interceptor pushed is a shallow copy, which
    has the same properties. *)
Definition intercept (interceptor : Interceptor.t) (h : Hook) : Hook :=
  let h := _resetCompilation h in
  let h := set_interceptors h (interceptors h ++ [interceptor]) in
  match Interceptor.register interceptor with
  | Some register =>
      set_taps h (register_existing register (length (taps h)) 0 (taps h))
  | None => h
  end.

(** ** Vocabulary of the properties *)

(** [options] is a string / is an object (an array is one, [null] is not). *)
Definition is_string (v : value) : bool := String.eqb (typeof v) "string".
Definition is_object (v : value) : bool :=
  String.eqb (typeof v) "object" && negb (nullish v).

(** The options once a bare string is wrapped as [{name}]. *)
Definition wrapped (options : value) : value :=
  if is_string options then VObj {["name" := options]} else options.

(** The [name] field is a non-empty string. *)
Definition has_name (options : value) : bool :=
  match get options "name" with
  | inr (VStr s) => negb (String.eqb s "")
  | _ => false
  end.

(** The normalized options of the specification: [{type, fn}] merged under the
    (wrapped) user options, whose fields win. *)
Definition normalized (type : string) (options fn : value) : value :=
  VObj (own_enumerable (wrapped options) ∪ <["type" := VStr type]> {["fn" := fn]}).

(** One step of the register fold as the specification words it: an
    interceptor with a [register] callback replaces the running descriptor by
    what the callback returns unless that is [undefined]; one without leaves
    it unchanged. *)
Definition register_step (descriptor : value) (interceptor : Interceptor.t) : value :=
  match Interceptor.register interceptor with
  | Some register =>
      match register descriptor with
      | VUndefined => descriptor
      | replaced => replaced
      end
  | None => descriptor
  end.

Definition register_fold (ics : list Interceptor.t) (descriptor : value) : value :=
  foldl register_step descriptor ics.

(** The three public registration methods. *)
Inductive tap_method : Type := By_tap | By_tapAsync | By_tapPromise.

Definition tap_type (m : tap_method) : string :=
  match m with By_tap => "sync" | By_tapAsync => "async" | By_tapPromise => "promise" end.

Definition call_tap (coerced_gt : value → Z → bool) (m : tap_method)
    (options fn : value) (h : Hook) : outcome Hook :=
  match m with
  | By_tap => tap coerced_gt options fn h
  | By_tapAsync => tapAsync coerced_gt options fn h
  | By_tapPromise => tapPromise coerced_gt options fn h
  end.

(** A registration: which method, with which options and function. *)
Record registration : Type := mkRegistration {
  reg_method : tap_method;
  reg_options : value;
  reg_fn : value
}.

(** The descriptor a registration puts into [taps] when no interceptor
    rewrites it. *)
Definition descriptor (r : registration) : value :=
  normalized (tap_type (reg_method r)) (reg_options r) (reg_fn r).

(** Registrations one after the other; the first throw ends the sequence. *)
Fixpoint register_all (coerced_gt : value → Z → bool) (rs : list registration)
    (h : Hook) : outcome Hook :=
  match rs with
  | [] => Return h
  | r :: rs =>
      match call_tap coerced_gt (reg_method r) (reg_options r) (reg_fn r) h with
      | Return h => register_all coerced_gt rs h
      | Throw e h => Throw e h
      end
  end.

(** The value read at [t.name], [undefined] where the read would throw. *)
Definition name_of (t : value) : value :=
  match get t "name" with inr v => v | inl _ => VUndefined end.

(** The names a descriptor's [before] hint lists. *)
Definition before_names (t : value) : list value :=
  match get t "before" with
  | inr (VStr s) => [VStr s]
  | inr (VArr elems) => elems
  | _ => []
  end.

(** The descriptor carries no [before] hint: the field is neither a string
    nor an array. *)
Definition no_before_hint (t : value) : bool :=
  match get t "before" with
  | inr (VStr _) | inr (VArr _) => false
  | _ => true
  end.

(** The stage a descriptor is ordered by, as [_insert] computes it for the
    new item: its [stage] when that is a number, 0 otherwise. *)
Definition stage_of (t : value) : Z :=
  match get t "stage" with
  | inr (VNum n) => n
  | _ => 0%Z
  end.

(** The [stage] field is a number or missing. *)
Definition plain_stage (t : value) : bool :=
  match get t "stage" with
  | inr (VNum _) | inr VUndefined => true
  | _ => false
  end.

(** Valid options for a registration: a non-empty string, or an object whose
    [name] is a non-empty string. *)
Definition valid_options (options : value) : bool :=
  (is_string options || is_object options) && has_name (wrapped options).

(** [l] is in ascending stage order. *)
Definition stage_ascending (l : list value) : Prop :=
  ∀ a b x y, a < b → l !! a = Some x → l !! b = Some y → (stage_of x ≤ stage_of y)%Z.

(** The taps of stage [s], in the order they have in [l]. *)
Definition of_stage (s : Z) (l : list value) : list value :=
  List.filter (λ t, (stage_of t =? s)%Z) l.

(** ** Histories of a hook *)

(** What a host does with a hook: registrations, interceptors, invocations. *)
Inductive event : Type :=
| E_tap (m : tap_method) (options fn : value)
| E_intercept (interceptor : Interceptor.t)
| E_call
| E_callAsync
| E_promise.

Definition step (coerced_gt : value → Z → bool) (ev : event) (h : Hook) : outcome Hook :=
  match ev with
  | E_tap m options fn => call_tap coerced_gt m options fn h
  | E_intercept interceptor => Return (intercept interceptor h)
  | E_call => invoke_call h
  | E_callAsync => invoke_callAsync h
  | E_promise => invoke_promise h
  end.

(** The hook an outcome leaves behind, and whether the call returned. *)
Definition state_of {A : Type} (o : outcome A) : A :=
  match o with Return a => a | Throw _ a => a end.


(** The hook after a history; the host goes on after a call that threw. *)
Definition run (coerced_gt : value → Z → bool) (evs : list event) (h : Hook) : Hook :=
  foldl (λ h ev, state_of (step coerced_gt ev h)) h evs.

(** The three calling conventions, each with its slot and its trampoline. *)
Inductive convention : Type := Sync | Async | Promise.

Definition slot (c : convention) (h : Hook) : dispatcher :=
  match c with Sync => call h | Async => callAsync h | Promise => promise h end.

Definition trampoline (c : convention) (h : Hook) : dispatcher :=
  match c with Sync => _call h | Async => _callAsync h | Promise => _promise h end.





(** The event is a registration that gets as far as [_resetCompilation]:
    [intercept] always, a [tap*] call once its options pass validation (the
    [register] callbacks that run in between are functions here, and
    return). *)
Definition reaches_reset (ev : event) : bool :=
  match ev with
  | E_tap _ options _ => valid_options options
  | E_intercept _ => true
  | _ => false
  end.


(** ** The walk of [_insert], seen from outside *)

(** The array while the walk stands between [pre] and [suf]: the entries of
    [suf] have been moved up by one, and the first of them still sits in its
    old place as well. *)
Definition walking (pre suf : list value) : list value :=
  pre ++ match suf with [] => [] | y :: _ => y :: suf end.

(** What [_insert] is to do to [taps]: [new] is [old] with the item put in
    at one position, the entries of [old] around it in their order. *)
Definition inserted_at_one_position (item : value) (old new : list value) : Prop :=
  ∃ p, p ≤ length old ∧ new = take p old ++ item :: drop p old.

(** [xStage], the stage the walk reads off an entry: [x.stage || 0]. *)
Definition neighbour_stage (x : value) : value :=
  if truthy (read x "stage") then read x "stage" else VNum 0.




(** ** Scenarios *)

(** The names in [taps] after a sequence of registrations that all returned. *)
Definition outcome_names (o : outcome Hook) : option (list value) :=
  match o with
  | Return h => Some (name_of <$> taps h)
  | Throw _ _ => None
  end.

Definition some_fn : value := VFun "" 0.

Definition empty_hook : Hook := new_Hook Hook_compile ["x"] VUndefined.


(** [{name: "a", stage: 10}], [{name: "b", stage: -5}], [{name: "c"}],
    [{name: "d", stage: 0}] *)
Definition stage_scenario : list registration :=
  [ mkRegistration By_tap (VObj (<["name" := VStr "a"]> {["stage" := VNum 10]})) some_fn;
    mkRegistration By_tap (VObj (<["name" := VStr "b"]> {["stage" := VNum (-5)]})) some_fn;
    mkRegistration By_tap (VObj {["name" := VStr "c"]}) some_fn;
    mkRegistration By_tap (VObj (<["name" := VStr "d"]> {["stage" := VNum 0]})) some_fn ].



(** A hook with the one tap [A]. *)
Definition hook_with_A : Hook := state_of (tap never_gt (VStr "A") some_fn empty_hook).

(** An interceptor whose [register] forgets to return the tap, and one whose
    [register] returns [null]. *)
Definition forgetful_register : Interceptor.t :=
  Interceptor.make (Some (λ _, VUndefined)) false false false false.


(** A [compile] that always returns a function, as the subclasses' do. *)
Definition always_compiles (options : Options.t) : error + (string * string) :=
  inr ("", "").

Definition compiling_hook : Hook := new_Hook always_compiles [] VUndefined.


(** ** HookCodeFactory *)

Definition nl : string := String "010"%char EmptyString.
Definition dquote : string := String "034"%char EmptyString.

(** Code generation is a computation that returns text and, on the way, may
    call the three callbacks [create] supplies ([Ask], going on with the
    text the callback returned) or throw ([Raise]). *)
Inductive query : Type :=
| QError (err : string)
| QResult (result : string)
| QDone.

Inductive gen (A : Type) : Type :=
| Ret (a : A)
| Raise (e : error)
| Ask (q : query) (k : string → gen A).
Arguments Ret {A} a.
Arguments Raise {A} e.
Arguments Ask {A} q k.

Fixpoint gen_bind {A B : Type} (f : A → gen B) (m : gen A) : gen B :=
  match m with
  | Ret a => f a
  | Raise e => Raise e
  | Ask q k => Ask q (λ answer, gen_bind f (k answer))
  end.

#[export] Instance gen_mbind : MBind gen := @gen_bind.
#[export] Instance gen_mret : MRet gen := @Ret.

(** The three callbacks of [create], as computations. *)
Definition ask_onError (err : string) : gen string := Ask (QError err) Ret.
Definition ask_onResult (result : string) : gen string := Ask (QResult result) Ret.
Definition ask_onDone : gen string := Ask QDone Ret.

(** Whether an optional callback was passed. *)
Definition given {A : Type} (f : option A) : bool :=
  match f with Some _ => true | None => false end.

(** Calling a callback that may be missing: [undefined()] is a TypeError. *)
Definition call_thunk (name : string) (f : option (gen string)) : gen string :=
  match f with Some m => m | None => Raise (TypeError name) end.

(** [args({before, after} = {})] over [this._args]; an absent or empty
    [before]/[after] is falsy. *)
Definition factory_args (_args : list string) (before after : option string) : string :=
  let truthy_string o :=
    match o with Some s => negb (String.eqb s "") | None => false end in
  let allArgs := _args in
  let allArgs := if truthy_string before then default "" before :: allArgs else allArgs in
  let allArgs := if truthy_string after then allArgs ++ [default "" after] else allArgs in
  if (length allArgs =? 0)%nat then "" else String.concat ", " allArgs.

Definition getTapFn (idx : nat) : string := "_x[" +:+ pretty idx +:+ "]".
Definition getTap (idx : nat) : string := "_taps[" +:+ pretty idx +:+ "]".
Definition getInterceptor (idx : nat) : string := "_interceptors[" +:+ pretty idx +:+ "]".

(** [needContext()]: the [for ... of] loop over [this.options.taps]. *)
Fixpoint needContext (taps : list value) : error + bool :=
  match taps with
  | [] => inr false
  | tap :: rest =>
      match get tap "context" with
      | inl e => inl e
      | inr context => if truthy context then inr true else needContext rest
      end
  end.

(** The loop of [header()] over the interceptors, from index [i]. *)
Fixpoint header_calls (_args : list string) (i : nat) (ics : list Interceptor.t) : string :=
  match ics with
  | [] => ""
  | interceptor :: rest =>
      (if Interceptor.call interceptor
       then getInterceptor i +:+ ".call("
            +:+ factory_args _args
                  (if Interceptor.context interceptor then Some "_context" else None) None
            +:+ ");" +:+ nl
       else "")
      +:+ header_calls _args (i + 1) rest
  end.

(** [header()] *)
Definition header (options : Options.t) : error + string :=
  match needContext (Options.taps options) with
  | inl e => inl e
  | inr need =>
      inr ((if need then "var _context = {};" +:+ nl else "var _context;" +:+ nl)
           +:+ "var _x = this._x;" +:+ nl
           +:+ (if (0 <? length (Options.interceptors options))%nat
                then "var _taps = this.taps;" +:+ nl
                     +:+ "var _interceptors = this.interceptors;" +:+ nl
                else "")
           +:+ header_calls (Options.args options) 0 (Options.interceptors options))
  end.

(** The loop of [callTap] over the interceptors, from index [i]: the calls of
    [interceptor.tap], with [_tapN] declared before the first of them. *)
Fixpoint tap_calls (tapIndex : nat) (i : nat) (ics : list Interceptor.t)
    (hasTapCached : bool) : string :=
  match ics with
  | [] => ""
  | interceptor :: rest =>
      if Interceptor.tap interceptor
      then (if hasTapCached then ""
            else "var _tap" +:+ pretty tapIndex +:+ " = " +:+ getTap tapIndex +:+ ";" +:+ nl)
           +:+ getInterceptor i +:+ ".tap("
           +:+ (if Interceptor.context interceptor then "_context, " else "")
           +:+ "_tap" +:+ pretty tapIndex +:+ ");" +:+ nl
           +:+ tap_calls tapIndex (i + 1) rest true
      else tap_calls tapIndex (i + 1) rest hasTapCached
  end.

(** [callTap(tapIndex, {onError, onResult, onDone, rethrowIfPossible})];
    [onResult] and [onDone] may be missing. *)
Definition callTap (options : Options.t) (tapIndex : nat)
    (onError : string → gen string) (onResult : option (string → gen string))
    (onDone : option (gen string)) (rethrowIfPossible : bool) : gen string :=
  let n := pretty tapIndex in
  let code := tap_calls tapIndex 0 (Options.interceptors options) false
              +:+ "var _fn" +:+ n +:+ " = " +:+ getTapFn tapIndex +:+ ";" +:+ nl in
  let tap := array_get (Options.taps options) tapIndex in
  match get tap "type", get tap "context" with
  | inl e, _ | _, inl e => Raise e
  | inr tap_type, inr tap_context =>
      let before := if truthy tap_context then Some "_context" else None in
      let call_onResult :=
        match onResult with Some f => f ("_result" +:+ n) | None => Ret "" end in
      let call_onDone := match onDone with Some m => m | None => Ret "" end in
      match tap_type with
      | VStr "sync" =>
          let code :=
            code +:+ (if rethrowIfPossible then ""
                      else "var _hasError" +:+ n +:+ " = false;" +:+ nl
                           +:+ "try {" +:+ nl) in
          let code :=
            code +:+ (if given onResult
                      then "var _result" +:+ n +:+ " = _fn" +:+ n +:+ "("
                           +:+ factory_args (Options.args options) before None
                           +:+ ");" +:+ nl
                      else "_fn" +:+ n +:+ "("
                           +:+ factory_args (Options.args options) before None
                           +:+ ");" +:+ nl) in
          caught ← (if rethrowIfPossible then Ret ""
                    else reported ← onError "_err";
                         Ret ("} catch(_err) {" +:+ nl
                              +:+ "_hasError" +:+ n +:+ " = true;" +:+ nl
                              +:+ reported
                              +:+ "}" +:+ nl
                              +:+ "if(!_hasError" +:+ n +:+ ") {" +:+ nl));
          result ← call_onResult;
          done ← call_onDone;
          Ret (code +:+ caught +:+ result +:+ done
               +:+ (if rethrowIfPossible then "" else "}" +:+ nl))
      | VStr "async" =>
          reported ← onError ("_err" +:+ n);
          result ← call_onResult;
          done ← call_onDone;
          let cbCode :=
            (if given onResult
             then "(_err" +:+ n +:+ ", _result" +:+ n +:+ ") => {" +:+ nl
             else "_err" +:+ n +:+ " => {" +:+ nl)
            +:+ "if(_err" +:+ n +:+ ") {" +:+ nl
            +:+ reported
            +:+ "} else {" +:+ nl
            +:+ result +:+ done
            +:+ "}" +:+ nl
            +:+ "}" in
          Ret (code +:+ "_fn" +:+ n +:+ "("
               +:+ factory_args (Options.args options) before (Some cbCode)
               +:+ ");" +:+ nl)
      | VStr "promise" =>
          result ← call_onResult;
          done ← call_onDone;
          reported ← onError ("_err" +:+ n);
          Ret (code
               +:+ "var _hasResult" +:+ n +:+ " = false;" +:+ nl
               +:+ "var _promise" +:+ n +:+ " = _fn" +:+ n +:+ "("
               +:+ factory_args (Options.args options) before None +:+ ");" +:+ nl
               +:+ "if (!_promise" +:+ n +:+ " || !_promise" +:+ n +:+ ".then)" +:+ nl
               +:+ "  throw new Error('Tap function (tapPromise) did not return promise (returned ' + _promise"
               +:+ n +:+ " + ')');" +:+ nl
               +:+ "_promise" +:+ n +:+ ".then(_result" +:+ n +:+ " => {" +:+ nl
               +:+ "_hasResult" +:+ n +:+ " = true;" +:+ nl
               +:+ result +:+ done
               +:+ "}, _err" +:+ n +:+ " => {" +:+ nl
               +:+ "if(_hasResult" +:+ n +:+ ") throw _err" +:+ n +:+ ";" +:+ nl
               +:+ reported
               +:+ "});" +:+ nl)
      | _ => Ret code
      end
  end.

(** [this.options.taps.findIndex(t => t.type !== "sync")], from index [i];
    [None] is -1. *)
Fixpoint firstAsync_from (i : nat) (taps : list value) : error + option nat :=
  match taps with
  | [] => inr None
  | t :: rest =>
      match get t "type" with
      | inl e => inl e
      | inr (VStr "sync") => firstAsync_from (i + 1) rest
      | inr _ => inr (Some i)
      end
  end.

(** The loop of [callTapsSeries], [for (let j = taps.length - 1; j >= 0; j--)],
    with [j] the number of taps still to come. [current] is the thunk of the
    source and [is_onDone] says whether it still is [onDone] itself. *)
Fixpoint series_loop (options : Options.t)
    (onError : nat → string → gen string → (bool → gen string) → gen string)
    (onResult : option (nat → string → gen string → (bool → gen string) → gen string))
    (onDone : option (gen string)) (somethingReturns rethrowIfPossible : bool)
    (firstAsync : option nat)
    (j : nat) (code : string) (current : option (gen string)) (is_onDone : bool)
    : gen string :=
  match j with
  | 0 => text ← call_thunk "current" current; Ret (code +:+ text)
  | S i =>
      let resume :=
        λ code current,
          let done := call_thunk "done" current in
          let doneBreak := λ skipDone : bool,
            if skipDone then Ret "" else call_thunk "onDone" onDone in
          content ← callTap options i
                      (λ error, onError i error done doneBreak)
                      (match onResult with
                       | Some f => Some (λ result, f i result done doneBreak)
                       | None => None
                       end)
                      (if given onResult then None else current)
                      (rethrowIfPossible
                       && match firstAsync with
                          | None => true
                          | Some first => (i <? first)%nat
                          end);
          series_loop options onError onResult onDone somethingReturns
            rethrowIfPossible firstAsync i code (Some (Ret content)) false in
      let unrolled :=
        text ← call_thunk "current" current;
        resume (code +:+ "function _next" +:+ pretty i +:+ "() {" +:+ nl
                +:+ text +:+ "}" +:+ nl)
               (Some (Ret ((if somethingReturns then "return " else "")
                           +:+ "_next" +:+ pretty i +:+ "();" +:+ nl))) in
      if is_onDone then resume code current
      else match get (array_get (Options.taps options) i) "type" with
           | inl e => Raise e
           | inr (VStr "sync") => resume code current
           | inr _ => unrolled
           end
  end.

(** [callTapsSeries({onError, onResult, resultReturns, onDone, doneReturns,
    rethrowIfPossible})] *)
Definition callTapsSeries (options : Options.t)
    (onError : nat → string → gen string → (bool → gen string) → gen string)
    (onResult : option (nat → string → gen string → (bool → gen string) → gen string))
    (resultReturns : bool) (onDone : option (gen string))
    (doneReturns rethrowIfPossible : bool) : gen string :=
  if (length (Options.taps options) =? 0)%nat then call_thunk "onDone" onDone
  else
    match firstAsync_from 0 (Options.taps options) with
    | inl e => Raise e
    | inr firstAsync =>
        series_loop options onError onResult onDone
          (resultReturns || doneReturns || false) rethrowIfPossible firstAsync
          (length (Options.taps options)) "" onDone true
    end.

(** The callbacks of the three calling conventions, as the text they return. *)
Record callbacks : Type := mkCallbacks {
  onError : string → string;
  onResult : string → string;
  onDone : string
}.

Definition sync_callbacks : callbacks :=
  {| onError := λ err, "throw " +:+ err +:+ ";" +:+ nl;
     onResult := λ result, "return " +:+ result +:+ ";" +:+ nl;
     onDone := "" |}.

Definition async_callbacks : callbacks :=
  {| onError := λ err, "_callback(" +:+ err +:+ ");" +:+ nl;
     onResult := λ result, "_callback(null, " +:+ result +:+ ");" +:+ nl;
     onDone := "_callback();" +:+ nl |}.

Definition promise_callbacks : callbacks :=
  {| onError := λ err, "_error(" +:+ err +:+ ");" +:+ nl;
     onResult := λ result, "_resolve(" +:+ result +:+ ");" +:+ nl;
     onDone := "_resolve();" +:+ nl |}.

Definition answer (cb : callbacks) (q : query) : string :=
  match q with
  | QError err => onError cb err
  | QResult result => onResult cb result
  | QDone => onDone cb
  end.

(** Running [content] against the callbacks: the code it returns and
    [errorHelperUsed], which every call of [onError] sets. *)
Fixpoint run_content (cb : callbacks) (m : gen string) (errorHelperUsed : bool)
    : error + (string * bool) :=
  match m with
  | Ret code => inr (code, errorHelperUsed)
  | Raise e => inl e
  | Ask q k =>
      run_content cb (k (answer cb q))
        (match q with QError _ => true | _ => errorHelperUsed end)
  end.

(** On the path [content] takes against the callbacks, [onError] is called. *)
Fixpoint calls_onError (cb : callbacks) (m : gen string) : bool :=
  match m with
  | Ret _ | Raise _ => false
  | Ask (QError _) _ => true
  | Ask q k => calls_onError cb (k (answer cb q))
  end.

Definition error_helper : string :=
  "var _sync = true;" +:+ nl
  +:+ "function _error(_err) {" +:+ nl
  +:+ "if(_sync)" +:+ nl
  +:+ "_resolve(Promise.resolve().then(() => { throw _err; }));" +:+ nl
  +:+ "else" +:+ nl
  +:+ "_reject(_err);" +:+ nl
  +:+ "};" +:+ nl.

Definition use_strict : string := dquote +:+ "use strict" +:+ dquote +:+ ";" +:+ nl.

(** [create(options)]: the parameters and the body given to [new Function],
    [None] when the type is none of the three and [fn] stays [undefined].
    [content], which the subclasses supply, receives [resultReturns] and
    [rethrowIfPossible] (both set for the sync convention only) and the
    callbacks. The [console.log] of the function is left out. The embedding
    ends where [create] calls [new Function]: whether the engine accepts the
    text (it throws a SyntaxError on parameters that are not distinct
    identifiers) is not part of it. *)
Definition create (content : bool → bool → gen string) (options : Options.t)
    : error + option (string * string) :=
  let _args := Options.args options in
  let type := Options.type options in
  if String.eqb type "sync" then
    match header options, run_content sync_callbacks (content true true) false with
    | inl e, _ | _, inl e => inl e
    | inr head, inr (code, _) =>
        inr (Some (factory_args _args None None, use_strict +:+ head +:+ code))
    end
  else if String.eqb type "async" then
    match header options, run_content async_callbacks (content false false) false with
    | inl e, _ | _, inl e => inl e
    | inr head, inr (code, _) =>
        inr (Some (factory_args _args None (Some "_callback"),
                   use_strict +:+ head +:+ code))
    end
  else if String.eqb type "promise" then
    match run_content promise_callbacks (content false false) false, header options with
    | inl e, _ | _, inl e => inl e
    | inr (code, errorHelperUsed), inr head =>
        inr (Some (factory_args _args None None,
                   use_strict
                   +:+ "return new Promise((_resolve, _reject) => {" +:+ nl
                   +:+ (if errorHelperUsed then error_helper else "")
                   +:+ head
                   +:+ code
                   +:+ (if errorHelperUsed then "_sync = false;" +:+ nl else "")
                   +:+ "});" +:+ nl))
    end
  else inr None.

(** The [content] of a series flavor: [callTapsSeries] with the callbacks of
    [create] passed through, [onError] reporting the error and nothing else
    ([onError: (i, err) => onError(err)]). *)
Definition series_content (options : Options.t)
    (resultReturns rethrowIfPossible : bool) : gen string :=
  callTapsSeries options (λ _ err _ _, ask_onError err) None false
    (Some ask_onDone) false rethrowIfPossible.

(** One tap, no interceptor, the promise convention. *)
Definition single_tap (tap : value) (args : list string) : Options.t :=
  Options.make [tap] [] args "promise".

(** ** HookCodeFactory: [setup], [callTapsLooping], [callTapsParallel] *)

(** The assignment [instance._x = x]. *)
Definition set__x (h : Hook) (x : value) : Hook :=
  {| _args := _args h; name := name h; taps := taps h; interceptors := interceptors h;
     _call := _call h; call := call h; _callAsync := _callAsync h;
     callAsync := callAsync h; _promise := _promise h; promise := promise h;
     _x := x; compile := compile h |}.

(** [options.taps.map(t => t.fn)] *)
Fixpoint map_fn (taps : list value) : error + list value :=
  match taps with
  | [] => inr []
  | t :: rest =>
      match get t "fn" with
      | inl e => inl e
      | inr fn =>
          match map_fn rest with
          | inl e => inl e
          | inr fns => inr (fn :: fns)
          end
      end
  end.

(** [setup(instance, options)] *)
Definition setup (instance : Hook) (options : Options.t) : outcome Hook :=
  match map_fn (Options.taps options) with
  | inl e => Throw e instance
  | inr fns => Return (set__x instance (VArr fns))
  end.

(** [this.options.taps.every(t => t.type === "sync")] *)
Fixpoint every_sync (taps : list value) : error + bool :=
  match taps with
  | [] => inr true
  | t :: rest =>
      match get t "type" with
      | inl e => inl e
      | inr (VStr "sync") => every_sync rest
      | inr _ => inr false
      end
  end.

(** The loop of [callTapsLooping] over the interceptors, from index [i]: the
    calls of [interceptor.loop]. *)
Fixpoint loop_calls (_args : list string) (i : nat) (ics : list Interceptor.t) : string :=
  match ics with
  | [] => ""
  | interceptor :: rest =>
      (if Interceptor.loop interceptor
       then getInterceptor i +:+ ".loop("
            +:+ factory_args _args
                  (if Interceptor.context interceptor then Some "_context" else None) None
            +:+ ");" +:+ nl
       else "")
      +:+ loop_calls _args (i + 1) rest
  end.

(** [callTapsLooping({onError, onDone, rethrowIfPossible})] *)
Definition callTapsLooping (options : Options.t)
    (onError : nat → string → gen string → (bool → gen string) → gen string)
    (onDone : option (gen string)) (rethrowIfPossible : bool) : gen string :=
  if (length (Options.taps options) =? 0)%nat then call_thunk "onDone" onDone
  else
    match every_sync (Options.taps options) with
    | inl e => Raise e
    | inr syncOnly =>
        let code :=
          (if syncOnly then ""
           else "var _looper = () => {" +:+ nl +:+ "var _loopAsync = false;" +:+ nl)
          +:+ "var _loop;" +:+ nl
          +:+ "do {" +:+ nl
          +:+ "_loop = false;" +:+ nl
          +:+ loop_calls (Options.args options) 0 (Options.interceptors options) in
        series ← callTapsSeries options onError
                   (Some (λ (i : nat) (result : string) (next : gen string)
                            (doneBreak : bool → gen string),
                      broken ← doneBreak true;
                      rest ← next;
                      Ret ("if(" +:+ result +:+ " !== undefined) {" +:+ nl
                           +:+ "_loop = true;" +:+ nl
                           +:+ (if syncOnly then "" else "if(_loopAsync) _looper();" +:+ nl)
                           +:+ broken
                           +:+ "} else {" +:+ nl
                           +:+ rest
                           +:+ "}" +:+ nl)))
                   false
                   (match onDone with
                    | Some done =>
                        Some (text ← done;
                              Ret ("if(!_loop) {" +:+ nl +:+ text +:+ "}" +:+ nl))
                    | None => None
                    end)
                   false (rethrowIfPossible && syncOnly);
        Ret (code +:+ series
             +:+ "} while(_loop);" +:+ nl
             +:+ (if syncOnly then ""
                  else "_loopAsync = true;" +:+ nl +:+ "};" +:+ nl +:+ "_looper();" +:+ nl))
    end.

(** The loop of [callTapsParallel], [for (let i = 0; i < taps.length; i++)],
    with [remaining] the number of taps still to come. *)
Fixpoint parallel_loop (options : Options.t)
    (onError : nat → string → gen string → (bool → gen string) → gen string)
    (onResult : option (nat → string → gen string → (bool → gen string) → gen string))
    (onDone : option (gen string)) (rethrowIfPossible : bool)
    (onTap : nat → gen string → gen string → (bool → gen string) → gen string)
    (remaining i : nat) (code : string) : gen string :=
  match remaining with
  | 0 => Ret code
  | S remaining =>
      let done :=
        Ret (if given onDone then "if(--_counter === 0) _done();" +:+ nl
             else "--_counter;") in
      let doneBreak := λ skipDone : bool,
        Ret (if skipDone || negb (given onDone) then "_counter = 0;" +:+ nl
             else "_counter = 0;" +:+ nl +:+ "_done();" +:+ nl) in
      let guarded := λ inner : string,
        "if(_counter > 0) {" +:+ nl +:+ inner +:+ "}" +:+ nl in
      text ← onTap i
               (callTap options i
                  (λ error, inner ← onError i error done doneBreak; Ret (guarded inner))
                  (match onResult with
                   | Some f =>
                       Some (λ result, inner ← f i result done doneBreak;
                                       Ret (guarded inner))
                   | None => None
                   end)
                  (if given onResult then None else Some done)
                  rethrowIfPossible)
               done doneBreak;
      parallel_loop options onError onResult onDone rethrowIfPossible onTap
        remaining (i + 1)
        (code +:+ "if(_counter <= 0) break;" +:+ nl +:+ text)
  end.

(** [callTapsParallel({onError, onResult, onDone, rethrowIfPossible,
    onTap = (i, run) => run()})] *)
Definition callTapsParallel (options : Options.t)
    (onError : nat → string → gen string → (bool → gen string) → gen string)
    (onResult : option (nat → string → gen string → (bool → gen string) → gen string))
    (onDone : option (gen string)) (rethrowIfPossible : bool)
    (onTap : option (nat → gen string → gen string → (bool → gen string) → gen string))
    : gen string :=
  if (length (Options.taps options) <=? 1)%nat
  then callTapsSeries options onError onResult false onDone false rethrowIfPossible
  else
    declared ← match onDone with
               | Some done =>
                   text ← done;
                   Ret ("var _done = () => {" +:+ nl +:+ text +:+ "};" +:+ nl)
               | None => Ret ""
               end;
    body ← parallel_loop options onError onResult onDone rethrowIfPossible
             (default (λ _ run _ _, run) onTap)
             (length (Options.taps options)) 0
             ("do {" +:+ nl
              +:+ "var _counter = " +:+ pretty (length (Options.taps options)) +:+ ";" +:+ nl
              +:+ declared);
    Ret (body +:+ "} while(false);" +:+ nl).

(** ** Vocabulary of the further properties: the hook *)

(** The [register] callback of the interceptor, if it has one, returns a tap
    for every tap: never [undefined], never [null]. *)
Definition tame (interceptor : Interceptor.t) : Prop :=
  ∀ register, Interceptor.register interceptor = Some register →
    ∀ t, nullish (register t) = false.

Definition tame_event (ev : event) : Prop :=
  match ev with
  | E_intercept interceptor => tame interceptor
  | _ => True
  end.

(** An event that rewrites no tap: any event but an [intercept] with a
    [register] callback. *)
Definition keeps_taps (ev : event) : Prop :=
  match ev with
  | E_intercept interceptor => Interceptor.register interceptor = None
  | _ => True
  end.

(** The invariant of a hook whose interceptors are tame: every tap is a value
    one can read properties of. *)
Definition readable_taps (h : Hook) : Prop :=
  Forall (λ t, nullish t = false) (taps h) ∧ Forall tame (interceptors h).





(** A hook of the base class, as the constructor and the methods of Hook.js
    leave it: [compile] is the abstract method and every slot holds its
    trampoline. *)
Definition abstract_hook (h : Hook) : Prop :=
  (∀ options, compile h options = Hook_compile options)
  ∧ _call h = CALL_DELEGATE ∧ _callAsync h = CALL_ASYNC_DELEGATE
  ∧ _promise h = PROMISE_DELEGATE
  ∧ call h = CALL_DELEGATE ∧ callAsync h = CALL_ASYNC_DELEGATE
  ∧ promise h = PROMISE_DELEGATE.

(** The three invocations. *)
Definition invoke (c : convention) (h : Hook) : outcome Hook :=
  match c with
  | Sync => invoke_call h
  | Async => invoke_callAsync h
  | Promise => invoke_promise h
  end.

(** The options a hook passes to its [compile], as [_createCall] builds them. *)
Definition call_options (type : string) (h : Hook) : Options.t :=
  Options.make (taps h) (interceptors h) (_args h) type.

(** ** Vocabulary of the further properties: the generated code *)

(** The three strategies, each as the [content] of a flavor that passes the
    callbacks of [create] through: [onError: (i, err) => onError(err)],
    [onDone] and [rethrowIfPossible] as given. *)
Inductive strategy : Type := Series | Looping | Parallel.

Definition looping_content (options : Options.t)
    (resultReturns rethrowIfPossible : bool) : gen string :=
  callTapsLooping options (λ _ err _ _, ask_onError err) (Some ask_onDone)
    rethrowIfPossible.

Definition parallel_content (options : Options.t)
    (resultReturns rethrowIfPossible : bool) : gen string :=
  callTapsParallel options (λ _ err _ _, ask_onError err) None (Some ask_onDone)
    rethrowIfPossible None.

Definition content_of (s : strategy) (options : Options.t)
    : bool → bool → gen string :=
  match s with
  | Series => series_content options
  | Looping => looping_content options
  | Parallel => parallel_content options
  end.

(** The parameter list [create] hands to [new Function]: the arguments of the
    hook, and [_callback] after them under the async convention. *)
Definition handed_parameters (options : Options.t) : string :=
  factory_args (Options.args options) None
    (if String.eqb (Options.type options) "async" then Some "_callback" else None).

(** The type is one [create] knows. *)
Definition known_type (type : string) : bool :=
  String.eqb type "sync" || String.eqb type "async" || String.eqb type "promise".

(** What the generator looks at in a tap: what reading [type] gives, and
    whether what reading [context] gives is truthy. *)
Definition code_view (t : value) : (error + value) * (error + bool) :=
  (get t "type",
   match get t "context" with inl e => inl e | inr context => inr (truthy context) end).

(** The options with other taps. *)
Definition with_taps (options : Options.t) (taps : list value) : Options.t :=
  Options.make taps (Options.interceptors options) (Options.args options)
    (Options.type options).

(** [type === name], for the [type] read off a tap. *)
Definition has_type (name : string) (type : value) : bool :=
  match type with VStr s => String.eqb s name | _ => false end.

(** Generating [m] against the callbacks returns the code ([ok]) or throws a
    TypeError (not [ok]), whatever [errorHelperUsed] was. *)
Definition generates (cb : callbacks) (m : gen string) (ok : bool) : Prop :=
  ∀ flag,
    if ok then ∃ code used, run_content cb m flag = inr (code, used)
    else ∃ k, run_content cb m flag = inl (TypeError k).

(** The taps at the indices [i], ..., [i + n - 1] are values one can read
    properties of. *)
Definition readable_range (taps : list value) (i n : nat) : bool :=
  forallb (λ j, negb (nullish (array_get taps j))) (seq i n).

(** The text of the call of tap [i] on its own, when nothing follows it and
    its errors are not caught. *)
Definition plain_call (options : Options.t) (i : nat) : string :=
  match run_content sync_callbacks
          (callTap options i ask_onError None None true) false with
  | inr (code, _) => code
  | inl _ => ""
  end.

(** The text of the call of tap [i] with its errors reported to [onError]
    and [done] as the code that follows its success. *)
Definition tap_text (cb : callbacks) (options : Options.t) (i : nat) (done : string)
    : string :=
  match run_content cb (callTap options i ask_onError None (Some (Ret done)) false)
          false with
  | inr (code, _) => code
  | inl _ => ""
  end.

(** [_nextI();] and the declaration of [_nextI] around a body. *)
Definition next_call (i : nat) : string := "_next" +:+ pretty i +:+ "();" +:+ nl.

Definition next_decl (i : nat) (body : string) : string :=
  "function _next" +:+ pretty i +:+ "() {" +:+ nl +:+ body +:+ "}" +:+ nl.

(** The code of tap [i] as a link of a chain of [n] taps: it goes on with
    [_nextI();], the last one with what [onDone] returns. *)
Definition link (cb : callbacks) (options : Options.t) (i : nat) : string :=
  tap_text cb options i
    (if (S i =? length (Options.taps options))%nat then onDone cb else next_call i).

(** The callbacks as [callTapsParallel] passes them on: what [onError]
    returns is wrapped in [if(_counter > 0) { ... }]. *)
Definition counted (cb : callbacks) : callbacks :=
  {| onError := λ err, "if(_counter > 0) {" +:+ nl +:+ onError cb err +:+ "}" +:+ nl;
     onResult := onResult cb;
     onDone := onDone cb |}.

(** What follows the success of a tap under [callTapsParallel]. *)
Definition count_down : string := "if(--_counter === 0) _done();" +:+ nl.

(** ** Further examples *)

(** An interceptor without callbacks, and one whose [register] stamps the
    tap with a stage. *)
Definition silent : Interceptor.t := Interceptor.make None false false false false.


(** The hook after [tap("A")], [tap({name: "B", stage: 5})] and
    [tap({name: "C", stage: 7})], and a descriptor to put in: before [C], at
    stage 3. *)
Definition hook_with_A_B_C : Hook :=
  run never_gt
    [E_tap By_tap (VStr "A") some_fn;
     E_tap By_tap (VObj (<["name" := VStr "B"]> {["stage" := VNum 5]})) some_fn;
     E_tap By_tap (VObj (<["name" := VStr "C"]> {["stage" := VNum 7]})) some_fn]
    empty_hook.

Definition before_C_at_stage_3 : value :=
  normalized "sync"
    (VObj (<["name" := VStr "D"]> (<["before" := VStr "C"]> {["stage" := VNum 3]})))
    some_fn.



(** Examples: two sync taps, one of them with a context; two async taps. *)
Definition two_sync_taps : list value :=
  [normalized "sync" (VStr "a") some_fn;
   normalized "sync" (VObj (<["name" := VStr "b"]> {["context" := VBool true]})) some_fn].

Definition two_async_taps : list value :=
  [normalized "async" (VStr "a") some_fn; normalized "async" (VStr "b") some_fn].


(** * Proofs *)

(** ** Reading properties, the array of the walk, sets *)

Lemma get_readable x k : nullish x = false → get x k = inr (read x k).
Proof. unfold get. by intros ->. Qed.

Lemma walking_get pre x suf : array_get (walking (pre ++ [x]) suf) (length pre) = x.
Proof.
  unfold array_get, walking. rewrite <- (assoc_L (++)). simpl.
  by rewrite list_lookup_middle.
Qed.

Lemma walking_shift pre x suf :
  array_set (walking (pre ++ [x]) suf) (length pre + 1) x = walking pre (x :: suf).
Proof.
  unfold array_set, walking. destruct suf as [|y suf].
  - rewrite app_nil_r, length_app. simpl.
    rewrite decide_False by lia. rewrite Nat.sub_diag. simpl.
    by rewrite <- (assoc_L (++)).
  - rewrite !length_app. simpl. rewrite decide_True by lia.
    rewrite <- (assoc_L (++)). simpl.
    rewrite insert_app_r_alt by lia.
    replace (length pre + 1 - length pre) with 1 by lia. done.
Qed.

Lemma walking_store_after pre x suf item :
  array_set (walking pre (x :: suf)) (length pre + 1) item = (pre ++ [x]) ++ item :: suf.
Proof.
  unfold array_set, walking. rewrite length_app. simpl.
  rewrite decide_True by lia. rewrite insert_app_r_alt by lia.
  replace (length pre + 1 - length pre) with 1 by lia.
  by rewrite <- (assoc_L (++)).
Qed.

Lemma walking_store_first suf item : array_set (walking [] suf) 0 item = item :: suf.
Proof. by destruct suf. Qed.


Lemma same_value_zero_sym a b : same_value_zero a b = true → same_value_zero b a = true.
Proof.
  destruct a, b; simpl; try done.
  - destruct b, b0; done.
  - rewrite !Z.eqb_eq. done.
  - rewrite !String.eqb_eq. done.
  - rewrite !Nat.eqb_eq. done.
Qed.

Lemma same_value_zero_trans a b c :
  same_value_zero a b = true → same_value_zero b c = true → same_value_zero a c = true.
Proof.
  destruct a, b; simpl; try done; destruct c; simpl; try done.
  - destruct b, b0, b1; done.
  - rewrite !Z.eqb_eq. congruence.
  - rewrite !String.eqb_eq. congruence.
  - rewrite !Nat.eqb_eq. congruence.
Qed.

Lemma has_exists s v : JSSet.has s v = true ↔ ∃ u, u ∈ s ∧ same_value_zero v u = true.
Proof.
  unfold JSSet.has. rewrite existsb_exists.
  split; intros (u & Hu & E); exists u; split; try done; by apply list_elem_of_In.
Qed.

Lemma has_add s v n :
  JSSet.has (JSSet.add s v) n = true ↔ JSSet.has s n = true ∨ same_value_zero n v = true.
Proof.
  unfold JSSet.add. destruct (JSSet.has s v) eqn:Hv.
  - split; [by left|]. intros [H|H]; [done|].
    apply has_exists in Hv as (u & Hu & E). apply has_exists. exists u. split; [done|].
    by eapply same_value_zero_trans.
  - rewrite !has_exists. split.
    + intros (u & Hu & E). apply elem_of_app in Hu as [Hu|Hu]; [left; eauto|].
      apply list_elem_of_singleton in Hu as ->. by right.
    + intros [(u & Hu & E)|E].
      * exists u. split; [|done]. apply elem_of_app. by left.
      * exists v. split; [|done]. apply elem_of_app. right. by apply list_elem_of_singleton.
Qed.

Lemma has_new l n :
  JSSet.has (JSSet.new l) n = true ↔ ∃ u, u ∈ l ∧ same_value_zero n u = true.
Proof.
  unfold JSSet.new.
  assert (G : ∀ acc, JSSet.has (foldl JSSet.add acc l) n = true
              ↔ JSSet.has acc n = true ∨ ∃ u, u ∈ l ∧ same_value_zero n u = true).
  { induction l as [|v l IH]; intros acc; simpl.
    - split; [by left|]. intros [H|(u & Hu & _)]; [done|]. by apply elem_of_nil in Hu.
    - rewrite IH, has_add. split.
      + intros [[H|H]|(u & Hu & E)]; [by left| |].
        * right. exists v. split; [apply list_elem_of_here|done].
        * right. exists u. split; [by apply list_elem_of_further|done].
      + intros [H|(u & Hu & E)]; [left; by left|].
        apply elem_of_cons in Hu as [->|Hu]; [left; by right|]. right; eauto. }
  rewrite G. split; [|by right]. intros [H|H]; [|done].
  apply has_exists in H as (u & Hu & _). by apply elem_of_nil in Hu.
Qed.

Lemma has_delete s v n :
  JSSet.has s n = true → JSSet.has (JSSet.delete s v) n = false →
  same_value_zero n v = true.
Proof.
  intros H Hd. apply has_exists in H as (u & Hu & E).
  destruct (same_value_zero v u) eqn:Evu.
  - eapply same_value_zero_trans; [done|]. by apply same_value_zero_sym.
  - assert (JSSet.has (JSSet.delete s v) n = true); [|congruence].
    apply has_exists. exists u. split; [|done].
    unfold JSSet.delete. apply list_elem_of_In, filter_In. split.
    + by apply list_elem_of_In.
    + by rewrite Evu.
Qed.

Lemma has_size_0 s n : (0 <? JSSet.size s) = false → JSSet.has s n = false.
Proof.
  unfold JSSet.size. destruct s; [done|]. simpl. intros H.
  apply Nat.ltb_ge in H. lia.
Qed.


Lemma insert_walk_spec coerced_gt stage pre : ∀ before suf,
  Forall (λ t, nullish t = false) pre →
  ∃ pre1 pre2 ts,
    pre = pre1 ++ pre2 ∧
    insert_walk coerced_gt (length pre) before stage (walking pre suf)
      = Return (length pre1, ts) ∧
    (∀ item, array_set ts (length pre1) item = pre1 ++ item :: pre2 ++ suf) ∧
    (before = None →
       Forall (λ y, js_gt coerced_gt (neighbour_stage y) stage = true) pre2 ∧
       (pre1 = [] ∨ ∃ pre0 x, pre1 = pre0 ++ [x] ∧
                      js_gt coerced_gt (neighbour_stage x) stage = false)) ∧
    (∀ b n, before = Some b → JSSet.has b n = true →
       pre1 = [] ∨ ∃ y, y ∈ pre2 ∧ same_value_zero n (read y "name") = true).
Proof.
  induction pre as [|x pre IH] using rev_ind; intros before suf Hpre.
  { exists [], [], (walking [] suf). simpl. split_and!; try done.
    - intros item. apply walking_store_first.
    - intros _. split; [constructor | by left].
    - intros; by left. }
  apply Forall_app in Hpre as [Hpre Hx]. rewrite Forall_singleton in Hx.
  assert (Hrec : ∀ before',
    (before = None → before' = None) →
    (∀ b n, before = Some b → JSSet.has b n = true →
       ∃ b', before' = Some b' ∧
         (JSSet.has b' n = true ∨ same_value_zero n (read x "name") = true)) →
    ∃ pre1 pre2 ts,
      pre ++ [x] = pre1 ++ pre2 ∧
      insert_walk coerced_gt (length pre) before' stage (walking pre (x :: suf))
        = Return (length pre1, ts) ∧
      (∀ item, array_set ts (length pre1) item = pre1 ++ item :: pre2 ++ suf) ∧
      (before = None → js_gt coerced_gt (neighbour_stage x) stage = true →
         Forall (λ y, js_gt coerced_gt (neighbour_stage y) stage = true) pre2 ∧
         (pre1 = [] ∨ ∃ pre0 x, pre1 = pre0 ++ [x] ∧
                        js_gt coerced_gt (neighbour_stage x) stage = false)) ∧
      (∀ b n, before = Some b → JSSet.has b n = true →
         pre1 = [] ∨ ∃ y, y ∈ pre2 ∧ same_value_zero n (read y "name") = true)).
  { intros before' HN HS.
    destruct (IH before' (x :: suf) Hpre) as (pre1 & pre2 & ts & -> & Hw & Hst & HNone & HSome).
    exists pre1, (pre2 ++ [x]), ts. split_and!.
    - by rewrite (assoc_L (++)).
    - done.
    - intros item. rewrite Hst. by rewrite <- (assoc_L (++) pre2).
    - intros Hb Hgt. destruct (HNone (HN Hb)) as [HF Hend]. split; [|done].
      apply Forall_app. split; [done|]. by apply Forall_singleton.
    - intros b n Hb Hn. destruct (HS b n Hb Hn) as (b' & -> & [Hn'|Hn']).
      + destruct (HSome b' n eq_refl Hn') as [->|(y & Hy & E)]; [by left|].
        right. exists y. split; [|done]. apply elem_of_app. by left.
      + right. exists x. split; [|done]. apply elem_of_app. right.
        by apply list_elem_of_singleton. }
  assert (Hbreak : ∃ pre1 pre2 ts,
      pre ++ [x] = pre1 ++ pre2 ∧
      (Return (length pre + 1, walking pre (x :: suf)) : outcome (nat * list value))
        = Return (length pre1, ts) ∧
      (∀ item, array_set ts (length pre1) item = pre1 ++ item :: pre2 ++ suf) ∧
      pre2 = [] ∧ pre1 = pre ++ [x]).
  { exists (pre ++ [x]), [], (walking pre (x :: suf)). split_and!; try done.
    - by rewrite app_nil_r.
    - rewrite length_app. done.
    - intros item. rewrite length_app. simpl. apply walking_store_after. }
  rewrite length_app. simpl. replace (length pre + 1) with (S (length pre)) by lia.
  simpl. replace (S (length pre)) with (length pre + 1) by lia.
  rewrite walking_get, walking_shift, !get_readable by done. simpl.
  fold (neighbour_stage x).
  destruct before as [b|].
  - destruct (JSSet.has b (read x "name")) eqn:Hhas.
    { destruct (Hrec (Some (JSSet.delete b (read x "name")))) as (pre1 & pre2 & ts & ? & ? & ? & _ & ?).
      - done.
      - intros b0 n [= <-] Hn. eexists; split; [done|].
        destruct (JSSet.has (JSSet.delete b (read x "name")) n) eqn:Hd; [by left|].
        right. by eapply has_delete.
      - exists pre1, pre2, ts. split_and!; try done. }
    destruct (0 <? JSSet.size b) eqn:Hsize.
    { destruct (Hrec (Some b)) as (pre1 & pre2 & ts & ? & ? & ? & _ & ?).
      - done.
      - intros b0 n [= <-] Hn. eauto.
      - exists pre1, pre2, ts. split_and!; try done. }
    destruct (js_gt coerced_gt (neighbour_stage x) stage) eqn:Hgt.
    { destruct (Hrec (Some b)) as (pre1 & pre2 & ts & ? & ? & ? & _ & ?).
      - done.
      - intros b0 n [= <-] Hn. eauto.
      - exists pre1, pre2, ts. split_and!; try done. }
    destruct Hbreak as (pre1 & pre2 & ts & ? & ? & ? & -> & ->).
    exists (pre ++ [x]), [], ts. split_and!; try done.
    intros b0 n [= <-] Hn. by rewrite (has_size_0 _ _ Hsize) in Hn.
  - destruct (js_gt coerced_gt (neighbour_stage x) stage) eqn:Hgt.
    { destruct (Hrec None) as (pre1 & pre2 & ts & ? & ? & ? & HN & ?).
      - done.
      - done.
      - exists pre1, pre2, ts. split_and!; try done. intros _. by apply HN. }
    destruct Hbreak as (pre1 & pre2 & ts & ? & ? & ? & -> & ->).
    exists (pre ++ [x]), [], ts. split_and!; try done.
    intros _. split; [constructor|]. right. by exists pre, x.
Qed.


Lemma insert_walk_throws coerced_gt stage i : ∀ before ts e st,
  insert_walk coerced_gt i before stage ts = Throw e st → ∃ k, e = TypeError k.
Proof.
  induction i as [|i IH]; intros before ts e st; simpl; [done|].
  unfold get. destruct (nullish (array_get ts i)).
  { intros [= <- _]. eauto. }
  destruct before as [b|].
  - destruct (JSSet.has _ _); [apply IH|].
    destruct (0 <? JSSet.size b); [apply IH|].
    destruct (js_gt _ _ _); [apply IH|done].
  - destruct (js_gt _ _ _); [apply IH|done].
Qed.

Lemma _insert_throws coerced_gt item h e h' :
  _insert coerced_gt item h = Throw e h' → ∃ k, e = TypeError k.
Proof.
  unfold _insert, get. destruct (nullish item).
  { intros [= <- _]. eauto. }
  destruct (insert_walk _ _ _ _ _) as [[i ts]|e' [i ts]] eqn:Hw; [done|].
  intros [= <- _]. by eapply insert_walk_throws.
Qed.

Lemma _insert_spec coerced_gt item h :
  nullish item = false →
  Forall (λ t, nullish t = false) (taps h) →
  ∃ pre1 pre2,
    taps h = pre1 ++ pre2 ∧
    _insert coerced_gt item h
      = Return (set_taps (_resetCompilation h) (pre1 ++ item :: pre2)) ∧
    (before_set (read item "before") = None →
       Forall (λ y, js_gt coerced_gt (neighbour_stage y) (stage_of item) = true) pre2 ∧
       (pre1 = [] ∨ ∃ pre0 x, pre1 = pre0 ++ [x] ∧
                      js_gt coerced_gt (neighbour_stage x) (stage_of item) = false)) ∧
    (∀ b n, before_set (read item "before") = Some b → JSSet.has b n = true →
       pre1 = [] ∨ ∃ y, y ∈ pre2 ∧ same_value_zero n (read y "name") = true).
Proof.
  intros Hitem Hts.
  destruct (insert_walk_spec coerced_gt (stage_of item) (taps h)
              (before_set (read item "before")) [] Hts)
    as (pre1 & pre2 & ts & Hsplit & Hw & Hst & HN & HS).
  exists pre1, pre2. split; [done|].
  unfold walking in Hw. rewrite app_nil_r in Hw.
  unfold _insert. rewrite !get_readable by done. simpl.
  unfold stage_of in Hw. rewrite get_readable in Hw by done.
  rewrite Hw, Hst, app_nil_r. done.
Qed.

Lemma insert_walk_returns coerced_gt stage pre : ∀ before suf k ts,
  insert_walk coerced_gt (length pre) before stage (walking pre suf) = Return (k, ts) →
  ∃ pre1 pre2,
    pre = pre1 ++ pre2 ∧ k = length pre1
    ∧ ∀ item, array_set ts k item = pre1 ++ item :: pre2 ++ suf.
Proof.
  induction pre as [|x pre IH] using rev_ind; intros before suf k ts.
  { simpl. intros [= <- <-]. exists [], []. split_and!; try done.
    intros item. apply walking_store_first. }
  assert (Hrec : ∀ before',
    insert_walk coerced_gt (length pre) before' stage (walking pre (x :: suf))
      = Return (k, ts) →
    ∃ pre1 pre2,
      pre ++ [x] = pre1 ++ pre2 ∧ k = length pre1
      ∧ ∀ item, array_set ts k item = pre1 ++ item :: pre2 ++ suf).
  { intros before' Hw.
    destruct (IH before' (x :: suf) k ts Hw) as (pre1 & pre2 & -> & -> & Hst).
    exists pre1, (pre2 ++ [x]). split_and!; [by rewrite (assoc_L (++))|done|].
    intros item. rewrite Hst. by rewrite <- (assoc_L (++) pre2). }
  assert (Hbreak :
    (Return (length pre + 1, walking pre (x :: suf)) : outcome (nat * list value))
      = Return (k, ts) →
    ∃ pre1 pre2,
      pre ++ [x] = pre1 ++ pre2 ∧ k = length pre1
      ∧ ∀ item, array_set ts k item = pre1 ++ item :: pre2 ++ suf).
  { intros [= <- <-]. exists (pre ++ [x]), []. split_and!.
    - by rewrite app_nil_r.
    - rewrite length_app. done.
    - intros item. apply walking_store_after. }
  rewrite length_app. simpl. replace (length pre + 1) with (S (length pre)) by lia.
  simpl. replace (S (length pre)) with (length pre + 1) by lia.
  rewrite walking_get, walking_shift. unfold get.
  destruct (nullish x); [done|].
  destruct before as [b|].
  - destruct (JSSet.has _ _); [apply Hrec|].
    destruct (0 <? JSSet.size b); [apply Hrec|].
    destruct (js_gt _ _ _); [apply Hrec|apply Hbreak].
  - destruct (js_gt _ _ _); [apply Hrec|apply Hbreak].
Qed.

Lemma _insert_returns coerced_gt item h h' :
  _insert coerced_gt item h = Return h' →
  ∃ pre1 pre2, taps h = pre1 ++ pre2 ∧ taps h' = pre1 ++ item :: pre2.
Proof.
  unfold _insert. destruct (get item "before") as [|item_before]; [done|].
  destruct (get item "stage") as [|item_stage]; [done|].
  destruct (insert_walk _ _ _ _ _) as [[k ts]|e [k ts]] eqn:Hw; [|done].
  intros [= <-]. simpl in Hw.
  pose proof (insert_walk_returns coerced_gt
                (match item_stage with VNum n => n | _ => 0%Z end) (taps h)
                (before_set item_before) [] k ts) as Hr.
  unfold walking in Hr. rewrite app_nil_r in Hr.
  destruct (Hr Hw) as (pre1 & pre2 & Hsplit & -> & Hst).
  exists pre1, pre2. split; [done|]. simpl. by rewrite Hst, app_nil_r.
Qed.

(** C9, as the code has it. Insertion preserves the existing taps whenever
    it returns. A call of [_insert] that returns has made [taps] longer by
    exactly one, and the new array is the old one with the item put in at
    one position [p]: the entries before [p] and the entries from [p] on are
    the old ones, in their old order; the duplicate the backward walk leaves
    at [i] and [i + 1] is overwritten by the final store. [_insert] returns
    when neither the item nor an entry of [taps] is [undefined] or [null];
    when it throws, it throws a TypeError. (Comparing the stages does not
    throw: [coerced_gt] answers, as the comparison of numbers does.) *)
Theorem insert_keeps_existing_taps (coerced_gt : value → Z → bool) (item : value) (h : Hook) :
  (∀ h', _insert coerced_gt item h = Return h' →
     inserted_at_one_position item (taps h) (taps h')
     ∧ length (taps h') = S (length (taps h)))
  ∧ (nullish item = false →
     Forall (λ t, nullish t = false) (taps h) →
     ∃ h', _insert coerced_gt item h = Return h')
  ∧ (∀ e h', _insert coerced_gt item h = Throw e h' → ∃ k, e = TypeError k).
Proof.
  split_and!.
  - intros h' Hins.
    destruct (_insert_returns coerced_gt item h h' Hins) as (pre1 & pre2 & Hsplit & Hnew).
    split.
    + exists (length pre1). rewrite Hsplit, Hnew.
      rewrite take_app_length, drop_app_length, length_app. split; [lia|done].
    + rewrite Hsplit, Hnew, !length_app. simpl. lia.
  - intros Hitem Hts.
    destruct (_insert_spec coerced_gt item h Hitem Hts) as (pre1 & pre2 & _ & Hins & _).
    eauto.
  - intros e h'. apply _insert_throws.
Qed.

Lemma insert_keeps_existing_taps_witness :
  ∃ h',
    _insert never_gt (VObj {["name" := VStr "B"]}) hook_with_A = Return h'
    ∧ inserted_at_one_position (VObj {["name" := VStr "B"]}) (taps hook_with_A) (taps h')
    ∧ length (taps h') = S (length (taps hook_with_A)).
Proof.
  destruct (insert_keeps_existing_taps never_gt (VObj {["name" := VStr "B"]}) hook_with_A)
    as (Hret & Hok & _).
  destruct Hok as [h' Hh'].
  - reflexivity.
  - vm_compute. repeat constructor.
  - exists h'. split; [exact Hh'|]. apply Hret. exact Hh'.
Defined.

(** C9, counterexample. After [tap("A", fn)] and an [intercept] whose
    [register] returns nothing, [taps] is [[undefined]]. The next call of
    [_insert] throws on reading [stage] off that entry, after the walk has
    copied it one position up: [taps] is left as [[undefined, undefined]],
    which is not the old array with the item put in. With [null] for the
    item, [_insert] throws before it touches [taps], which does not grow. *)
Lemma insert_keeps_counterexample :
  (taps (intercept forgetful_register hook_with_A) = [VUndefined]
   ∧ _insert never_gt (VObj {["name" := VStr "B"]}) (intercept forgetful_register hook_with_A)
     = Throw (TypeError "stage")
         (set_taps (intercept forgetful_register hook_with_A) [VUndefined; VUndefined])
   ∧ ¬ inserted_at_one_position (VObj {["name" := VStr "B"]}) [VUndefined]
         [VUndefined; VUndefined])
  ∧ (_insert never_gt VNull hook_with_A = Throw (TypeError "before") hook_with_A
     ∧ ¬ inserted_at_one_position VNull (taps hook_with_A) (taps hook_with_A)).
Proof.
  split_and!.
  - by vm_compute.
  - by vm_compute.
  - intros (p & Hp & E). simpl in Hp. destruct p as [|[|p]]; [done|done|lia].
  - by vm_compute.
  - intros (p & _ & E). apply (f_equal length) in E.
    rewrite length_app in E. simpl in E. rewrite length_take, length_drop in E. lia.
Qed.


Lemma name_test nm :
  (negb (String.eqb (typeof nm) "string")
   || match nm with VStr "" => true | _ => false end)
  = negb (match nm with VStr s => negb (String.eqb s "") | _ => false end).
Proof. destruct nm as [| | | |s| | |]; try done. by destruct s. Qed.

Lemma run_register_fold ics : ∀ d, run_register ics d = register_fold ics d.
Proof.
  unfold register_fold. induction ics as [|i ics IH]; intros d; simpl; [done|].
  unfold register_step at 2. destruct (Interceptor.register i) as [r|]; [|apply IH].
  destruct (r d); apply IH.
Qed.

Lemma _tap_unfold coerced_gt type options fn h :
  _tap coerced_gt type options fn h =
  if negb (is_string options || is_object options)
  then Throw (Error "Invalid tap options") h
  else if negb (has_name (wrapped options))
  then Throw (Error "Missing name for tap") h
  else _insert coerced_gt
         (register_fold (interceptors h) (normalized type options fn)) h.
Proof.
  rewrite <- run_register_fold. unfold _tap, _runRegisterInterceptors.
  destruct options as [| |b|n|s|f i|l|m]; try reflexivity.
  - change (wrapped (VStr s)) with (VObj {["name" := VStr s]}).
    cbn [typeof String.eqb Ascii.eqb Bool.eqb is_string is_object negb orb andb].
    unfold has_name. rewrite !get_readable by done.
    rewrite name_test. by destruct (read _ _) as [| | | |s'| | |].
  - change (wrapped (VArr l)) with (VArr l).
    cbn [typeof String.eqb Ascii.eqb Bool.eqb is_string is_object negb orb andb nullish].
    unfold has_name. rewrite !get_readable by done.
    rewrite name_test. by destruct (read _ _) as [| | | |s'| | |].
  - change (wrapped (VObj m)) with (VObj m).
    cbn [typeof String.eqb Ascii.eqb Bool.eqb is_string is_object negb orb andb nullish].
    unfold has_name. rewrite !get_readable by done.
    rewrite name_test. by destruct (read _ _) as [| | | |s'| | |].
Qed.

Lemma call_tap_unfold coerced_gt m options fn h :
  call_tap coerced_gt m options fn h = _tap coerced_gt (tap_type m) options fn h.
Proof. by destruct m. Qed.


Lemma valid_options_split options :
  valid_options options = true ↔
  (is_string options || is_object options) = true ∧ has_name (wrapped options) = true.
Proof. unfold valid_options. by rewrite andb_true_iff. Qed.

Lemma _tap_valid coerced_gt type options fn h :
  valid_options options = true →
  _tap coerced_gt type options fn h
  = _insert coerced_gt (register_fold (interceptors h) (normalized type options fn)) h.
Proof.
  intros [H1 H2]%valid_options_split. by rewrite _tap_unfold, H1, H2.
Qed.

Lemma _tap_not_valid coerced_gt type options fn h :
  valid_options options = false →
  _tap coerced_gt type options fn h
  = Throw (Error (if is_string options || is_object options
                  then "Missing name for tap" else "Invalid tap options")) h.
Proof.
  unfold valid_options. rewrite _tap_unfold.
  destruct (is_string options || is_object options); simpl; [|done]. by intros ->.
Qed.

(** C10. A registration that fails validation changes nothing. When [tap],
    [tapAsync] or [tapPromise] throws "Invalid tap options" or "Missing name
    for tap", the hook the throw leaves is the hook as it was: the same taps
    and interceptors, and the three dispatcher slots untouched (not reset to
    the trampolines), since validation comes before [_insert]. *)
Theorem failed_registration_leaves_hook_unchanged (coerced_gt : value → Z → bool)
    (m : tap_method) (options fn : value) (h h' : Hook) :
  call_tap coerced_gt m options fn h = Throw (Error "Invalid tap options") h'
  ∨ call_tap coerced_gt m options fn h = Throw (Error "Missing name for tap") h' →
  h' = h ∧ taps h' = taps h ∧ interceptors h' = interceptors h
  ∧ call h' = call h ∧ callAsync h' = callAsync h ∧ promise h' = promise h.
Proof.
  rewrite call_tap_unfold. intros H.
  assert (h' = h) as ->; [|done].
  destruct (valid_options options) eqn:Hv.
  - rewrite _tap_valid in H by done.
    destruct H as [H|H]; apply _insert_throws in H as [k [=]].
  - rewrite _tap_not_valid in H by done. destruct H as [[= _ <-]|[= _ <-]]; done.
Qed.

Lemma failed_registration_leaves_hook_unchanged_witness :
  call_tap never_gt By_tap (VStr "") some_fn
    (set_call compiling_hook (Compiled "" ""))
  = Throw (Error "Missing name for tap") (set_call compiling_hook (Compiled "" ""))
  ∧ call (set_call compiling_hook (Compiled "" "")) = Compiled "" "".
Proof.
  split; [reflexivity|].
  pose proof (failed_registration_leaves_hook_unchanged never_gt By_tap (VStr "") some_fn
                (set_call compiling_hook (Compiled "" ""))
                (set_call compiling_hook (Compiled "" ""))
                (or_intror eq_refl)) as (_ & _ & _ & Hcall & _).
  exact Hcall.
Defined.

(** C7. The registration error contract. [tap], [tapAsync] and [tapPromise]
    throw "Invalid tap options" exactly when the options are neither a string
    nor an object, and "Missing name for tap" exactly when they are a string
    or an object and the [name] of the (string-wrapped) options is not a
    non-empty string. Options that are a string or an object, with a
    non-empty string name, raise no usage error. *)
Theorem registration_error_contract (coerced_gt : value → Z → bool)
    (m : tap_method) (options fn : value) (h : Hook) :
  ((∃ h', call_tap coerced_gt m options fn h = Throw (Error "Invalid tap options") h')
   ↔ is_string options = false ∧ is_object options = false)
  ∧ ((∃ h', call_tap coerced_gt m options fn h = Throw (Error "Missing name for tap") h')
     ↔ (is_string options = true ∨ is_object options = true)
       ∧ has_name (wrapped options) = false)
  ∧ ((is_string options = true ∨ is_object options = true)
     ∧ has_name (wrapped options) = true →
     ∀ message h', call_tap coerced_gt m options fn h ≠ Throw (Error message) h').
Proof.
  rewrite call_tap_unfold, _tap_unfold.
  destruct (is_string options) eqn:Hs, (is_object options) eqn:Ho; simpl;
    (destruct (has_name (wrapped options)) eqn:Hn; simpl);
    (split_and!; [split| split|]);
    try (intros [h' H]; try discriminate H; apply _insert_throws in H as [k [=]]);
    try (intros [? ?]; discriminate);
    try (intros [[?|?] ?]; discriminate);
    try (intros _; by eexists);
    try (intros _ message h' H; apply _insert_throws in H as [k [=]]);
    try (split; [by left|done]); try (split; [by right|done]).
Qed.

Lemma registration_error_contract_witness :
  ∃ h', call_tap never_gt By_tapPromise (VNum 5) some_fn empty_hook
        = Throw (Error "Invalid tap options") h'.
Proof.
  apply (proj1 (registration_error_contract never_gt By_tapPromise
                  (VNum 5) some_fn empty_hook)).
  split; reflexivity.
Defined.



Lemma register_existing_map register suf : ∀ pre,
  register_existing register (length suf) (length pre) (pre ++ suf)
  = pre ++ (register <$> suf).
Proof.
  induction suf as [|x suf IH]; intros pre; simpl; [done|].
  unfold array_get, array_set. rewrite list_lookup_middle by done. simpl.
  rewrite decide_True by (rewrite length_app; simpl; lia).
  rewrite insert_app_r_alt, Nat.sub_diag by lia. simpl.
  specialize (IH (pre ++ [register x])).
  rewrite length_app, <- !(assoc_L (++)) in IH. simpl in IH. done.
Qed.

(** C3. [intercept] overwrites the existing taps unconditionally. With an
    interceptor that defines [register], [intercept] appends the interceptor
    and replaces every entry [taps[i]] by [register(taps[i])], whatever that
    is: where [register] returns [undefined] the entry becomes [undefined].
    The fold at registration, with the same interceptor, keeps such a
    descriptor. *)
Theorem intercept_overwrites_unconditionally (interceptor : Interceptor.t)
    (register : value → value) (h : Hook) :
  Interceptor.register interceptor = Some register →
  taps (intercept interceptor h) = register <$> taps h
  ∧ interceptors (intercept interceptor h) = interceptors h ++ [interceptor]
  ∧ ∀ i t, taps h !! i = Some t → register t = VUndefined →
      taps (intercept interceptor h) !! i = Some VUndefined
      ∧ _runRegisterInterceptors t (set_interceptors h [interceptor]) = t.
Proof.
  intros Hr. unfold intercept. rewrite Hr. simpl.
  pose proof (register_existing_map register (taps h) []) as Hmap. simpl in Hmap.
  rewrite Hmap. split_and!; try done.
  intros i t Hi Hu. split.
  - by rewrite list_lookup_fmap, Hi, <- Hu.
  - unfold _runRegisterInterceptors. simpl. by rewrite Hr, Hu.
Qed.

Lemma intercept_overwrites_unconditionally_witness :
  taps (intercept forgetful_register hook_with_A) = [VUndefined].
Proof.
  rewrite (proj1 (intercept_overwrites_unconditionally forgetful_register
                    (λ _, VUndefined) hook_with_A eq_refl)).
  reflexivity.
Defined.



Lemma read_own_enumerable v k :
  (is_string v || is_object v) = true → k ≠ "length" →
  read (VObj (own_enumerable (wrapped v))) k = read (wrapped v) k.
Proof.
  intros Hv Hk. destruct v as [| |b|n|s|f i|l|m]; try done.
  unfold read. simpl. by rewrite lookup_insert_ne.
Qed.





Lemma js_gt_plain coerced_gt y stage :
  nullish y = false → plain_stage y = true →
  js_gt coerced_gt (neighbour_stage y) stage = (stage <? stage_of y)%Z.
Proof.
  intros Hy. unfold plain_stage, stage_of, neighbour_stage.
  rewrite get_readable by done.
  destruct (read y "stage") as [| | |n| | | |]; try done.
  simpl. by destruct (Z.eqb_spec n 0) as [->|].
Qed.

Lemma no_before_hint_set item :
  nullish item = false → no_before_hint item = true →
  before_set (read item "before") = None.
Proof.
  intros Hitem. unfold no_before_hint. rewrite get_readable by done.
  by destruct (read item "before").
Qed.

Lemma stage_ascending_insert l1 l2 x :
  stage_ascending (l1 ++ l2) →
  Forall (λ y, (stage_of y ≤ stage_of x)%Z) l1 →
  Forall (λ y, (stage_of x < stage_of y)%Z) l2 →
  stage_ascending (l1 ++ x :: l2).
Proof.
  intros Hs H1 H2 a b u v Hab Ha Hb.
  rewrite Forall_lookup in H1. rewrite Forall_lookup in H2.
  destruct (decide (a < length l1)) as [Ha1|Ha1].
  - rewrite lookup_app_l in Ha by done.
    destruct (decide (b < length l1)) as [Hb1|Hb1].
    + rewrite lookup_app_l in Hb by done.
      apply (Hs a b); [done| |]; by rewrite lookup_app_l.
    + rewrite lookup_app_r in Hb by lia.
      destruct (b - length l1) as [|k] eqn:Hk; simpl in Hb.
      * injection Hb as <-. by eapply H1.
      * apply (Hs a (length l1 + k)); [lia|by rewrite lookup_app_l|].
        rewrite lookup_app_r by lia. by replace (length l1 + k - length l1) with k by lia.
  - rewrite lookup_app_r in Ha by lia. rewrite lookup_app_r in Hb by lia.
    destruct (a - length l1) as [|ka] eqn:Hka; simpl in Ha;
      (destruct (b - length l1) as [|kb] eqn:Hkb; simpl in Hb; [lia|]).
    + injection Ha as <-. apply Z.lt_le_incl. by eapply H2.
    + apply (Hs (length l1 + ka) (length l1 + kb)); [lia| |];
        rewrite lookup_app_r by lia.
      * by replace (length l1 + ka - length l1) with ka by lia.
      * by replace (length l1 + kb - length l1) with kb by lia.
Qed.

Lemma insert_by_stage coerced_gt item h :
  nullish item = false → no_before_hint item = true →
  Forall (λ t, nullish t = false ∧ plain_stage t = true) (taps h) →
  stage_ascending (taps h) →
  ∃ pre1 pre2,
    taps h = pre1 ++ pre2 ∧
    _insert coerced_gt item h
      = Return (set_taps (_resetCompilation h) (pre1 ++ item :: pre2)) ∧
    Forall (λ y, (stage_of y ≤ stage_of item)%Z) pre1 ∧
    Forall (λ y, (stage_of item < stage_of y)%Z) pre2.
Proof.
  intros Hitem Hnb Hts Hasc.
  assert (Hts' : Forall (λ t, nullish t = false) (taps h)).
  { eapply Forall_impl; [done|]. by intros t [? _]. }
  destruct (_insert_spec coerced_gt item h Hitem Hts')
    as (pre1 & pre2 & Hsplit & Hins & HN & _).
  destruct (HN (no_before_hint_set _ Hitem Hnb)) as [Hpass Hstop].
  exists pre1, pre2. split_and!; try done.
  - rewrite Hsplit in Hts, Hasc. apply Forall_app in Hts as [Hts1 _].
    destruct Hstop as [->|(pre0 & x & -> & Hx)]; [constructor|].
    apply Forall_app in Hts1 as [Hts0 Htx]. rewrite Forall_singleton in Htx.
    destruct Htx as [Hxn Hxp]. rewrite js_gt_plain in Hx by done.
    apply Z.ltb_ge in Hx.
    apply Forall_app. split; [|by apply Forall_singleton].
    apply Forall_lookup. intros i y Hy.
    assert (stage_of y ≤ stage_of x)%Z; [|lia].
    apply (Hasc i (length pre0)).
    + by apply lookup_lt_Some in Hy.
    + rewrite <- !(assoc_L (++)). by rewrite lookup_app_l by (by eapply lookup_lt_Some).
    + rewrite <- !(assoc_L (++)). simpl. by rewrite list_lookup_middle.
  - rewrite Hsplit in Hts. apply Forall_app in Hts as [_ Hts2].
    rewrite Forall_forall in Hpass. rewrite Forall_forall in Hts2.
    apply Forall_forall. intros y Hy. destruct (Hts2 y Hy) as [Hyn Hyp].
    specialize (Hpass y Hy). rewrite js_gt_plain in Hpass by done.
    by apply Z.ltb_lt in Hpass.
Qed.


Lemma wrapped_readable options :
  (is_string options || is_object options) = true → nullish (wrapped options) = false.
Proof. by destruct options. Qed.

Lemma get_normalized type options fn k :
  (is_string options || is_object options) = true →
  k ≠ "type" → k ≠ "fn" → k ≠ "length" →
  get (normalized type options fn) k = get (wrapped options) k.
Proof.
  intros Hv Ht Hf Hl. rewrite !get_readable by (done || by apply wrapped_readable).
  f_equal. rewrite <- (read_own_enumerable options k) by done.
  unfold normalized, read. simpl. rewrite lookup_union_l; [done|].
  rewrite lookup_insert_ne by done. by rewrite lookup_singleton_ne.
Qed.

Section descriptor_fields.
Context (r : registration).
Hypothesis valid : valid_options (reg_options r) = true.

Lemma valid_string_or_object :
  (is_string (reg_options r) || is_object (reg_options r)) = true.
Proof. by apply valid_options_split in valid as [? _]. Qed.

#[local] Hint Resolve valid_string_or_object : core.

Lemma descriptor_stage_of : stage_of (descriptor r) = stage_of (wrapped (reg_options r)).
Proof. unfold stage_of, descriptor. by rewrite get_normalized. Qed.

Lemma descriptor_plain_stage :
  plain_stage (descriptor r) = plain_stage (wrapped (reg_options r)).
Proof. unfold plain_stage, descriptor. by rewrite get_normalized. Qed.

Lemma descriptor_no_before_hint :
  no_before_hint (descriptor r) = no_before_hint (wrapped (reg_options r)).
Proof. unfold no_before_hint, descriptor. by rewrite get_normalized. Qed.

Lemma descriptor_before_names :
  before_names (descriptor r) = before_names (wrapped (reg_options r)).
Proof. unfold before_names, descriptor. by rewrite get_normalized. Qed.


End descriptor_fields.

Lemma call_tap_plain coerced_gt r h :
  valid_options (reg_options r) = true → interceptors h = [] →
  call_tap coerced_gt (reg_method r) (reg_options r) (reg_fn r) h
  = _insert coerced_gt (descriptor r) h.
Proof.
  intros Hv Hi. rewrite call_tap_unfold, _tap_valid by done. by rewrite Hi.
Qed.

Lemma of_stage_app s l1 l2 : of_stage s (l1 ++ l2) = of_stage s l1 ++ of_stage s l2.
Proof. apply List.filter_app. Qed.

Lemma of_stage_cons s x l :
  of_stage s (x :: l) = (if (stage_of x =? s)%Z then [x] else []) ++ of_stage s l.
Proof. unfold of_stage. simpl. by destruct (stage_of x =? s)%Z. Qed.

Lemma of_stage_above s l :
  Forall (λ y, (s < stage_of y)%Z) l → of_stage s l = [].
Proof.
  induction 1 as [|y l Hy _ IH]; [done|]. unfold of_stage in *. simpl.
  rewrite IH. destruct (Z.eqb_spec (stage_of y) s); [lia|done].
Qed.

Lemma of_stage_sublist s l : of_stage s l `sublist_of` l.
Proof.
  induction l as [|x l IH]; [constructor|]. rewrite of_stage_cons.
  destruct (stage_of x =? s)%Z; simpl; by constructor.
Qed.

Lemma sublist_of_stage s l1 l2 :
  l1 `sublist_of` l2 → of_stage s l1 `sublist_of` of_stage s l2.
Proof.
  induction 1 as [|x l1 l2 _ IH|x l1 l2 _ IH]; [constructor| |];
    rewrite ?of_stage_cons; destruct (stage_of x =? s)%Z; simpl;
    try done; by constructor.
Qed.

Lemma pair_sublist (l : list value) x y : ∀ i j,
  i < j → l !! i = Some x → l !! j = Some y → [x; y] `sublist_of` l.
Proof.
  induction l as [|z l IH]; intros i j Hij Hi Hj; [done|].
  destruct i as [|i].
  - injection Hi as ->. destruct j as [|j]; [lia|]. simpl in Hj.
    apply sublist_skip. apply list_elem_of_lookup_2 in Hj.
    apply list_elem_of_split in Hj as (l1 & l2 & ->).
    apply sublist_inserts_l. apply sublist_skip. apply sublist_nil_l.
  - destruct j as [|j]; [lia|]. apply sublist_cons. apply (IH i j); [lia|done..].
Qed.

Lemma sublist_pair (l : list value) x y :
  [x; y] `sublist_of` l → ∃ a b, a < b ∧ l !! a = Some x ∧ l !! b = Some y.
Proof.
  induction l as [|z l IH]; intros Hsub; [by apply sublist_nil_r in Hsub|].
  apply sublist_cons_r in Hsub as [Hsub|(l' & [= <- <-] & Hsub)].
  - destruct (IH Hsub) as (a & b & Hab & Ha & Hb).
    exists (S a), (S b). split_and!; [lia|done..].
  - assert (Hy : y ∈ l).
    { apply (sublist_subseteq _ _ Hsub). apply list_elem_of_here. }
    apply list_elem_of_lookup in Hy as [b Hb].
    exists 0, (S b). split_and!; [lia|done..].
Qed.

Lemma fifo_by_index s (ds ts : list value) x y i j a b :
  NoDup ts → of_stage s ts = of_stage s ds →
  stage_of x = s → stage_of y = s →
  i < j → ds !! i = Some x → ds !! j = Some y →
  ts !! a = Some x → ts !! b = Some y → a < b.
Proof.
  intros Hnd Hof Hx Hy Hij Hi Hj Ha Hb.
  assert (Hsub : [x; y] `sublist_of` ts).
  { transitivity (of_stage s ts); [|apply of_stage_sublist].
    rewrite Hof. replace [x; y] with (of_stage s [x; y]).
    - apply sublist_of_stage. by eapply pair_sublist.
    - unfold of_stage. simpl. rewrite Hx, Hy, Z.eqb_refl. done. }
  apply sublist_pair in Hsub as (a' & b' & Hab & Ha' & Hb').
  by rewrite (NoDup_lookup _ _ _ _ Hnd Ha Ha'), (NoDup_lookup _ _ _ _ Hnd Hb Hb').
Qed.

Lemma register_all_by_stage coerced_gt rs : ∀ h,
  interceptors h = [] →
  Forall (λ t, nullish t = false ∧ plain_stage t = true) (taps h) →
  stage_ascending (taps h) →
  Forall (λ r, valid_options (reg_options r) = true
               ∧ no_before_hint (wrapped (reg_options r)) = true
               ∧ plain_stage (wrapped (reg_options r)) = true) rs →
  ∃ h', register_all coerced_gt rs h = Return h'
        ∧ taps h' ≡ₚ taps h ++ (descriptor <$> rs)
        ∧ stage_ascending (taps h')
        ∧ ∀ s, of_stage s (taps h')
               = of_stage s (taps h) ++ of_stage s (descriptor <$> rs).
Proof.
  induction rs as [|r rs IH]; intros h Hi Hts Hasc Hrs.
  { exists h. simpl. rewrite app_nil_r. split_and!; try done.
    intros s. by rewrite app_nil_r. }
  apply Forall_cons in Hrs as [(Hv & Hnb & Hp) Hrs]. simpl.
  rewrite call_tap_plain by done.
  rewrite <- descriptor_no_before_hint in Hnb by done.
  rewrite <- descriptor_plain_stage in Hp by done.
  destruct (insert_by_stage coerced_gt (descriptor r) h) as
    (pre1 & pre2 & Hsplit & -> & Hle & Hlt); try done.
  destruct (IH (set_taps (_resetCompilation h) (pre1 ++ descriptor r :: pre2)))
    as (h' & -> & Hperm & Hasc' & Hof); try done.
  - simpl. rewrite Hsplit in Hts. apply Forall_app in Hts as [H1 H2].
    apply Forall_app. split; [done|]. by apply Forall_cons.
  - simpl. apply stage_ascending_insert; try done. by rewrite <- Hsplit.
  - exists h'. simpl in *. split_and!; try done.
    + rewrite Hperm, Hsplit, <- !(assoc_L (++)). simpl.
      apply Permutation_app_head. apply Permutation_middle.
    + intros s. rewrite Hof, Hsplit, !of_stage_app, !of_stage_cons.
      destruct (Z.eqb_spec (stage_of (descriptor r)) s) as [<-|Hne].
      * rewrite (of_stage_above _ _ Hlt), !app_nil_r.
        by rewrite <- !(assoc_L (++)).
      * simpl. by rewrite <- !(assoc_L (++)).
Qed.


Lemma name_of_read y : nullish y = false → name_of y = read y "name".
Proof. intros Hy. unfold name_of. by rewrite get_readable. Qed.

Lemma same_value_zero_string s v : same_value_zero (VStr s) v = true → v = VStr s.
Proof. destruct v; try done. simpl. by intros ->%String.eqb_eq. Qed.

Lemma before_names_set T s :
  nullish T = false → VStr s ∈ before_names T →
  ∃ b, before_set (read T "before") = Some b ∧ JSSet.has b (VStr s) = true.
Proof.
  intros HT. unfold before_names. rewrite get_readable by done.
  assert (Hrefl : same_value_zero (VStr s) (VStr s) = true) by apply String.eqb_refl.
  destruct (read T "before") as [| | | |s'| |elems|]; try (by intros ?%elem_of_nil).
  - intros Hin. eexists. split; [done|]. apply has_new. eauto.
  - intros Hin. eexists. split; [done|]. apply has_new. eauto.
Qed.










(** C2. Stage order with FIFO ties. On a new hook, a sequence of valid
    registrations without [before] hints, each with a number or nothing for
    its stage, succeeds; [taps] holds exactly the registered descriptors, in
    ascending stage order (a missing stage counts as 0), and the taps of any
    one stage stand in the order of their registration: the stage's taps form
    the same list in [taps] as in the registrations, and of two distinct
    descriptors of one stage the one registered first has the smaller index.
    Tapping
    [{name: "a", stage: 10}], [{name: "b", stage: -5}], [{name: "c"}],
    [{name: "d", stage: 0}] gives the order b, c, d, a. *)
Theorem stage_order_fifo (coerced_gt : value → Z → bool)
    (compile : Options.t → error + (string * string)) (args : list string)
    (name : value) :
  (∀ rs,
     Forall (λ r, valid_options (reg_options r) = true
                  ∧ no_before_hint (wrapped (reg_options r)) = true
                  ∧ plain_stage (wrapped (reg_options r)) = true) rs →
     ∃ h, register_all coerced_gt rs (new_Hook compile args name) = Return h
          ∧ taps h ≡ₚ descriptor <$> rs
          ∧ stage_ascending (taps h)
          ∧ (∀ s, of_stage s (taps h) = of_stage s (descriptor <$> rs))
          ∧ (NoDup (descriptor <$> rs) →
             ∀ i j a b x y,
               i < j →
               (descriptor <$> rs) !! i = Some x →
               (descriptor <$> rs) !! j = Some y →
               stage_of x = stage_of y →
               taps h !! a = Some x → taps h !! b = Some y →
               a < b))
  ∧ outcome_names (register_all coerced_gt stage_scenario (new_Hook compile args name))
    = Some [VStr "b"; VStr "c"; VStr "d"; VStr "a"].
Proof.
  split; [|by vm_compute].
  intros rs Hrs.
  destruct (register_all_by_stage coerced_gt rs (new_Hook compile args name))
    as (h & Hh & Hperm & Hasc & Hof); try done; try (by constructor).
  exists h. split_and!; try done.
  intros Hnd i j a b x y Hij Hi Hj Hxy Ha Hb.
  apply (fifo_by_index (stage_of y) (descriptor <$> rs) (taps h) x y i j);
    try done.
  by rewrite Hperm.
Qed.

Lemma stage_order_fifo_witness :
  ∃ h, register_all never_gt stage_scenario empty_hook = Return h
       ∧ stage_ascending (taps h).
Proof.
  destruct (proj1 (stage_order_fifo never_gt Hook_compile ["x"] VUndefined) stage_scenario)
    as (h & Hh & _ & Hasc & _ & _).
  - repeat constructor.
  - exists h. done.
Defined.

Lemma _insert_slots coerced_gt item h c :
  slot c (state_of (_insert coerced_gt item h)) = trampoline c h
  ∧ trampoline c (state_of (_insert coerced_gt item h)) = trampoline c h.
Proof.
  unfold _insert. destruct (get item "before"), (get item "stage");
    try (by destruct c).
  destruct (insert_walk _ _ _ _ _) as [[i ts]|e [i ts]]; by destruct c.
Qed.

Lemma intercept_slots interceptor h c :
  slot c (intercept interceptor h) = trampoline c h
  ∧ trampoline c (intercept interceptor h) = trampoline c h.
Proof.
  unfold intercept. destruct (Interceptor.register interceptor); by destruct c.
Qed.









(** ** Two edge cases of [_insert] *)

(** X3. A [before] hint that names a tap which is not there puts the new tap
    first: when the hint of a descriptor lists a name that no entry of [taps]
    carries, [_insert] returns with the item at index 0 and the old taps
    after it. *)
Theorem before_hint_absent_goes_first (coerced_gt : value → Z → bool)
    (item : value) (x : string) (h : Hook) :
  nullish item = false →
  Forall (λ t, nullish t = false ∧ name_of t ≠ VStr x) (taps h) →
  VStr x ∈ before_names item →
  ∃ h', _insert coerced_gt item h = Return h' ∧ taps h' = item :: taps h.
Proof.
  intros Hitem Hts Hin.
  assert (Hts' : Forall (λ t, nullish t = false) (taps h)).
  { eapply Forall_impl; [done|]. by intros t [? _]. }
  destruct (_insert_spec coerced_gt item h Hitem Hts')
    as (pre1 & pre2 & Hsplit & Hins & _ & HS).
  destruct (before_names_set item x Hitem Hin) as (b & Hb & Hhas).
  eexists. split; [done|]. simpl.
  destruct (HS b (VStr x) Hb Hhas) as [->|(y & Hy & E)]; [by rewrite Hsplit|].
  exfalso. apply same_value_zero_string in E.
  rewrite Forall_forall in Hts. destruct (Hts y) as [Hyn Hyx].
  { rewrite Hsplit. apply elem_of_app. by right. }
  by rewrite name_of_read in Hyx.
Qed.

Lemma before_hint_absent_goes_first_witness :
  ∃ h', _insert never_gt (VObj (<["name" := VStr "C"]> {["before" := VStr "X"]}))
          hook_with_A = Return h'
        ∧ taps h' = VObj (<["name" := VStr "C"]> {["before" := VStr "X"]})
                    :: taps hook_with_A.
Proof.
  apply (before_hint_absent_goes_first never_gt _ "X").
  - reflexivity.
  - vm_compute. repeat constructor. discriminate.
  - vm_compute. apply list_elem_of_here.
Defined.

(** X4. The walk stops at an entry that is [undefined] or [null]: when the
    last entry of [taps] is one (as [intercept] leaves it when [register]
    returned it), [_insert] throws a TypeError after it has reset the
    dispatchers and copied that entry one slot up, so [taps] ends with the
    entry twice and the item is not inserted. *)
Theorem insert_stops_at_undefined_entry (coerced_gt : value → Z → bool)
    (item x : value) (pre : list value) (h : Hook) :
  nullish item = false →
  taps h = pre ++ [x] →
  nullish x = true →
  _insert coerced_gt item h
  = Throw (TypeError "stage") (set_taps (_resetCompilation h) (pre ++ [x; x])).
Proof.
  intros Hitem Hts Hx. unfold _insert. rewrite !get_readable by done. simpl.
  rewrite Hts, length_app. simpl.
  replace (length pre + 1) with (S (length pre)) by lia. simpl.
  unfold array_get. rewrite list_lookup_middle by done. simpl.
  unfold get. rewrite Hx. simpl. do 2 f_equal.
  unfold array_set. rewrite decide_False by (rewrite length_app; simpl; lia).
  rewrite length_app. simpl.
  replace (length pre + 1 - (length pre + 1)) with 0 by lia. simpl.
  by rewrite <- (assoc_L (++)).
Qed.

Lemma insert_stops_at_undefined_entry_witness :
  _insert never_gt (VObj {["name" := VStr "B"]}) (intercept forgetful_register hook_with_A)
  = Throw (TypeError "stage")
      (set_taps (_resetCompilation (intercept forgetful_register hook_with_A))
         ([] ++ [VUndefined; VUndefined])).
Proof.
  apply insert_stops_at_undefined_entry.
  - reflexivity.
  - by vm_compute.
  - reflexivity.
Defined.

(** ** The promise wrapper of [create] *)

Lemma string_append_assoc a b c : (a +:+ b) +:+ c = a +:+ (b +:+ c).
Proof.
  induction a as [|ch a IH]; [done|].
  change (String ch ((a +:+ b) +:+ c) = String ch (a +:+ b +:+ c)). by rewrite IH.
Qed.

Lemma run_content_flag cb m : ∀ flag code used,
  run_content cb m flag = inr (code, used) → used = flag || calls_onError cb m.
Proof.
  induction m as [code'|e|q k IH]; intros flag code used; simpl.
  - intros [= _ <-]. by rewrite orb_false_r.
  - done.
  - intros Hrun. apply IH in Hrun as ->. destruct q; simpl; try done.
    by rewrite orb_true_r.
Qed.

(** X1. For the promise convention, [create] emits the [_sync] flag with the
    [_error] helper, and the closing [_sync = false;], exactly when [content]
    called [onError]; the body is the wrapper around the header and the code
    [content] returned. *)
Theorem create_promise_error_helper (content : bool → bool → gen string)
    (options : Options.t) (head code : string) (used : bool) :
  Options.type options = "promise" →
  header options = inr head →
  run_content promise_callbacks (content false false) false = inr (code, used) →
  used = calls_onError promise_callbacks (content false false)
  ∧ create content options
    = inr (Some
        (factory_args (Options.args options) None None,
         use_strict
         +:+ "return new Promise((_resolve, _reject) => {" +:+ nl
         +:+ (if used then error_helper else "")
         +:+ head
         +:+ code
         +:+ (if used then "_sync = false;" +:+ nl else "")
         +:+ "});" +:+ nl)).
Proof.
  intros Ht Hh Hrun. split.
  - by apply run_content_flag in Hrun.
  - unfold create. by rewrite Ht, Hh, Hrun.
Qed.

Lemma create_promise_error_helper_witness :
  true = calls_onError promise_callbacks
           (reported ← ask_onError "_err"; done ← ask_onDone; Ret (reported +:+ done)).
Proof.
  refine (proj1 (create_promise_error_helper
                   (λ _ _, reported ← ask_onError "_err"; done ← ask_onDone;
                           Ret (reported +:+ done))
                   (Options.make [] [] [] "promise") _ _ true eq_refl _ _));
    reflexivity.
Defined.

(** X2. The dispatcher of the promise convention for one sync tap, under a
    series flavor: the call of the tap stands in a [try] whose [catch] hands
    the error to [_error], and the [_sync] guard is emitted. *)
Theorem promise_single_sync_tap (tap : value) (args : list string) :
  nullish tap = false →
  read tap "type" = VStr "sync" →
  truthy (read tap "context") = false →
  create (series_content (single_tap tap args)) (single_tap tap args)
  = inr (Some
      (factory_args args None None,
       use_strict
       +:+ "return new Promise((_resolve, _reject) => {" +:+ nl
       +:+ error_helper
       +:+ "var _context;" +:+ nl
       +:+ "var _x = this._x;" +:+ nl
       +:+ "var _fn0 = _x[0];" +:+ nl
       +:+ "var _hasError0 = false;" +:+ nl
       +:+ "try {" +:+ nl
       +:+ "_fn0(" +:+ factory_args args None None +:+ ");" +:+ nl
       +:+ "} catch(_err) {" +:+ nl
       +:+ "_hasError0 = true;" +:+ nl
       +:+ "_error(_err);" +:+ nl
       +:+ "}" +:+ nl
       +:+ "if(!_hasError0) {" +:+ nl
       +:+ "_resolve();" +:+ nl
       +:+ "}" +:+ nl
       +:+ "_sync = false;" +:+ nl
       +:+ "});" +:+ nl)).
Proof.
  intros Htap Htype Hcontext.
  unfold create, series_content, callTapsSeries, header. simpl.
  unfold callTap. simpl. change (array_get [tap] 0) with tap.
  rewrite !get_readable by done. rewrite Htype, Hcontext. simpl.
  generalize (factory_args args None None). intros a.
  do 2 f_equal. f_equal.
  rewrite !string_append_assoc. by vm_compute.
Qed.

Lemma promise_single_sync_tap_witness :
  ∃ body,
    create (series_content (single_tap (normalized "sync" (VStr "t") some_fn) ["x"]))
      (single_tap (normalized "sync" (VStr "t") some_fn) ["x"])
    = inr (Some ("x", body)).
Proof.
  eexists.
  apply (promise_single_sync_tap (normalized "sync" (VStr "t") some_fn) ["x"]);
    reflexivity.
Defined.

Lemma firstAsync_from_readable taps : ∀ i,
  Forall (λ t, nullish t = false) taps → ∃ first, firstAsync_from i taps = inr first.
Proof.
  induction taps as [|t taps IH]; intros i Hts; simpl; [eauto|].
  apply Forall_cons in Hts as [Ht Hts]. rewrite get_readable by done.
  repeat case_match; eauto.
Qed.

(** X5. Under the promise convention a series flavor always reaches
    [onError]: when the taps are descriptors and the last of them is a sync,
    async or promise tap, generating the content calls [onError] (no tap is
    called with [rethrowIfPossible]), so by X1 the [_sync] guard is emitted. *)
Theorem promise_series_calls_onError (options : Options.t) (pre : list value)
    (last : value) (resultReturns : bool) :
  Options.taps options = pre ++ [last] →
  Forall (λ t, nullish t = false) (pre ++ [last]) →
  read last "type" = VStr "sync" ∨ read last "type" = VStr "async"
  ∨ read last "type" = VStr "promise" →
  calls_onError promise_callbacks (series_content options resultReturns false) = true.
Proof.
  intros Htaps Hts Htype.
  unfold series_content, callTapsSeries. rewrite Htaps, length_app. simpl.
  replace (length pre + 1) with (S (length pre)) by lia. simpl.
  destruct (firstAsync_from_readable (pre ++ [last]) 0 Hts) as [first ->].
  simpl. unfold callTap. rewrite Htaps.
  unfold array_get. rewrite list_lookup_middle by done. simpl.
  apply Forall_app in Hts as [_ Hlast]. rewrite Forall_singleton in Hlast.
  rewrite !get_readable by done.
  destruct Htype as [->|[->| ->]]; reflexivity.
Qed.

Lemma promise_series_calls_onError_witness :
  calls_onError promise_callbacks
    (series_content (single_tap (normalized "promise" (VStr "t") some_fn) ["x"])
       false false) = true.
Proof.
  apply (promise_series_calls_onError _ [] (normalized "promise" (VStr "t") some_fn)).
  - reflexivity.
  - repeat constructor.
  - right. right. reflexivity.
Defined.

(** * Further properties of the code *)

(** ** Histories: what a hook never loses *)

Lemma array_set_length a i v : length a ≤ length (array_set a i v).
Proof.
  unfold array_set. case_decide.
  - by rewrite length_insert.
  - rewrite length_app. lia.
Qed.

Lemma array_set_length_in a i v : i < length a → length (array_set a i v) = length a.
Proof. intros Hi. unfold array_set. rewrite decide_True by done. by rewrite length_insert. Qed.

Lemma insert_walk_length coerced_gt stage i : ∀ before ts,
  length ts ≤ length (state_of (insert_walk coerced_gt i before stage ts)).2.
Proof.
  induction i as [|i IH]; intros before ts; simpl; [done|].
  pose proof (array_set_length ts (i + 1) (array_get ts i)) as Hset.
  assert (Hrec : ∀ b, length ts ≤ length (state_of (insert_walk coerced_gt i b stage
                         (array_set ts (i + 1) (array_get ts i)))).2).
  { intros b. etrans; [exact Hset|apply IH]. }
  destruct (get (array_get ts i) "stage"); [done|].
  destruct (get (array_get ts i) "name"); [done|].
  destruct before as [b|].
  - destruct (JSSet.has _ _); [apply Hrec|].
    destruct (0 <? JSSet.size b); [apply Hrec|].
    destruct (js_gt _ _ _); [apply Hrec|done].
  - destruct (js_gt _ _ _); [apply Hrec|done].
Qed.

Lemma _insert_keeps coerced_gt item h :
  length (taps h) ≤ length (taps (state_of (_insert coerced_gt item h)))
  ∧ interceptors (state_of (_insert coerced_gt item h)) = interceptors h.
Proof.
  unfold _insert. destruct (get item "before"); [done|].
  destruct (get item "stage"); [done|].
  match goal with |- context [insert_walk ?g ?i ?b ?s ?ts] =>
    pose proof (insert_walk_length g s i b ts) as Hw;
    destruct (insert_walk g i b s ts) as [[k ts']|e [k ts']] end;
    simpl in *; split; try done.
  etrans; [exact Hw|apply array_set_length].
Qed.

Lemma register_existing_length register remaining : ∀ i ts,
  i + remaining ≤ length ts →
  length (register_existing register remaining i ts) = length ts.
Proof.
  induction remaining as [|n IH]; intros i ts Hi; simpl; [done|].
  rewrite IH; rewrite array_set_length_in; lia.
Qed.

Lemma intercept_keeps interceptor h :
  length (taps (intercept interceptor h)) = length (taps h)
  ∧ interceptors (intercept interceptor h) = interceptors h ++ [interceptor].
Proof.
  unfold intercept. destruct (Interceptor.register interceptor); simpl; [|done].
  split; [|done]. by apply register_existing_length.
Qed.

Lemma apply_dispatcher_keeps d h :
  taps (state_of (apply_dispatcher d h)) = taps h
  ∧ interceptors (state_of (apply_dispatcher d h)) = interceptors h.
Proof.
  destruct d; simpl; try done;
    match goal with |- context [_createCall ?t h] =>
      destruct (_createCall t h) as [e|[p b]] end; done.
Qed.

Lemma step_keeps coerced_gt ev h :
  length (taps h) ≤ length (taps (state_of (step coerced_gt ev h)))
  ∧ interceptors h `prefix_of` interceptors (state_of (step coerced_gt ev h)).
Proof.
  destruct ev as [m options fn|interceptor| | |]; simpl.
  - rewrite call_tap_unfold.
    destruct (valid_options options) eqn:Hv.
    + rewrite _tap_valid by done.
      destruct (_insert_keeps coerced_gt
                  (register_fold (interceptors h) (normalized (tap_type m) options fn)) h)
        as [Hl ->]. done.
    + rewrite _tap_not_valid by done. done.
  - destruct (intercept_keeps interceptor h) as [-> ->].
    split; [done|]. by apply prefix_app_r.
  - unfold invoke_call. by destruct (apply_dispatcher_keeps (call h) h) as [-> ->].
  - unfold invoke_callAsync. by destruct (apply_dispatcher_keeps (callAsync h) h) as [-> ->].
  - unfold invoke_promise. by destruct (apply_dispatcher_keeps (promise h) h) as [-> ->].
Qed.

(** X6. Nothing is ever removed. Along any history of registrations,
    interceptions and invocations, from any hook, [taps] never gets shorter
    and the interceptors the hook had stay, in their order, at the front of
    [interceptors]: Hook.js has no way to unregister. *)
Theorem history_never_removes (coerced_gt : value → Z → bool) (evs : list event) (h : Hook) :
  length (taps h) ≤ length (taps (run coerced_gt evs h))
  ∧ interceptors h `prefix_of` interceptors (run coerced_gt evs h).
Proof.
  revert h. induction evs as [|ev evs IH]; intros h; [done|]. simpl.
  destruct (step_keeps coerced_gt ev h) as [Hl Hp].
  destruct (IH (state_of (step coerced_gt ev h))) as [Hl' Hp'].
  split; [lia|by etrans].
Qed.

Lemma isUsed_step coerced_gt ev h :
  isUsed (state_of (step coerced_gt ev h)) = isUsed h || reaches_reset ev.
Proof.
  destruct (isUsed h) eqn:Hu; simpl.
  - destruct (step_keeps coerced_gt ev h) as [Hl [k Hp]].
    unfold isUsed in *. rewrite Hp, length_app.
    apply orb_true_iff in Hu as [Hu|Hu]; apply Nat.ltb_lt in Hu;
      apply orb_true_iff; [left|right]; apply Nat.ltb_lt; lia.
  - unfold isUsed in Hu. apply orb_false_iff in Hu as [Ht Hi].
    apply Nat.ltb_ge in Ht, Hi.
    destruct (taps h) as [|? ?] eqn:Etaps; [|simpl in Ht; lia].
    destruct (interceptors h) as [|? ?] eqn:Eics; [|simpl in Hi; lia].
    destruct ev as [m options fn|interceptor| | |]; simpl.
    + rewrite call_tap_unfold. destruct (valid_options options) eqn:Hv.
      * rewrite _tap_valid by done. rewrite Eics. simpl.
        unfold _insert, normalized. rewrite !get_readable by done. simpl.
        rewrite Etaps. simpl. done.
      * rewrite _tap_not_valid by done. simpl. unfold isUsed. by rewrite Etaps, Eics.
    + destruct (intercept_keeps interceptor h) as [_ Hi'].
      unfold isUsed. rewrite Hi', length_app. simpl.
      apply orb_true_iff. right. apply Nat.ltb_lt. lia.
    + unfold invoke_call. destruct (apply_dispatcher_keeps (call h) h) as [Ht' Hi'].
      unfold isUsed. by rewrite Ht', Hi', Etaps, Eics.
    + unfold invoke_callAsync. destruct (apply_dispatcher_keeps (callAsync h) h) as [Ht' Hi'].
      unfold isUsed. by rewrite Ht', Hi', Etaps, Eics.
    + unfold invoke_promise. destruct (apply_dispatcher_keeps (promise h) h) as [Ht' Hi'].
      unfold isUsed. by rewrite Ht', Hi', Etaps, Eics.
Qed.

(** X7. [isUsed]. After a history, [isUsed()] is true exactly when it was
    true before or the history holds an [intercept] call or a [tap],
    [tapAsync] or [tapPromise] call whose options pass validation; on a new
    hook, exactly when the history holds such a call. Invocations and
    rejected registrations do not make a hook used, and a used hook stays
    used. *)
Theorem isUsed_after_history (coerced_gt : value → Z → bool) (evs : list event) :
  (∀ h, isUsed (run coerced_gt evs h) = isUsed h || existsb reaches_reset evs)
  ∧ ∀ compile args name,
      isUsed (run coerced_gt evs (new_Hook compile args name)) = existsb reaches_reset evs.
Proof.
  assert (G : ∀ h, isUsed (run coerced_gt evs h) = isUsed h || existsb reaches_reset evs).
  { induction evs as [|ev evs IH]; intros h; simpl; [by rewrite orb_false_r|].
    by rewrite IH, isUsed_step, orb_assoc. }
  split; [done|]. intros compile args name. by rewrite G.
Qed.

(** ** Registration under interceptors that always return a tap *)

Lemma register_fold_readable ics : ∀ d,
  Forall tame ics → nullish d = false → nullish (register_fold ics d) = false.
Proof.
  unfold register_fold.
  induction ics as [|i ics IH]; intros d Hics Hd; simpl; [done|].
  apply Forall_cons in Hics as [Hi Hics]. apply IH; [done|].
  unfold register_step. destruct (Interceptor.register i) as [r|] eqn:Hr; [|done].
  specialize (Hi r Hr d). by destruct (r d).
Qed.

Lemma valid_tap_returns coerced_gt m options fn h :
  readable_taps h → valid_options options = true →
  ∃ h' p,
    call_tap coerced_gt m options fn h = Return h'
    ∧ p ≤ length (taps h)
    ∧ taps h' = take p (taps h)
                ++ register_fold (interceptors h) (normalized (tap_type m) options fn)
                :: drop p (taps h)
    ∧ interceptors h' = interceptors h.
Proof.
  intros [Hts Hics] Hv. rewrite call_tap_unfold, _tap_valid by done.
  assert (Hitem : nullish (register_fold (interceptors h)
                             (normalized (tap_type m) options fn)) = false).
  { by apply register_fold_readable. }
  destruct (_insert_spec coerced_gt _ h Hitem Hts) as (pre1 & pre2 & Hsplit & -> & _).
  eexists _, (length pre1). split; [done|]. simpl.
  rewrite Hsplit, take_app_length, drop_app_length, length_app.
  split_and!; [lia|done..].
Qed.

Lemma step_readable coerced_gt ev h :
  tame_event ev → readable_taps h → readable_taps (state_of (step coerced_gt ev h)).
Proof.
  intros Hev [Hts Hics].
  destruct ev as [m options fn|interceptor| | |]; simpl in *.
  - destruct (valid_options options) eqn:Hv.
    + destruct (valid_tap_returns coerced_gt m options fn h) as (h' & p & -> & _ & Ht & Hi);
        [done..|]. simpl. split; [|by rewrite Hi]. rewrite Ht.
      apply Forall_app. split; [by apply Forall_take|].
      apply Forall_cons. split; [by apply register_fold_readable|by apply Forall_drop].
    + rewrite call_tap_unfold, _tap_not_valid by done. done.
  - split.
    + unfold intercept. destruct (Interceptor.register interceptor) as [r|] eqn:Hr; [|done].
      simpl. pose proof (register_existing_map r (taps h) []) as Hmap. simpl in Hmap.
      rewrite Hmap. apply Forall_fmap. apply Forall_true. intros t. by apply (Hev r).
    + destruct (intercept_keeps interceptor h) as [_ ->].
      apply Forall_app. split; [done|]. by apply Forall_singleton.
  - unfold invoke_call, readable_taps.
    by destruct (apply_dispatcher_keeps (call h) h) as [-> ->].
  - unfold invoke_callAsync, readable_taps.
    by destruct (apply_dispatcher_keeps (callAsync h) h) as [-> ->].
  - unfold invoke_promise, readable_taps.
    by destruct (apply_dispatcher_keeps (promise h) h) as [-> ->].
Qed.




(** ** What decides the place of a new tap *)





(** ** The facade of [withOptions] *)





(** ** The tap ahead of a new tap *)

Lemma insert_walk_predecessor coerced_gt stage pre : ∀ before suf k ts,
  Forall (λ t, nullish t = false) pre →
  insert_walk coerced_gt (length pre) before stage (walking pre suf) = Return (k, ts) →
  k = 0 ∨ ∃ x, pre !! (k - 1) = Some x
               ∧ js_gt coerced_gt (neighbour_stage x) stage = false.
Proof.
  induction pre as [|x pre IH] using rev_ind; intros before suf k ts Hpre.
  { simpl. intros [= <- _]. by left. }
  apply Forall_app in Hpre as [Hpre Hx]. rewrite Forall_singleton in Hx.
  assert (Hrec : ∀ before',
    insert_walk coerced_gt (length pre) before' stage (walking pre (x :: suf))
      = Return (k, ts) →
    k = 0 ∨ ∃ y, (pre ++ [x]) !! (k - 1) = Some y
                 ∧ js_gt coerced_gt (neighbour_stage y) stage = false).
  { intros before' Hw. destruct (IH before' (x :: suf) k ts Hpre Hw) as [->|(y & Hy & Hgt)];
      [by left|]. right. exists y. split; [|done].
    apply lookup_app_l_Some. done. }
  rewrite length_app. simpl. replace (length pre + 1) with (S (length pre)) by lia.
  simpl. replace (S (length pre)) with (length pre + 1) by lia.
  rewrite walking_get, walking_shift, !get_readable by done. simpl.
  fold (neighbour_stage x).
  assert (Hbreak : js_gt coerced_gt (neighbour_stage x) stage = false →
    (Return (length pre + 1, walking pre (x :: suf)) : outcome (nat * list value))
      = Return (k, ts) →
    k = 0 ∨ ∃ y, (pre ++ [x]) !! (k - 1) = Some y
                 ∧ js_gt coerced_gt (neighbour_stage y) stage = false).
  { intros Hgt [= <- _]. right. exists x. split; [|done].
    replace (length pre + 1 - 1) with (length pre) by lia.
    by rewrite list_lookup_middle. }
  destruct before as [b|].
  - destruct (JSSet.has b (read x "name")); [apply Hrec|].
    destruct (0 <? JSSet.size b); [apply Hrec|].
    destruct (js_gt coerced_gt (neighbour_stage x) stage) eqn:Hgt; [apply Hrec|].
    by apply Hbreak.
  - destruct (js_gt coerced_gt (neighbour_stage x) stage) eqn:Hgt; [apply Hrec|].
    by apply Hbreak.
Qed.

(** X11. Whatever its [before] hint, a new tap never lands directly behind a
    tap of greater stage. When the taps are descriptors with a number or
    nothing for a stage, [_insert] returns, and the tap just ahead of the new
    one, if there is one, has a stage no greater than the new tap's. *)
Theorem predecessor_has_no_greater_stage (coerced_gt : value → Z → bool)
    (item : value) (h : Hook) :
  nullish item = false →
  Forall (λ t, nullish t = false ∧ plain_stage t = true) (taps h) →
  ∃ pre1 pre2,
    taps h = pre1 ++ pre2
    ∧ _insert coerced_gt item h
      = Return (set_taps (_resetCompilation h) (pre1 ++ item :: pre2))
    ∧ ∀ x, last pre1 = Some x → (stage_of x ≤ stage_of item)%Z.
Proof.
  intros Hitem Hts.
  assert (Hts' : Forall (λ t, nullish t = false) (taps h)).
  { eapply Forall_impl; [done|]. by intros t [? _]. }
  destruct (insert_walk_spec coerced_gt (stage_of item) (taps h)
              (before_set (read item "before")) [] Hts')
    as (pre1 & pre2 & ts & Hsplit & Hw & Hst & _).
  exists pre1, pre2. split; [done|]. split.
  - unfold walking in Hw. rewrite app_nil_r in Hw.
    unfold stage_of in Hw. rewrite get_readable in Hw by done.
    unfold _insert. rewrite !get_readable by done. simpl.
    by rewrite Hw, Hst, app_nil_r.
  - intros x Hlast.
    destruct (insert_walk_predecessor _ _ _ _ _ _ _ Hts' Hw) as [H0|(y & Hy & Hgt)].
    { apply nil_length_inv in H0. by subst. }
    apply last_Some in Hlast as [pre0 ->].
    rewrite Hsplit, length_app in Hy. simpl in Hy.
    replace (length pre0 + 1 - 1) with (length pre0) in Hy by lia.
    rewrite <- !(assoc_L (++)) in Hy. simpl in Hy.
    rewrite list_lookup_middle in Hy by done. injection Hy as <-.
    rewrite Forall_forall in Hts. destruct (Hts x) as [Hxn Hxp].
    { rewrite Hsplit. apply elem_of_app. left. apply elem_of_app. right.
      apply list_elem_of_here. }
    rewrite js_gt_plain in Hgt by done. by apply Z.ltb_ge in Hgt.
Qed.

Lemma predecessor_has_no_greater_stage_witness :
  (∃ pre1 pre2,
     taps hook_with_A_B_C = pre1 ++ pre2
     ∧ _insert never_gt before_C_at_stage_3 hook_with_A_B_C
       = Return (set_taps (_resetCompilation hook_with_A_B_C)
                   (pre1 ++ before_C_at_stage_3 :: pre2))
     ∧ ∀ x, last pre1 = Some x → (stage_of x ≤ stage_of before_C_at_stage_3)%Z)
  ∧ name_of <$> taps (state_of (_insert never_gt before_C_at_stage_3 hook_with_A_B_C))
    = [VStr "A"; VStr "D"; VStr "B"; VStr "C"]
  ∧ stage_of <$> taps (state_of (_insert never_gt before_C_at_stage_3 hook_with_A_B_C))
    = [0; 3; 5; 7]%Z.
Proof.
  split_and!.
  - apply predecessor_has_no_greater_stage; [reflexivity|].
    change (taps hook_with_A_B_C)
      with [normalized "sync" (VStr "A") some_fn;
            normalized "sync" (VObj (<["name" := VStr "B"]> {["stage" := VNum 5]})) some_fn;
            normalized "sync" (VObj (<["name" := VStr "C"]> {["stage" := VNum 7]})) some_fn].
    repeat (apply List.Forall_cons; [split; reflexivity|]). apply List.Forall_nil.
  - vm_compute. reflexivity.
  - vm_compute. reflexivity.
Defined.

(** ** The place of a new tap, in full *)

Lemma elem_of_delete (s : JSSet.t) v u : u ∈ JSSet.delete s v → u ∈ s ∧ same_value_zero v u = false.
Proof.
  unfold JSSet.delete. intros H%list_elem_of_In%filter_In. destruct H as [Hin Hneg].
  split; [by apply list_elem_of_In|]. by apply negb_true_iff.
Qed.

Lemma elem_of_add (s : JSSet.t) v u : u ∈ JSSet.add s v → u ∈ s ∨ u = v.
Proof.
  unfold JSSet.add. destruct (JSSet.has s v); [by left|].
  intros [H|H%list_elem_of_singleton]%elem_of_app; [by left|by right].
Qed.

Lemma elem_of_new l u : u ∈ JSSet.new l → u ∈ l.
Proof.
  unfold JSSet.new.
  assert (G : ∀ acc, u ∈ foldl JSSet.add acc l → u ∈ acc ∨ u ∈ l).
  { induction l as [|v l IH]; intros acc; simpl; [by left|].
    intros [H|H]%IH.
    - apply elem_of_add in H as [H|H]; [by left|]. subst. right. apply list_elem_of_here.
    - right. by apply list_elem_of_further. }
  intros [H|H]%G; [by apply elem_of_nil in H|done].
Qed.

Lemma insert_walk_first_passed coerced_gt stage pre : ∀ before suf,
  Forall (λ t, nullish t = false) pre →
  (∀ b u, before = Some b → u ∈ b →
     ∃ y, y ∈ pre ∧ same_value_zero u (read y "name") = true) →
  ∃ pre1 pre2 ts,
    pre = pre1 ++ pre2
    ∧ insert_walk coerced_gt (length pre) before stage (walking pre suf)
      = Return (length pre1, ts)
    ∧ (∀ b, before = Some b → (0 <? JSSet.size b) = true → pre2 ≠ [])
    ∧ ∀ y rest, pre2 = y :: rest →
        js_gt coerced_gt (neighbour_stage y) stage = true
        ∨ ∃ b u, before = Some b ∧ u ∈ b ∧ same_value_zero u (read y "name") = true.
Proof.
  induction pre as [|x pre IH] using rev_ind; intros before suf Hpre Hpresent.
  { exists [], [], (walking [] suf). split_and!; try done.
    intros b Hb Hsize. destruct b as [|u b]; [done|].
    destruct (Hpresent (u :: b) u Hb) as (y & Hy & _); [apply list_elem_of_here|].
    by apply elem_of_nil in Hy. }
  apply Forall_app in Hpre as [Hpre Hx]. rewrite Forall_singleton in Hx.
  assert (Hrec : ∀ before',
    (∀ b' u, before' = Some b' → u ∈ b' →
       ∃ y, y ∈ pre ∧ same_value_zero u (read y "name") = true) →
    (∀ b' u, before' = Some b' → u ∈ b' → ∃ b, before = Some b ∧ u ∈ b) →
    js_gt coerced_gt (neighbour_stage x) stage = true
    ∨ (∃ b u, before = Some b ∧ u ∈ b ∧ same_value_zero u (read x "name") = true)
    ∨ (∃ b', before' = Some b' ∧ (0 <? JSSet.size b') = true) →
    ∃ pre1 pre2 ts,
      pre ++ [x] = pre1 ++ pre2
      ∧ insert_walk coerced_gt (length pre) before' stage (walking pre (x :: suf))
        = Return (length pre1, ts)
      ∧ pre2 ≠ []
      ∧ ∀ y rest, pre2 = y :: rest →
          js_gt coerced_gt (neighbour_stage y) stage = true
          ∨ ∃ b u, before = Some b ∧ u ∈ b ∧ same_value_zero u (read y "name") = true).
  { intros before' Hp' Hsub Hx'.
    destruct (IH before' (x :: suf) Hpre Hp') as (pre1 & pre2 & ts & -> & Hw & Hne & Hfirst).
    exists pre1, (pre2 ++ [x]), ts. split_and!.
    - by rewrite (assoc_L (++)).
    - done.
    - by destruct pre2.
    - intros y rest Hy. destruct pre2 as [|y' rest'].
      + simpl in Hy. injection Hy as <- <-.
        destruct Hx' as [Hgt|[Hnamed|(b' & Hb' & Hsize)]]; [by left|by right|].
        by destruct (Hne b' Hb' Hsize).
      + simpl in Hy. injection Hy as <- <-.
        destruct (Hfirst y' rest' eq_refl) as [Hgt|(b' & u & Hb' & Hu & E)]; [by left|].
        right. destruct (Hsub b' u Hb' Hu) as (b & Hb & Hub). by exists b, u. }
  rewrite length_app. simpl. replace (length pre + 1) with (S (length pre)) by lia.
  simpl. replace (S (length pre)) with (length pre + 1) by lia.
  rewrite walking_get, walking_shift, !get_readable by done. simpl.
  fold (neighbour_stage x).
  assert (Hwrap : ∀ before',
    (∃ pre1 pre2 ts,
      pre ++ [x] = pre1 ++ pre2
      ∧ insert_walk coerced_gt (length pre) before' stage (walking pre (x :: suf))
        = Return (length pre1, ts)
      ∧ pre2 ≠ []
      ∧ ∀ y rest, pre2 = y :: rest →
          js_gt coerced_gt (neighbour_stage y) stage = true
          ∨ ∃ b u, before = Some b ∧ u ∈ b ∧ same_value_zero u (read y "name") = true) →
    ∃ pre1 pre2 ts,
      pre ++ [x] = pre1 ++ pre2
      ∧ insert_walk coerced_gt (length pre) before' stage (walking pre (x :: suf))
        = Return (length pre1, ts)
      ∧ (∀ b, before = Some b → (0 <? JSSet.size b) = true → pre2 ≠ [])
      ∧ ∀ y rest, pre2 = y :: rest →
          js_gt coerced_gt (neighbour_stage y) stage = true
          ∨ ∃ b u, before = Some b ∧ u ∈ b ∧ same_value_zero u (read y "name") = true).
  { intros before' (pre1 & pre2 & ts & ? & ? & ? & ?). exists pre1, pre2, ts.
    split_and!; done. }
  assert (Hin_pre : ∀ b u, before = Some b → u ∈ b →
            same_value_zero u (read x "name") = false →
            ∃ y, y ∈ pre ∧ same_value_zero u (read y "name") = true).
  { intros b u Hb Hu Hne. destruct (Hpresent b u Hb Hu) as (y & Hy & E).
    apply elem_of_app in Hy as [Hy|Hy]; [eauto|].
    apply list_elem_of_singleton in Hy. subst y. congruence. }
  destruct before as [b|].
  - destruct (JSSet.has b (read x "name")) eqn:Hhas.
    { apply Hwrap, Hrec.
      - intros b' u [= <-] [Hu Hne]%elem_of_delete. apply (Hin_pre b u); [done..|].
        destruct (same_value_zero u (read x "name")) eqn:E; [|done].
        apply same_value_zero_sym in E. congruence.
      - intros b' u [= <-] [Hu _]%elem_of_delete. eauto.
      - right. left. apply has_exists in Hhas as (u & Hu & E).
        exists b, u. split_and!; [done..|]. by apply same_value_zero_sym. }
    assert (Hnot : ∀ u, u ∈ b → same_value_zero u (read x "name") = false).
    { intros u Hu. destruct (same_value_zero u (read x "name")) eqn:E; [|done].
      assert (JSSet.has b (read x "name") = true); [|congruence].
      apply has_exists. exists u. split; [done|]. by apply same_value_zero_sym. }
    destruct (0 <? JSSet.size b) eqn:Hsize.
    { apply Hwrap, Hrec.
      - intros b' u [= <-] Hu. apply (Hin_pre b u); auto.
      - intros b' u [= <-] Hu. eauto.
      - right. right. eauto. }
    destruct (js_gt coerced_gt (neighbour_stage x) stage) eqn:Hgt.
    { apply Hwrap, Hrec.
      - intros b' u [= <-] Hu. apply (Hin_pre b u); auto.
      - intros b' u [= <-] Hu. eauto.
      - by left. }
    exists (pre ++ [x]), [], (walking pre (x :: suf)). split_and!; try done.
    + by rewrite app_nil_r.
    + by rewrite length_app.
    + intros b0 [= <-] Hs. congruence.
  - destruct (js_gt coerced_gt (neighbour_stage x) stage) eqn:Hgt.
    { apply Hwrap, Hrec; [done|done|by left]. }
    exists (pre ++ [x]), [], (walking pre (x :: suf)). split_and!; try done.
    + by rewrite app_nil_r.
    + by rewrite length_app.
Qed.

Lemma before_set_elems item b u :
  nullish item = false →
  before_set (read item "before") = Some b → u ∈ b → u ∈ before_names item.
Proof.
  intros Hitem. unfold before_names. rewrite get_readable by done.
  destruct (read item "before") as [| | | |s| |l|]; try done; simpl.
  - intros [= <-]. apply elem_of_new.
  - intros [= <-]. apply elem_of_new.
Qed.

Lemma same_value_zero_named u s : same_value_zero u (VStr s) = true → u = VStr s.
Proof. intros H%same_value_zero_sym. by apply same_value_zero_string in H. Qed.

(** X12. The place of a new tap, in full. On taps that are descriptors with
    pairwise distinct string names and a number or nothing for a stage, in
    ascending stage order, and with a hint that names only taps which are
    there, [_insert] puts the new tap at the first position, from the front,
    where the next tap is named by the hint or has a greater stage: every tap
    ahead of the new one has a stage no greater than its and is not named by
    its hint, and the tap right behind it, if there is one, has a greater
    stage or is named by the hint. *)
Theorem insert_place_in_full (coerced_gt : value → Z → bool) (item : value) (h : Hook) :
  nullish item = false →
  Forall (λ t, nullish t = false ∧ plain_stage t = true ∧ ∃ s, name_of t = VStr s)
    (taps h) →
  NoDup (name_of <$> taps h) →
  stage_ascending (taps h) →
  (∀ n, n ∈ before_names item → n ∈ name_of <$> taps h) →
  ∃ pre1 pre2,
    taps h = pre1 ++ pre2
    ∧ _insert coerced_gt item h
      = Return (set_taps (_resetCompilation h) (pre1 ++ item :: pre2))
    ∧ Forall (λ t, (stage_of t ≤ stage_of item)%Z ∧ name_of t ∉ before_names item) pre1
    ∧ ∀ y rest, pre2 = y :: rest →
        (stage_of item < stage_of y)%Z ∨ name_of y ∈ before_names item.
Proof.
  intros Hitem Hts Hnd Hasc Hpresent.
  assert (Hts' : Forall (λ t, nullish t = false) (taps h)).
  { eapply Forall_impl; [done|]. by intros t [? _]. }
  rewrite Forall_forall in Hts.
  destruct (insert_walk_spec coerced_gt (stage_of item) (taps h)
              (before_set (read item "before")) [] Hts')
    as (pre1 & pre2 & ts & Hsplit & Hw & Hst & _ & HS).
  destruct (insert_walk_first_passed coerced_gt (stage_of item) (taps h)
              (before_set (read item "before")) [] Hts')
    as (pre1' & pre2' & ts' & Hsplit' & Hw' & _ & Hfirst).
  { intros b u Hb Hu.
    apply (before_set_elems item b u Hitem Hb), Hpresent in Hu.
    apply list_elem_of_fmap in Hu as (y & -> & Hy). exists y. split; [done|].
    destruct (Hts y Hy) as (Hyn & _ & s & Hs).
    rewrite <- name_of_read, Hs by done. apply String.eqb_refl. }
  assert (pre1' = pre1 ∧ pre2' = pre2) as [-> ->].
  { rewrite Hw in Hw'. injection Hw' as Hlen _.
    rewrite Hsplit in Hsplit'. by apply app_inj_1 in Hsplit' as [-> ->]. }
  pose proof (insert_walk_predecessor _ _ _ _ _ _ _ Hts' Hw) as Hpred.
  exists pre1, pre2. split; [done|]. split_and!.
  - unfold walking in Hw. rewrite app_nil_r in Hw.
    unfold stage_of in Hw. rewrite get_readable in Hw by done.
    unfold _insert. rewrite !get_readable by done. simpl.
    by rewrite Hw, Hst, app_nil_r.
  - apply Forall_lookup. intros i t Hi.
    assert (Hit : taps h !! i = Some t).
    { rewrite Hsplit. by apply lookup_app_l_Some. }
    assert (Ht : t ∈ taps h) by (by eapply list_elem_of_lookup_2).
    pose proof (lookup_lt_Some _ _ _ Hi) as Hlt.
    split.
    + destruct Hpred as [H0|(x & Hx & Hgt)]; [lia|].
      assert (Hxin : x ∈ taps h) by (by eapply list_elem_of_lookup_2).
      destruct (Hts x Hxin) as (Hxn & Hxp & _).
      rewrite js_gt_plain in Hgt by done. apply Z.ltb_ge in Hgt.
      destruct (decide (i = length pre1 - 1)) as [->|Hne].
      * rewrite Hit in Hx. by injection Hx as ->.
      * assert (stage_of t ≤ stage_of x)%Z; [|lia].
        apply (Hasc i (length pre1 - 1)); [lia|done..].
    + intros Hin. destruct (Hts t Ht) as (Htn & _ & s & Hs). rewrite Hs in Hin.
      destruct (before_names_set item s Hitem Hin) as (b & Hb & Hhas).
      destruct (HS b (VStr s) Hb Hhas) as [->|(y & Hy & E)]; [simpl in Hlt; lia|].
      apply same_value_zero_string in E.
      apply list_elem_of_lookup in Hy as [k Hk].
      assert (Hky : taps h !! (length pre1 + k) = Some y).
      { rewrite Hsplit, lookup_app_r by lia.
        by replace (length pre1 + k - length pre1) with k by lia. }
      assert (Hyin : y ∈ taps h) by (by eapply list_elem_of_lookup_2).
      destruct (Hts y Hyin) as (Hyn & _ & _).
      rewrite <- name_of_read in E by done.
      assert (i = length pre1 + k); [|lia].
      apply (NoDup_lookup _ _ _ (VStr s) Hnd); rewrite list_lookup_fmap.
      * by rewrite Hit, <- Hs.
      * by rewrite Hky, <- E.
  - intros y rest ->.
    assert (Hyin : y ∈ taps h).
    { rewrite Hsplit. apply elem_of_app. right. apply list_elem_of_here. }
    destruct (Hts y Hyin) as (Hyn & Hyp & s & Hs).
    destruct (Hfirst y rest eq_refl) as [Hgt|(b & u & Hb & Hu & E)].
    + left. rewrite js_gt_plain in Hgt by done. by apply Z.ltb_lt in Hgt.
    + right. rewrite <- name_of_read, Hs in E by done.
      apply same_value_zero_named in E as ->. rewrite Hs.
      by apply (before_set_elems item b).
Qed.

Lemma insert_place_in_full_witness :
  ∃ pre1 pre2,
    taps hook_with_A = pre1 ++ pre2
    ∧ _insert never_gt
        (VObj (<["name" := VStr "B"]> (<["before" := VStr "A"]> {["stage" := VNum 3]})))
        hook_with_A
      = Return (set_taps (_resetCompilation hook_with_A)
                  (pre1
                   ++ VObj (<["name" := VStr "B"]>
                              (<["before" := VStr "A"]> {["stage" := VNum 3]}))
                   :: pre2))
    ∧ pre1 = [].
Proof.
  destruct (insert_place_in_full never_gt
              (VObj (<["name" := VStr "B"]> (<["before" := VStr "A"]> {["stage" := VNum 3]})))
              hook_with_A) as (pre1 & pre2 & Hsplit & Hins & Hpre1 & _).
  - reflexivity.
  - change (taps hook_with_A) with [normalized "sync" (VStr "A") some_fn].
    apply Forall_singleton. split_and!; [reflexivity..|]. by exists "A".
  - change (name_of <$> taps hook_with_A) with [VStr "A"]. apply NoDup_singleton.
  - change (taps hook_with_A) with [normalized "sync" (VStr "A") some_fn].
    intros a b x y Hab Ha Hb. destruct b as [|b]; [lia|]. discriminate Hb.
  - change (name_of <$> taps hook_with_A) with [VStr "A"].
    change (before_names _) with [VStr "A"]. done.
  - exists pre1, pre2. split; [exact Hsplit|]. split; [exact Hins|].
    destruct pre1 as [|t pre1]; [reflexivity|]. exfalso.
    apply Forall_cons in Hpre1 as [[_ Hname] _].
    change (taps hook_with_A) with [normalized "sync" (VStr "A") some_fn] in Hsplit.
    destruct pre1; [|destruct pre1; discriminate Hsplit].
    injection Hsplit as <- _. apply Hname.
    change (before_names _) with [VStr "A"]. apply list_elem_of_here.
Defined.

(** ** The order of the taps is kept *)

Lemma silent_tame interceptor : Interceptor.register interceptor = None → tame interceptor.
Proof. intros H r Hr. congruence. Qed.

Lemma keeps_taps_tame ev : keeps_taps ev → tame_event ev.
Proof. destruct ev; try done. apply silent_tame. Qed.

Lemma step_sublist coerced_gt ev h :
  keeps_taps ev → readable_taps h →
  taps h `sublist_of` taps (state_of (step coerced_gt ev h)).
Proof.
  intros Hev Hh.
  destruct ev as [m options fn|interceptor| | |]; simpl in *.
  - destruct (valid_options options) eqn:Hv.
    + destruct (valid_tap_returns coerced_gt m options fn h Hh Hv)
        as (h' & p & -> & _ & Ht & _). simpl. rewrite Ht.
      rewrite <- (take_drop p (taps h)) at 1.
      apply sublist_app; [done|]. by apply sublist_cons.
    + by rewrite call_tap_unfold, _tap_not_valid.
  - unfold intercept. by rewrite Hev.
  - unfold invoke_call. by destruct (apply_dispatcher_keeps (call h) h) as [-> _].
  - unfold invoke_callAsync. by destruct (apply_dispatcher_keeps (callAsync h) h) as [-> _].
  - unfold invoke_promise. by destruct (apply_dispatcher_keeps (promise h) h) as [-> _].
Qed.

(** X13. The order of the taps is kept. Along any history without an
    [intercept] that has a [register] callback, from a hook whose taps are
    descriptors and whose interceptors have no [register], the taps the hook
    had stay in [taps] in their order: of two of them, the one that was ahead
    is still ahead. *)
Theorem order_of_taps_is_kept (coerced_gt : value → Z → bool) (evs : list event)
    (h : Hook) :
  Forall keeps_taps evs →
  Forall (λ t, nullish t = false) (taps h) →
  Forall (λ i, Interceptor.register i = None) (interceptors h) →
  taps h `sublist_of` taps (run coerced_gt evs h)
  ∧ ∀ a b x y,
      a < b → taps h !! a = Some x → taps h !! b = Some y →
      ∃ a' b', a' < b' ∧ taps (run coerced_gt evs h) !! a' = Some x
               ∧ taps (run coerced_gt evs h) !! b' = Some y.
Proof.
  intros Hevs Hts Hics.
  assert (Hh : readable_taps h).
  { split; [done|]. eapply Forall_impl; [done|]. apply silent_tame. }
  assert (Hsub : taps h `sublist_of` taps (run coerced_gt evs h)).
  { clear Hts Hics. revert h Hh.
    induction evs as [|ev evs IH]; intros h Hh; [done|].
    apply Forall_cons in Hevs as [Hev Hevs]. simpl.
    etrans; [by apply (step_sublist coerced_gt ev)|].
    apply IH; [done|]. apply step_readable; [|done]. by apply keeps_taps_tame. }
  split; [done|].
  intros a b x y Hab Ha Hb. apply sublist_pair.
  etrans; [|exact Hsub]. by eapply pair_sublist.
Qed.

Lemma order_of_taps_is_kept_witness :
  taps hook_with_A
  `sublist_of` taps (run never_gt
                       [E_tap By_tap (VObj (<["name" := VStr "B"]> {["stage" := VNum (-1)]}))
                          some_fn;
                        E_intercept silent; E_call]
                       hook_with_A).
Proof.
  apply (order_of_taps_is_kept never_gt).
  - repeat constructor.
  - change (taps hook_with_A) with [normalized "sync" (VStr "A") some_fn].
    by apply Forall_singleton.
  - constructor.
Defined.

(** ** [intercept] and registration, in either order *)











(** ** The base class *)

Lemma _insert_compile coerced_gt item h :
  compile (state_of (_insert coerced_gt item h)) = compile h.
Proof.
  unfold _insert. destruct (get item "before"); [done|].
  destruct (get item "stage"); [done|].
  by destruct (insert_walk _ _ _ _ _) as [[i ts]|e [i ts]].
Qed.

Lemma intercept_compile interceptor h : compile (intercept interceptor h) = compile h.
Proof. unfold intercept. by destruct (Interceptor.register interceptor). Qed.

Lemma abstract_invoke c h :
  abstract_hook h → invoke c h = Throw (Error "Abstract: should be overridden") h.
Proof.
  intros (Hc & _ & _ & _ & HS & HA & HP).
  destruct c; simpl; unfold invoke_call, invoke_callAsync, invoke_promise;
    rewrite ?HS, ?HA, ?HP; simpl; unfold _createCall; by rewrite Hc.
Qed.

Lemma step_abstract coerced_gt ev h :
  abstract_hook h → abstract_hook (state_of (step coerced_gt ev h)).
Proof.
  intros Hh. pose proof Hh as (Hc & H1 & H2 & H3 & HS & HA & HP).
  destruct ev as [m options fn|interceptor| | |]; simpl.
  - rewrite call_tap_unfold. destruct (valid_options options) eqn:Hv.
    + rewrite _tap_valid by done.
      pose proof (λ c, _insert_slots coerced_gt
                   (register_fold (interceptors h) (normalized (tap_type m) options fn))
                   h c) as Hs.
      destruct (Hs Sync) as [ES ET], (Hs Async) as [EA ETA], (Hs Promise) as [EP ETP].
      simpl in *. unfold abstract_hook. rewrite _insert_compile.
      split_and!; congruence.
    + by rewrite _tap_not_valid.
  - pose proof (λ c, intercept_slots interceptor h c) as Hs.
    destruct (Hs Sync) as [ES ET], (Hs Async) as [EA ETA], (Hs Promise) as [EP ETP].
    simpl in *. unfold abstract_hook. rewrite intercept_compile.
    split_and!; congruence.
  - change (invoke_call h) with (invoke Sync h). by rewrite abstract_invoke.
  - change (invoke_callAsync h) with (invoke Async h). by rewrite abstract_invoke.
  - change (invoke_promise h) with (invoke Promise h). by rewrite abstract_invoke.
Qed.

Lemma run_abstract coerced_gt evs : ∀ h,
  abstract_hook h → abstract_hook (run coerced_gt evs h).
Proof.
  induction evs as [|ev evs IH]; intros h Hh; [done|]. simpl.
  apply IH. by apply step_abstract.
Qed.

(** X15. The base class cannot be called. On a hook built with the
    [compile] of Hook.js itself, after any history, [call], [callAsync] and
    [promise] throw "Abstract: should be overridden" and leave the hook as it
    was. *)
Theorem abstract_hook_always_throws (coerced_gt : value → Z → bool)
    (args : list string) (name : value) (evs : list event) (c : convention) :
  invoke c (run coerced_gt evs (new_Hook Hook_compile args name))
  = Throw (Error "Abstract: should be overridden")
      (run coerced_gt evs (new_Hook Hook_compile args name)).
Proof.
  apply abstract_invoke. apply run_abstract. by split_and!.
Qed.

(** ** Generated code *)

Lemma run_content_bind cb (m : gen string) (f : string → gen string) : ∀ flag,
  run_content cb (x ← m; f x) flag
  = match run_content cb m flag with
    | inl e => inl e
    | inr (a, used) => run_content cb (f a) used
    end.
Proof.
  induction m as [a|e|q k IH]; intros flag; try done.
  simpl. apply IH.
Qed.

Lemma tap_type_case {A : Type} (v : value) (a b c d : A) :
  match v with
  | VStr "sync" => a
  | VStr "async" => b
  | VStr "promise" => c
  | _ => d
  end
  = if has_type "sync" v then a
    else if has_type "async" v then b
    else if has_type "promise" v then c
    else d.
Proof.
  destruct v as [| | | |s| | |]; try done. simpl.
  destruct (String.eqb_spec s "sync") as [->|Hs]; [done|].
  destruct (String.eqb_spec s "async") as [->|Ha]; [done|].
  destruct (String.eqb_spec s "promise") as [->|Hp]; [done|].
  repeat case_match; subst; done.
Qed.

Lemma sync_case {A : Type} (v : value) (a b : A) :
  match v with VStr "sync" => a | _ => b end
  = if has_type "sync" v then a else b.
Proof.
  destruct v as [| | | |s| | |]; try done. simpl.
  destruct (String.eqb_spec s "sync") as [->|Hs]; [done|].
  repeat case_match; subst; done.
Qed.

Lemma has_type_other name v : v ≠ VStr name → has_type name v = false.
Proof.
  destruct v as [| | | |s| | |]; try done. simpl. intros H.
  destruct (String.eqb_spec s name) as [->|]; done.
Qed.

Section same_view.
Context (options : Options.t) (taps' : list value).
Hypothesis view :
  code_view <$> Options.taps options = code_view <$> taps'.

Lemma view_at i :
  code_view (array_get (Options.taps options) i) = code_view (array_get taps' i).
Proof.
  unfold array_get.
  assert (H : (code_view <$> Options.taps options) !! i = (code_view <$> taps') !! i)
    by (by rewrite view).
  rewrite !list_lookup_fmap in H.
  destruct (Options.taps options !! i), (taps' !! i); simpl in *; congruence.
Qed.

Lemma view_length : length (Options.taps options) = length taps'.
Proof. by rewrite <- (length_fmap code_view), view, length_fmap. Qed.

Lemma callTap_view i onError onResult onDone rethrowIfPossible :
  callTap options i onError onResult onDone rethrowIfPossible
  = callTap (with_taps options taps') i onError onResult onDone rethrowIfPossible.
Proof.
  pose proof (view_at i) as H. unfold code_view in H.
  injection H as Htype Hcontext.
  unfold callTap. simpl. rewrite <- Htype.
  destruct (get (array_get (Options.taps options) i) "type") as [e|ty]; [done|].
  destruct (get (array_get (Options.taps options) i) "context") as [e|c],
           (get (array_get taps' i) "context") as [e'|c']; try done.
  - by injection Hcontext as ->.
  - injection Hcontext as ->. done.
Qed.

Lemma firstAsync_from_view : ∀ (l l' : list value) i,
  code_view <$> l = code_view <$> l' → firstAsync_from i l = firstAsync_from i l'.
Proof.
  induction l as [|t l IH]; intros [|t' l'] i H; try done. simpl.
  rewrite !fmap_cons in H. injection H as -> _ Hl.
  by rewrite (IH l' (i + 1) Hl).
Qed.

Lemma every_sync_view : ∀ (l l' : list value),
  code_view <$> l = code_view <$> l' → every_sync l = every_sync l'.
Proof.
  induction l as [|t l IH]; intros [|t' l'] H; try done. simpl.
  rewrite !fmap_cons in H. injection H as -> _ Hl.
  by rewrite (IH l' Hl).
Qed.

Lemma needContext_view : ∀ (l l' : list value),
  code_view <$> l = code_view <$> l' → needContext l = needContext l'.
Proof.
  induction l as [|t l IH]; intros [|t' l'] H; try done. simpl.
  rewrite !fmap_cons in H. injection H as _ Hc Hl.
  destruct (get t "context") as [e|c], (get t' "context") as [e'|c']; try done.
  injection Hc as ->. by rewrite (IH l' Hl).
Qed.

Lemma series_loop_view cb onError onResult onDone somethingReturns
    rethrowIfPossible firstAsync j : ∀ code current is_onDone flag,
  run_content cb
    (series_loop options onError onResult onDone somethingReturns
       rethrowIfPossible firstAsync j code current is_onDone) flag
  = run_content cb
      (series_loop (with_taps options taps') onError onResult onDone somethingReturns
         rethrowIfPossible firstAsync j code current is_onDone) flag.
Proof.
  induction j as [|i IH]; intros code current is_onDone flag; [done|].
  assert (Hresume : ∀ code current flag,
    run_content cb
      (content ← callTap options i
                   (λ error, onError i error (call_thunk "done" current)
                      (λ skipDone : bool,
                         if skipDone then Ret "" else call_thunk "onDone" onDone))
                   (match onResult with
                    | Some f => Some (λ result, f i result (call_thunk "done" current)
                                  (λ skipDone : bool,
                                     if skipDone then Ret ""
                                     else call_thunk "onDone" onDone))
                    | None => None
                    end)
                   (if given onResult then None else current)
                   (rethrowIfPossible
                    && match firstAsync with
                       | None => true
                       | Some first => (i <? first)%nat
                       end);
       series_loop options onError onResult onDone somethingReturns
         rethrowIfPossible firstAsync i code (Some (Ret content)) false) flag
    = run_content cb
      (content ← callTap (with_taps options taps') i
                   (λ error, onError i error (call_thunk "done" current)
                      (λ skipDone : bool,
                         if skipDone then Ret "" else call_thunk "onDone" onDone))
                   (match onResult with
                    | Some f => Some (λ result, f i result (call_thunk "done" current)
                                  (λ skipDone : bool,
                                     if skipDone then Ret ""
                                     else call_thunk "onDone" onDone))
                    | None => None
                    end)
                   (if given onResult then None else current)
                   (rethrowIfPossible
                    && match firstAsync with
                       | None => true
                       | Some first => (i <? first)%nat
                       end);
       series_loop (with_taps options taps') onError onResult onDone somethingReturns
         rethrowIfPossible firstAsync i code (Some (Ret content)) false) flag).
  { intros code' current' flag'. rewrite !run_content_bind, <- callTap_view.
    destruct (run_content cb _ flag') as [e|[content used]]; [done|]. apply IH. }
  pose proof (view_at i) as Hv. unfold code_view in Hv. injection Hv as Htype _.
  change (series_loop ?o ?oe ?or ?od ?sr ?rip ?fa (S i) code current is_onDone)
    with (series_loop o oe or od sr rip fa (S i) code current is_onDone).
  cbn [series_loop]. destruct is_onDone; [apply Hresume|].
  change (Options.taps (with_taps options taps')) with taps'. rewrite <- Htype.
  destruct (get (array_get (Options.taps options) i) "type") as [e|ty]; [done|].
  assert (Hunrolled :
    run_content cb
      (text ← call_thunk "current" current;
       (content ← callTap options i
                   (λ error, onError i error
                      (call_thunk "done"
                         (Some (Ret ((if somethingReturns then "return " else "")
                                     +:+ "_next" +:+ pretty i +:+ "();" +:+ nl))))
                      (λ skipDone : bool,
                         if skipDone then Ret "" else call_thunk "onDone" onDone))
                   (match onResult with
                    | Some f => Some (λ result, f i result
                                  (call_thunk "done"
                                     (Some (Ret ((if somethingReturns then "return " else "")
                                                 +:+ "_next" +:+ pretty i +:+ "();" +:+ nl))))
                                  (λ skipDone : bool,
                                     if skipDone then Ret ""
                                     else call_thunk "onDone" onDone))
                    | None => None
                    end)
                   (if given onResult then None
                    else Some (Ret ((if somethingReturns then "return " else "")
                                    +:+ "_next" +:+ pretty i +:+ "();" +:+ nl)))
                   (rethrowIfPossible
                    && match firstAsync with
                       | None => true
                       | Some first => (i <? first)%nat
                       end);
        series_loop options onError onResult onDone somethingReturns
          rethrowIfPossible firstAsync i
          (code +:+ "function _next" +:+ pretty i +:+ "() {" +:+ nl
           +:+ text +:+ "}" +:+ nl)
          (Some (Ret content)) false)) flag
    = run_content cb
      (text ← call_thunk "current" current;
       (content ← callTap (with_taps options taps') i
                   (λ error, onError i error
                      (call_thunk "done"
                         (Some (Ret ((if somethingReturns then "return " else "")
                                     +:+ "_next" +:+ pretty i +:+ "();" +:+ nl))))
                      (λ skipDone : bool,
                         if skipDone then Ret "" else call_thunk "onDone" onDone))
                   (match onResult with
                    | Some f => Some (λ result, f i result
                                  (call_thunk "done"
                                     (Some (Ret ((if somethingReturns then "return " else "")
                                                 +:+ "_next" +:+ pretty i +:+ "();" +:+ nl))))
                                  (λ skipDone : bool,
                                     if skipDone then Ret ""
                                     else call_thunk "onDone" onDone))
                    | None => None
                    end)
                   (if given onResult then None
                    else Some (Ret ((if somethingReturns then "return " else "")
                                    +:+ "_next" +:+ pretty i +:+ "();" +:+ nl)))
                   (rethrowIfPossible
                    && match firstAsync with
                       | None => true
                       | Some first => (i <? first)%nat
                       end);
        series_loop (with_taps options taps') onError onResult onDone somethingReturns
          rethrowIfPossible firstAsync i
          (code +:+ "function _next" +:+ pretty i +:+ "() {" +:+ nl
           +:+ text +:+ "}" +:+ nl)
          (Some (Ret content)) false)) flag).
  { rewrite !(run_content_bind cb (call_thunk "current" current)).
    destruct (run_content cb (call_thunk "current" current) flag) as [e|[text used]];
      [done|]. apply Hresume. }
  rewrite !sync_case. destruct (has_type "sync" ty); [apply Hresume|apply Hunrolled].
Qed.

Lemma callTapsSeries_view cb onError onResult resultReturns onDone doneReturns
    rethrowIfPossible flag :
  run_content cb
    (callTapsSeries options onError onResult resultReturns onDone doneReturns
       rethrowIfPossible) flag
  = run_content cb
      (callTapsSeries (with_taps options taps') onError onResult resultReturns onDone
         doneReturns rethrowIfPossible) flag.
Proof.
  unfold callTapsSeries. change (Options.taps (with_taps options taps')) with taps'.
  rewrite <- view_length, <- (firstAsync_from_view _ _ 0 view).
  destruct (length (Options.taps options) =? 0)%nat; [done|].
  destruct (firstAsync_from 0 (Options.taps options)) as [e|first]; [done|].
  apply series_loop_view.
Qed.

Lemma callTapsLooping_view cb onError onDone rethrowIfPossible flag :
  run_content cb (callTapsLooping options onError onDone rethrowIfPossible) flag
  = run_content cb
      (callTapsLooping (with_taps options taps') onError onDone rethrowIfPossible) flag.
Proof.
  unfold callTapsLooping. change (Options.taps (with_taps options taps')) with taps'.
  rewrite <- view_length, <- (every_sync_view _ _ view).
  destruct (length (Options.taps options) =? 0)%nat; [done|].
  destruct (every_sync (Options.taps options)) as [e|syncOnly]; [done|].
  rewrite !run_content_bind, <- callTapsSeries_view. done.
Qed.

Lemma parallel_loop_view cb onError onResult onDone rethrowIfPossible remaining :
  ∀ i code flag,
  run_content cb
    (parallel_loop options onError onResult onDone rethrowIfPossible
       (λ _ run _ _, run) remaining i code) flag
  = run_content cb
      (parallel_loop (with_taps options taps') onError onResult onDone rethrowIfPossible
         (λ _ run _ _, run) remaining i code) flag.
Proof.
  induction remaining as [|n IH]; intros i code flag; [done|].
  cbn [parallel_loop]. rewrite !run_content_bind, <- callTap_view.
  destruct (run_content cb _ flag) as [e|[text used]]; [done|]. apply IH.
Qed.

Lemma callTapsParallel_view cb onError onResult onDone rethrowIfPossible flag :
  run_content cb
    (callTapsParallel options onError onResult onDone rethrowIfPossible None) flag
  = run_content cb
      (callTapsParallel (with_taps options taps') onError onResult onDone
         rethrowIfPossible None) flag.
Proof.
  unfold callTapsParallel. change (Options.taps (with_taps options taps')) with taps'.
  rewrite <- view_length.
  destruct (length (Options.taps options) <=? 1)%nat; [apply callTapsSeries_view|].
  rewrite !run_content_bind.
  destruct (run_content cb _ flag) as [e|[declared used]]; [done|].
  rewrite !run_content_bind. simpl. by rewrite <- parallel_loop_view.
Qed.

Lemma content_view cb s resultReturns rethrowIfPossible flag :
  run_content cb (content_of s options resultReturns rethrowIfPossible) flag
  = run_content cb
      (content_of s (with_taps options taps') resultReturns rethrowIfPossible) flag.
Proof.
  destruct s; simpl.
  - apply callTapsSeries_view.
  - apply callTapsLooping_view.
  - apply callTapsParallel_view.
Qed.

Lemma header_view : header options = header (with_taps options taps').
Proof.
  unfold header. change (Options.taps (with_taps options taps')) with taps'.
  by rewrite <- (needContext_view _ _ view).
Qed.

Lemma create_view s :
  create (content_of s options) options
  = create (content_of s (with_taps options taps')) (with_taps options taps').
Proof.
  unfold create. rewrite <- header_view, <- !content_view. done.
Qed.

End same_view.

(** X16. The generated function depends on the taps through their types and
    contexts only. For each of the three strategies, [create] returns the
    same parameters and body, or throws the same error, for any two lists of
    taps that agree, tap by tap, on what reading [type] gives and on whether
    what reading [context] gives is truthy: no name, stage or function of a
    tap goes into the code. *)
Theorem code_depends_on_type_and_context (s : strategy) (options : Options.t)
    (taps' : list value) :
  code_view <$> Options.taps options = code_view <$> taps' →
  create (content_of s options) options
  = create (content_of s (with_taps options taps')) (with_taps options taps').
Proof. intros view. by apply create_view. Qed.

Lemma code_depends_on_type_and_context_witness :
  create (content_of Looping (Options.make two_sync_taps [] ["x"] "async"))
    (Options.make two_sync_taps [] ["x"] "async")
  = create
      (content_of Looping
         (with_taps (Options.make two_sync_taps [] ["x"] "async")
            [VObj {["type" := VStr "sync"]};
             VObj (<["type" := VStr "sync"]> {["context" := VNum 1]})]))
      (with_taps (Options.make two_sync_taps [] ["x"] "async")
         [VObj {["type" := VStr "sync"]};
          VObj (<["type" := VStr "sync"]> {["context" := VNum 1]})]).
Proof.
  apply code_depends_on_type_and_context. reflexivity.
Defined.

(** ** When code generation returns *)

Lemma generates_ret cb code : generates cb (Ret code) true.
Proof. intros flag. simpl. eauto. Qed.

Lemma generates_ask cb q : generates cb (Ask q Ret) true.
Proof. intros flag. simpl. eauto. Qed.

Lemma generates_raise cb k : generates cb (Raise (TypeError k)) false.
Proof. intros flag. simpl. eauto. Qed.

Lemma generates_bind cb m f ok1 ok2 :
  generates cb m ok1 → (∀ a, generates cb (f a) ok2) →
  generates cb (x ← m; f x) (ok1 && ok2).
Proof.
  intros Hm Hf flag. rewrite run_content_bind. specialize (Hm flag).
  destruct ok1; simpl.
  - destruct Hm as (a & used & ->). apply Hf.
  - destruct Hm as (k & ->). eauto.
Qed.

Lemma generates_bind_true cb m f :
  generates cb m true → (∀ a, generates cb (f a) true) →
  generates cb (x ← m; f x) true.
Proof. apply (generates_bind cb m f true true). Qed.

Ltac solve_generates :=
  repeat first
    [ apply generates_ret
    | apply generates_ask
    | assumption
    | match goal with H : ∀ _, generates _ _ true |- _ => apply H end
    | apply generates_bind_true; [|intros ?] ].

Lemma callTap_generates cb options i onError onResult onDone rethrowIfPossible :
  (∀ err, generates cb (onError err) true) →
  (∀ f result, onResult = Some f → generates cb (f result) true) →
  (∀ done, onDone = Some done → generates cb done true) →
  generates cb (callTap options i onError onResult onDone rethrowIfPossible)
    (negb (nullish (array_get (Options.taps options) i))).
Proof.
  intros HE HR HD. unfold callTap, get.
  destruct (nullish (array_get (Options.taps options) i)); [apply generates_raise|].
  destruct onResult as [f|]; [pose proof (λ result, HR f result eq_refl) as HR'|];
    (destruct onDone as [d|]; [pose proof (HD d eq_refl) as HD'|]);
    clear HR HD; destruct rethrowIfPossible; cbn [given negb];
    rewrite tap_type_case;
    repeat match goal with
           | |- context [has_type ?n ?v] => destruct (has_type n v)
           end;
    solve_generates.
Qed.

Lemma readable_range_S taps i n :
  readable_range taps i (S n)
  = readable_range taps i n && negb (nullish (array_get taps (i + n))).
Proof.
  unfold readable_range. rewrite seq_S, forallb_app. simpl. by rewrite andb_true_r.
Qed.

Lemma readable_range_cons taps i n :
  readable_range taps i (S n)
  = negb (nullish (array_get taps i)) && readable_range taps (S i) n.
Proof. done. Qed.

Lemma readable_range_all taps :
  readable_range taps 0 (length taps) = forallb (λ t, negb (nullish t)) taps.
Proof.
  induction taps as [|t taps IH] using rev_ind; [done|].
  rewrite length_app. simpl. rewrite Nat.add_1_r, readable_range_S, forallb_app. simpl.
  rewrite andb_true_r. f_equal.
  - rewrite <- IH. unfold readable_range. apply Bool.eq_iff_eq_true.
    rewrite !forallb_forall.
    split; intros H j Hj; specialize (H j Hj); apply in_seq in Hj;
      unfold array_get in *; by rewrite lookup_app_l in * by lia.
  - unfold array_get. by rewrite list_lookup_middle.
Qed.

Section series.
Context (cb : callbacks) (options : Options.t).
Context (onError : nat → string → gen string → (bool → gen string) → gen string).
Context (onResult : option (nat → string → gen string → (bool → gen string) → gen string)).
Context (onDone : gen string).
Hypothesis onError_returns : ∀ i err done doneBreak,
  generates cb done true → (∀ b, generates cb (doneBreak b) true) →
  generates cb (onError i err done doneBreak) true.
Hypothesis onResult_returns : ∀ f i result done doneBreak,
  onResult = Some f →
  generates cb done true → (∀ b, generates cb (doneBreak b) true) →
  generates cb (f i result done doneBreak) true.
Hypothesis onDone_returns : generates cb onDone true.

Lemma series_loop_generates somethingReturns rethrowIfPossible firstAsync j :
  ∀ code current is_onDone,
  generates cb current true →
  generates cb
    (series_loop options onError onResult (Some onDone) somethingReturns
       rethrowIfPossible firstAsync j code (Some current) is_onDone)
    (readable_range (Options.taps options) 0 j).
Proof.
  induction j as [|i IH]; intros code current is_onDone Hcurrent.
  { simpl. solve_generates. }
  rewrite readable_range_S, andb_comm. simpl plus.
  assert (HdoneBreak : ∀ b : bool,
            generates cb (if b then Ret "" else call_thunk "onDone" (Some onDone)) true).
  { intros []; simpl; solve_generates. }
  assert (Hresume : ∀ code current, generates cb current true →
    generates cb
      (content ← callTap options i
                   (λ error, onError i error (call_thunk "done" (Some current))
                      (λ skipDone : bool,
                         if skipDone then Ret "" else call_thunk "onDone" (Some onDone)))
                   (match onResult with
                    | Some f => Some (λ result, f i result (call_thunk "done" (Some current))
                                  (λ skipDone : bool,
                                     if skipDone then Ret ""
                                     else call_thunk "onDone" (Some onDone)))
                    | None => None
                    end)
                   (if given onResult then None else Some current)
                   (rethrowIfPossible
                    && match firstAsync with
                       | None => true
                       | Some first => (i <? first)%nat
                       end);
       series_loop options onError onResult (Some onDone) somethingReturns
         rethrowIfPossible firstAsync i code (Some (Ret content)) false)
      (negb (nullish (array_get (Options.taps options) i))
       && readable_range (Options.taps options) 0 i)).
  { intros code' current' Hc. apply generates_bind.
    - apply callTap_generates.
      + intros err. by apply onError_returns.
      + intros f result Hf. destruct onResult as [g|]; [|done].
        injection Hf as <-. by apply (onResult_returns g).
      + intros done Hd. destruct (given onResult); [done|]. by injection Hd as <-.
    - intros content. apply IH. apply generates_ret. }
  cbn [series_loop]. destruct is_onDone; [by apply Hresume|].
  unfold get at 1.
  destruct (nullish (array_get (Options.taps options) i)) eqn:Hn; simpl negb; cbv iota.
  { apply generates_raise. }
  try rewrite Hn in Hresume. simpl negb in Hresume.
  assert (Hunrolled : ∀ m : string → gen string,
            (∀ text, generates cb (m text) (readable_range (Options.taps options) 0 i)) →
            generates cb (text ← call_thunk "current" (Some current); m text)
              (true && readable_range (Options.taps options) 0 i)).
  { intros m Hm. by apply (generates_bind cb _ _ true). }
  rewrite sync_case. destruct (has_type "sync" _); [by apply Hresume|].
  apply Hunrolled; intros text; apply Hresume; apply generates_ret.
Qed.
End series.

Lemma firstAsync_from_outcome taps : ∀ i,
  match firstAsync_from i taps with
  | inl e => (∃ k, e = TypeError k) ∧ forallb (λ t, negb (nullish t)) taps = false
  | inr _ => True
  end.
Proof.
  induction taps as [|t taps IH]; intros i; simpl; [done|].
  unfold get. destruct (nullish t); simpl; [eauto|].
  rewrite sync_case. destruct (has_type _ _); [apply IH|done].
Qed.

Lemma every_sync_outcome taps :
  match every_sync taps with
  | inl e => (∃ k, e = TypeError k) ∧ forallb (λ t, negb (nullish t)) taps = false
  | inr _ => True
  end.
Proof.
  induction taps as [|t taps IH]; simpl; [done|].
  unfold get. destruct (nullish t); simpl; [eauto|].
  rewrite sync_case. by destruct (has_type _ _).
Qed.

Lemma needContext_outcome taps :
  match needContext taps with
  | inl e => (∃ k, e = TypeError k) ∧ forallb (λ t, negb (nullish t)) taps = false
  | inr _ => True
  end.
Proof.
  induction taps as [|t taps IH]; simpl; [done|].
  unfold get. destruct (nullish t); simpl; [eauto|].
  by destruct (truthy _).
Qed.

Lemma generates_scan {A} cb (scan : error + A) (k : A → gen string) taps :
  match scan with
  | inl e => (∃ k, e = TypeError k) ∧ forallb (λ t, negb (nullish t)) taps = false
  | inr _ => True
  end →
  (∀ a, generates cb (k a) (forallb (λ t, negb (nullish t)) taps)) →
  generates cb (match scan with inl e => Raise e | inr a => k a end)
    (forallb (λ t, negb (nullish t)) taps).
Proof.
  destruct scan as [e|a]; [|done]. intros [[key ->] ->] _. apply generates_raise.
Qed.

Lemma callTapsSeries_generates cb options onError onResult resultReturns onDone
    doneReturns rethrowIfPossible :
  (∀ i err done doneBreak,
     generates cb done true → (∀ b, generates cb (doneBreak b) true) →
     generates cb (onError i err done doneBreak) true) →
  (∀ f i result done doneBreak,
     onResult = Some f →
     generates cb done true → (∀ b, generates cb (doneBreak b) true) →
     generates cb (f i result done doneBreak) true) →
  generates cb onDone true →
  generates cb
    (callTapsSeries options onError onResult resultReturns (Some onDone) doneReturns
       rethrowIfPossible)
    (forallb (λ t, negb (nullish t)) (Options.taps options)).
Proof.
  intros HE HR HD. unfold callTapsSeries.
  destruct (Nat.eqb_spec (length (Options.taps options)) 0) as [H0|H0].
  { apply nil_length_inv in H0. rewrite H0. done. }
  apply generates_scan; [apply firstAsync_from_outcome|].
  intros first. rewrite <- readable_range_all. by apply series_loop_generates.
Qed.

Lemma callTapsLooping_generates cb options onError onDone rethrowIfPossible :
  (∀ i err done doneBreak,
     generates cb done true → (∀ b, generates cb (doneBreak b) true) →
     generates cb (onError i err done doneBreak) true) →
  generates cb onDone true →
  generates cb (callTapsLooping options onError (Some onDone) rethrowIfPossible)
    (forallb (λ t, negb (nullish t)) (Options.taps options)).
Proof.
  intros HE HD. unfold callTapsLooping.
  destruct (Nat.eqb_spec (length (Options.taps options)) 0) as [H0|H0].
  { apply nil_length_inv in H0. rewrite H0. done. }
  apply generates_scan; [apply every_sync_outcome|].
  intros syncOnly. rewrite <- (andb_true_r (forallb _ _)).
  apply generates_bind; [|intros ?; apply generates_ret].
  apply callTapsSeries_generates; [done| |solve_generates].
  intros f i result done doneBreak [= <-] Hdone Hbreak. solve_generates.
Qed.

Lemma parallel_loop_generates cb options onError onResult onDone rethrowIfPossible
    remaining :
  (∀ i err done doneBreak,
     generates cb done true → (∀ b, generates cb (doneBreak b) true) →
     generates cb (onError i err done doneBreak) true) →
  (∀ f i result done doneBreak,
     onResult = Some f →
     generates cb done true → (∀ b, generates cb (doneBreak b) true) →
     generates cb (f i result done doneBreak) true) →
  ∀ i code,
  generates cb
    (parallel_loop options onError onResult onDone rethrowIfPossible
       (λ _ run _ _, run) remaining i code)
    (readable_range (Options.taps options) i remaining).
Proof.
  intros HE HR. induction remaining as [|n IH]; intros i code.
  { apply generates_ret. }
  rewrite readable_range_cons. cbn [parallel_loop].
  apply generates_bind.
  - apply callTap_generates.
    + intros err. apply generates_bind_true; [|intros ?; apply generates_ret].
      apply HE; [apply generates_ret|]. intros b. apply generates_ret.
    + intros f result Hf. destruct onResult as [g|]; [|done]. injection Hf as <-.
      apply generates_bind_true; [|intros ?; apply generates_ret].
      apply (HR g); [done|apply generates_ret|]. intros b. apply generates_ret.
    + intros done Hd. destruct (given onResult); [done|]. injection Hd as <-.
      apply generates_ret.
  - intros text. replace (i + 1) with (S i) by lia. apply IH.
Qed.

Lemma callTapsParallel_generates cb options onError onResult onDone rethrowIfPossible :
  (∀ i err done doneBreak,
     generates cb done true → (∀ b, generates cb (doneBreak b) true) →
     generates cb (onError i err done doneBreak) true) →
  (∀ f i result done doneBreak,
     onResult = Some f →
     generates cb done true → (∀ b, generates cb (doneBreak b) true) →
     generates cb (f i result done doneBreak) true) →
  generates cb onDone true →
  generates cb
    (callTapsParallel options onError onResult (Some onDone) rethrowIfPossible None)
    (forallb (λ t, negb (nullish t)) (Options.taps options)).
Proof.
  intros HE HR HD. unfold callTapsParallel.
  destruct (length (Options.taps options) <=? 1)%nat;
    [by apply callTapsSeries_generates|].
  replace (forallb _ _) with (true && (forallb (λ t, negb (nullish t)) (Options.taps options) && true))
    by (simpl; apply andb_true_r).
  apply generates_bind; [solve_generates|]. intros declared.
  apply generates_bind; [|intros ?; apply generates_ret].
  rewrite <- readable_range_all. by apply parallel_loop_generates.
Qed.

Lemma content_generates cb s options resultReturns rethrowIfPossible :
  generates cb (content_of s options resultReturns rethrowIfPossible)
    (forallb (λ t, negb (nullish t)) (Options.taps options)).
Proof.
  destruct s; simpl.
  - apply callTapsSeries_generates; [|done|apply generates_ask].
    intros. apply generates_ask.
  - apply callTapsLooping_generates; [|apply generates_ask].
    intros. apply generates_ask.
  - apply callTapsParallel_generates; [|done|apply generates_ask].
    intros. apply generates_ask.
Qed.

Lemma header_outcome options :
  if forallb (λ t, negb (nullish t)) (Options.taps options)
  then ∃ head, header options = inr head
  else (∃ head, header options = inr head) ∨ ∃ k, header options = inl (TypeError k).
Proof.
  unfold header. pose proof (needContext_outcome (Options.taps options)) as H.
  destruct (needContext (Options.taps options)) as [e|need].
  - destruct H as [[k ->] ->]. eauto.
  - destruct (forallb _ _); eauto.
Qed.

Lemma forallb_readable taps :
  forallb (λ t, negb (nullish t)) taps = true ↔ Forall (λ t, nullish t = false) taps.
Proof.
  rewrite forallb_forall, Forall_forall. split; intros H t Ht.
  - apply negb_true_iff. apply H. by apply list_elem_of_In.
  - apply negb_true_iff. apply H. by apply list_elem_of_In.
Qed.

Lemma create_outcome s options :
  known_type (Options.type options) = true →
  if forallb (λ t, negb (nullish t)) (Options.taps options)
  then ∃ body,
         create (content_of s options) options
         = inr (Some (handed_parameters options, body))
  else ∃ k, create (content_of s options) options = inl (TypeError k).
Proof.
  intros Hknown. unfold create, handed_parameters.
  pose proof (header_outcome options) as Hh.
  pose proof (λ cb rr rip, content_generates cb s options rr rip false) as Hc.
  unfold known_type in Hknown.
  destruct (forallb _ _) eqn:Hok.
  - destruct Hh as [head ->].
    destruct (String.eqb_spec (Options.type options) "sync") as [E|_].
    { rewrite E. simpl.
      destruct (Hc sync_callbacks true true) as (code & used & ->); eauto. }
    destruct (String.eqb (Options.type options) "async");
      [destruct (Hc async_callbacks false false) as (code & used & ->); eauto|].
    destruct (String.eqb (Options.type options) "promise"); [|done].
    destruct (Hc promise_callbacks false false) as (code & used & ->); eauto.
  - destruct (String.eqb (Options.type options) "sync").
    { destruct (Hc sync_callbacks true true) as (k & ->).
      destruct Hh as [[head ->]|[k' ->]]; eauto. }
    destruct (String.eqb (Options.type options) "async").
    { destruct (Hc async_callbacks false false) as (k & ->).
      destruct Hh as [[head ->]|[k' ->]]; eauto. }
    destruct (String.eqb (Options.type options) "promise"); [|done].
    destruct (Hc promise_callbacks false false) as (k & ->). eauto.
Qed.

(** X17. Generation fails exactly when a tap cannot be read. For each of the
    three strategies and a type [create] knows (sync, async, promise): when
    no tap is [undefined] or [null], [create] throws nothing of its own and
    gets as far as [new Function], which it hands the arguments of the hook
    as parameters ([_callback] after them under the async convention) and a
    body; when a tap is [undefined] or [null], it throws a TypeError before
    that. For any other type it calls nothing and returns [undefined].
    Whether [new Function] accepts the text is outside the statement. *)
Theorem create_returns_iff_taps_readable (s : strategy) (options : Options.t) :
  (known_type (Options.type options) = true →
   Forall (λ t, nullish t = false) (Options.taps options) →
   ∃ body,
     create (content_of s options) options
     = inr (Some (handed_parameters options, body)))
  ∧ (known_type (Options.type options) = true →
     Exists (λ t, nullish t = true) (Options.taps options) →
     ∃ k, create (content_of s options) options = inl (TypeError k))
  ∧ (known_type (Options.type options) = false →
     create (content_of s options) options = inr None).
Proof.
  split_and!.
  - intros Hknown Hts. pose proof (create_outcome s options Hknown) as H.
    apply forallb_readable in Hts. by rewrite Hts in H.
  - intros Hknown Hts. pose proof (create_outcome s options Hknown) as H.
    destruct (forallb _ _) eqn:Hok; [|done].
    apply forallb_readable in Hok. apply Exists_exists in Hts as (t & Ht & Hn).
    rewrite Forall_forall in Hok. rewrite (Hok t Ht) in Hn. done.
  - unfold known_type, create. intros H.
    apply orb_false_iff in H as [H ->]. apply orb_false_iff in H as [-> ->]. done.
Qed.

Lemma create_returns_iff_taps_readable_witness :
  (∃ body,
     create (content_of Parallel (Options.make two_async_taps [] ["x"] "async"))
       (Options.make two_async_taps [] ["x"] "async")
     = inr (Some ("x, _callback", body)))
  ∧ (∃ k,
       create (content_of Series (Options.make [VUndefined] [] ["x"] "sync"))
         (Options.make [VUndefined] [] ["x"] "sync") = inl (TypeError k))
  ∧ create (content_of Looping (Options.make two_sync_taps [] ["x"] "later"))
      (Options.make two_sync_taps [] ["x"] "later") = inr None.
Proof.
  split_and!.
  - apply (proj1 (create_returns_iff_taps_readable Parallel
                    (Options.make two_async_taps [] ["x"] "async"))).
    + reflexivity.
    + repeat constructor.
  - apply (proj1 (proj2 (create_returns_iff_taps_readable Series
                           (Options.make [VUndefined] [] ["x"] "sync")))).
    + reflexivity.
    + by constructor.
  - apply (proj2 (proj2 (create_returns_iff_taps_readable Looping
                           (Options.make two_sync_taps [] ["x"] "later")))).
    reflexivity.
Defined.

(** ** Sync taps in series *)

Lemma string_append_nil_r (s : string) : s +:+ "" = s.
Proof.
  induction s as [|ch s IH]; [done|].
  change (String ch (s +:+ "") = String ch s). by rewrite IH.
Qed.

Lemma firstAsync_from_sync taps : ∀ i,
  Forall (λ t, nullish t = false ∧ read t "type" = VStr "sync") taps →
  firstAsync_from i taps = inr None.
Proof.
  induction taps as [|t taps IH]; intros i Hts; simpl; [done|].
  apply Forall_cons in Hts as [[Hn Ht] Hts].
  rewrite get_readable, Ht by done. by apply IH.
Qed.

Lemma callTap_sync_text cb options i onError current flag :
  nullish (array_get (Options.taps options) i) = false →
  read (array_get (Options.taps options) i) "type" = VStr "sync" →
  run_content cb (callTap options i onError None (Some current) true) flag
  = match run_content cb current flag with
    | inl e => inl e
    | inr (rest, used) => inr (plain_call options i +:+ rest, used)
    end.
Proof.
  intros Hn Ht. unfold plain_call, callTap. rewrite !get_readable, Ht by done.
  cbn [given]. simpl. rewrite run_content_bind.
  destruct (run_content cb current flag) as [e|[rest used]]; [done|]. simpl.
  by rewrite !string_append_nil_r.
Qed.

Lemma series_loop_sync cb options onError onDone somethingReturns j :
  ∀ code current is_onDone flag,
  (∀ i, i < j → nullish (array_get (Options.taps options) i) = false
                ∧ read (array_get (Options.taps options) i) "type" = VStr "sync") →
  run_content cb
    (series_loop options onError None onDone somethingReturns true None j code
       (Some current) is_onDone) flag
  = match run_content cb current flag with
    | inl e => inl e
    | inr (rest, used) =>
        inr (code +:+ foldr (λ i rest, plain_call options i +:+ rest) rest (seq 0 j), used)
    end.
Proof.
  induction j as [|i IH]; intros code current is_onDone flag Hts.
  { simpl. rewrite run_content_bind.
    by destruct (run_content cb current flag) as [e|[rest used]]. }
  destruct (Hts i) as [Hn Ht]; [lia|].
  assert (Hresume :
    run_content cb
      (content ← callTap options i
                   (λ error, onError i error (call_thunk "done" (Some current))
                      (λ skipDone : bool,
                         if skipDone then Ret "" else call_thunk "onDone" onDone))
                   None (Some current) true;
       series_loop options onError None onDone somethingReturns true None i code
         (Some (Ret content)) false) flag
    = match run_content cb current flag with
      | inl e => inl e
      | inr (rest, used) =>
          inr (code +:+ foldr (λ i rest, plain_call options i +:+ rest) rest
                          (seq 0 (S i)), used)
      end).
  { rewrite run_content_bind, callTap_sync_text by done.
    destruct (run_content cb current flag) as [e|[rest used]]; [done|].
    rewrite IH by (intros k Hk; apply Hts; lia). simpl run_content.
    by rewrite seq_S, foldr_app. }
  cbn [series_loop]. destruct is_onDone; [exact Hresume|].
  rewrite get_readable, Ht by done. exact Hresume.
Qed.

(** X18. Sync taps in series, under the sync convention. When every tap is a
    descriptor of type sync, the body [create] returns for a series flavor is
    the strict-mode line, the header, and the calls of the taps one after the
    other in the order of [taps]; [onError] is never called, so no call
    stands in a [try]. The call of tap [i] is the [interceptor.tap] calls,
    the declaration of [_fnI] as [_x[I]] and the call of [_fnI] on the
    arguments, with [_context] first when the tap has a context. *)
Theorem sync_series_in_order (options : Options.t) :
  Options.type options = "sync" →
  Forall (λ t, nullish t = false ∧ read t "type" = VStr "sync") (Options.taps options) →
  (∃ head,
     header options = inr head
     ∧ create (series_content options) options
       = inr (Some
           (factory_args (Options.args options) None None,
            use_strict +:+ head
            +:+ foldr (λ i rest, plain_call options i +:+ rest) ""
                  (seq 0 (length (Options.taps options))))))
  ∧ calls_onError sync_callbacks (series_content options true true) = false
  ∧ ∀ i t,
      Options.taps options !! i = Some t →
      plain_call options i
      = tap_calls i 0 (Options.interceptors options) false
        +:+ "var _fn" +:+ pretty i +:+ " = _x[" +:+ pretty i +:+ "];" +:+ nl
        +:+ "_fn" +:+ pretty i +:+ "("
        +:+ factory_args (Options.args options)
              (if truthy (read t "context") then Some "_context" else None) None
        +:+ ");" +:+ nl.
Proof.
  intros Htype Hts.
  assert (Hrun : run_content sync_callbacks (series_content options true true) false
                 = inr (foldr (λ i rest, plain_call options i +:+ rest) ""
                          (seq 0 (length (Options.taps options))), false)).
  { unfold series_content, callTapsSeries.
    destruct (Nat.eqb_spec (length (Options.taps options)) 0) as [H0|H0].
    { rewrite H0. done. }
    rewrite (firstAsync_from_sync _ 0 Hts). simpl orb.
    rewrite series_loop_sync; [done|].
    intros i Hi. unfold array_get.
    destruct (lookup_lt_is_Some_2 _ _ Hi) as [t Ht]. rewrite Ht. simpl.
    rewrite Forall_forall in Hts. apply Hts. by eapply list_elem_of_lookup_2. }
  split_and!.
  - assert (Hr : forallb (λ t, negb (nullish t)) (Options.taps options) = true).
    { apply forallb_readable. eapply Forall_impl; [done|]. by intros t [? _]. }
    pose proof (header_outcome options) as Hh. rewrite Hr in Hh.
    destruct Hh as [head Hh]. exists head. split; [done|].
    unfold create. by rewrite Htype, Hh, Hrun.
  - apply run_content_flag in Hrun. simpl in Hrun. done.
  - intros i t Hi.
    rewrite Forall_forall in Hts. destruct (Hts t) as [Hn Ht];
      [by eapply list_elem_of_lookup_2|].
    unfold plain_call, callTap, array_get. rewrite Hi. simpl.
    rewrite !get_readable, Ht by done. simpl.
    unfold getTapFn. rewrite !string_append_nil_r, !string_append_assoc. done.
Qed.

Lemma sync_series_in_order_witness :
  ∃ head,
    header (Options.make two_sync_taps [] ["x"] "sync") = inr head
    ∧ create (series_content (Options.make two_sync_taps [] ["x"] "sync"))
        (Options.make two_sync_taps [] ["x"] "sync")
      = inr (Some
          ("x",
           use_strict +:+ head
           +:+ "var _fn0 = _x[0];" +:+ nl
           +:+ "_fn0(x);" +:+ nl
           +:+ "var _fn1 = _x[1];" +:+ nl
           +:+ "_fn1(_context, x);" +:+ nl)).
Proof.
  destruct (sync_series_in_order (Options.make two_sync_taps [] ["x"] "sync"))
    as ((head & Hh & Hc) & _); [reflexivity|repeat constructor|].
  exists head. split; [exact Hh|]. rewrite Hc. vm_compute. reflexivity.
Defined.

(** ** A hook without taps *)

(** X19. A hook without taps. With no taps the header declares [_context]
    without a value, and for each strategy the body [create] returns is the
    header followed by what [onDone] gives: nothing for sync, the call of
    [_callback] for async, the call of [_resolve] inside the promise wrapper,
    without the [_error] helper, for promise. *)
Theorem no_taps_code (s : strategy) (options : Options.t) :
  Options.taps options = [] →
  header options
  = inr ("var _context;" +:+ nl +:+ "var _x = this._x;" +:+ nl
         +:+ (if (0 <? length (Options.interceptors options))%nat
              then "var _taps = this.taps;" +:+ nl
                   +:+ "var _interceptors = this.interceptors;" +:+ nl
              else "")
         +:+ header_calls (Options.args options) 0 (Options.interceptors options))
  ∧ ∀ head, header options = inr head →
      (Options.type options = "sync" →
       create (content_of s options) options
       = inr (Some (factory_args (Options.args options) None None,
                    use_strict +:+ head)))
      ∧ (Options.type options = "async" →
         create (content_of s options) options
         = inr (Some (factory_args (Options.args options) None (Some "_callback"),
                      use_strict +:+ head +:+ "_callback();" +:+ nl)))
      ∧ (Options.type options = "promise" →
         create (content_of s options) options
         = inr (Some (factory_args (Options.args options) None None,
                      use_strict
                      +:+ "return new Promise((_resolve, _reject) => {" +:+ nl
                      +:+ head +:+ "_resolve();" +:+ nl
                      +:+ "});" +:+ nl))).
Proof.
  intros Hts. split; [unfold header; by rewrite Hts|].
  intros head Hh.
  assert (Hc : ∀ rr rip, content_of s options rr rip = ask_onDone).
  { intros rr rip. destruct s; simpl;
      unfold series_content, looping_content, parallel_content,
        callTapsLooping, callTapsParallel; rewrite ?Hts; simpl;
      unfold callTapsSeries; rewrite ?Hts; done. }
  unfold create. rewrite Hh, !Hc.
  split_and!; intros ->; simpl; rewrite ?string_append_nil_r; done.
Qed.

Lemma no_taps_code_witness :
  create (content_of Looping (Options.make [] [] ["x"; "y"] "async"))
    (Options.make [] [] ["x"; "y"] "async")
  = inr (Some ("x, y, _callback",
               use_strict +:+ "var _context;" +:+ nl +:+ "var _x = this._x;" +:+ nl
               +:+ "_callback();" +:+ nl)).
Proof.
  destruct (no_taps_code Looping (Options.make [] [] ["x"; "y"] "async") eq_refl)
    as [Hh Hc].
  destruct (Hc _ Hh) as (_ & Ha & _). rewrite (Ha eq_refl). reflexivity.
Defined.

(** ** [setup] *)

Lemma map_fn_readable taps :
  Forall (λ t, nullish t = false) taps → map_fn taps = inr ((λ t, read t "fn") <$> taps).
Proof.
  induction 1 as [|t taps Ht _ IH]; [done|]. simpl.
  by rewrite get_readable, IH.
Qed.

Lemma map_fn_throws taps :
  Exists (λ t, nullish t = true) taps → map_fn taps = inl (TypeError "fn").
Proof.
  induction 1 as [t taps Ht|t taps _ IH]; simpl; unfold get.
  - by rewrite Ht.
  - destruct (nullish t); [done|]. by rewrite IH.
Qed.

Lemma setup_readable instance options :
  Forall (λ t, nullish t = false) (Options.taps options) →
  setup instance options
  = Return (set__x instance (VArr ((λ t, read t "fn") <$> Options.taps options))).
Proof. intros H. unfold setup. by rewrite map_fn_readable. Qed.

Lemma setup_throws instance options :
  Exists (λ t, nullish t = true) (Options.taps options) →
  setup instance options = Throw (TypeError "fn") instance.
Proof. intros H. unfold setup. by rewrite map_fn_throws. Qed.

(** X20. [setup] stores in [instance._x] the [fn] of each tap, in the order
    of [taps], and changes nothing else; when a tap is [undefined] or [null]
    it throws a TypeError and leaves the instance as it was. *)
Theorem setup_mirrors_taps (instance : Hook) (options : Options.t) :
  (Forall (λ t, nullish t = false) (Options.taps options) →
   setup instance options
   = Return (set__x instance (VArr ((λ t, read t "fn") <$> Options.taps options))))
  ∧ (Exists (λ t, nullish t = true) (Options.taps options) →
     setup instance options = Throw (TypeError "fn") instance).
Proof. split; [apply setup_readable|apply setup_throws]. Qed.

Lemma setup_mirrors_taps_witness :
  setup (intercept forgetful_register hook_with_A)
    (call_options "sync" (intercept forgetful_register hook_with_A))
  = Throw (TypeError "fn") (intercept forgetful_register hook_with_A).
Proof.
  apply (proj2 (setup_mirrors_taps (intercept forgetful_register hook_with_A)
                  (call_options "sync" (intercept forgetful_register hook_with_A)))).
  by constructor.
Defined.





(** ** From the history of a hook to its code *)



(** ** A tap of a type the generator does not know *)

(** X23. A tap whose type is none of sync, async and promise is fetched and
    not called. With one such tap, a series flavor generates the
    [interceptor.tap] calls and the declaration of [_fn0] and nothing else,
    and calls neither [onError] nor [onDone]: under the async convention the
    body never calls [_callback]. *)
Theorem unknown_tap_type_is_not_called (options : Options.t) (tap : value) :
  Options.taps options = [tap] →
  nullish tap = false →
  read tap "type" ≠ VStr "sync" → read tap "type" ≠ VStr "async" →
  read tap "type" ≠ VStr "promise" →
  (∀ cb resultReturns rethrowIfPossible flag,
     run_content cb (series_content options resultReturns rethrowIfPossible) flag
     = inr (tap_calls 0 0 (Options.interceptors options) false
            +:+ "var _fn0 = _x[0];" +:+ nl, flag))
  ∧ (Options.type options = "async" →
     ∃ head,
       header options = inr head
       ∧ create (series_content options) options
         = inr (Some (factory_args (Options.args options) None (Some "_callback"),
                      use_strict +:+ head
                      +:+ tap_calls 0 0 (Options.interceptors options) false
                      +:+ "var _fn0 = _x[0];" +:+ nl))).
Proof.
  intros Hts Hn Hs Ha Hp.
  assert (Hrun : ∀ cb resultReturns rethrowIfPossible flag,
     run_content cb (series_content options resultReturns rethrowIfPossible) flag
     = inr (tap_calls 0 0 (Options.interceptors options) false
            +:+ "var _fn0 = _x[0];" +:+ nl, flag)).
  { intros cb rr rip flag.
    unfold series_content, callTapsSeries. rewrite Hts. simpl.
    rewrite get_readable by done.
    assert (Hfirst : ∃ first,
              match read tap "type" with
              | VStr "sync" => (inr None : error + option nat)
              | _ => inr (Some 0)
              end = inr first).
    { rewrite sync_case. destruct (has_type _ _); eauto. }
    destruct Hfirst as [first ->].
    unfold callTap. rewrite Hts. change (array_get [tap] 0) with tap.
    rewrite !get_readable by done.
    rewrite tap_type_case.
    rewrite (has_type_other "sync"), (has_type_other "async"),
      (has_type_other "promise") by done.
    done. }
  split; [exact Hrun|].
  intros Htype.
  pose proof (header_outcome options) as Hh. rewrite Hts in Hh. simpl in Hh.
  rewrite Hn in Hh. destruct Hh as [head Hh]. exists head. split; [done|].
  unfold create. rewrite Htype, Hh, !Hrun. done.
Qed.

Lemma unknown_tap_type_is_not_called_witness :
  ∃ head,
    header (Options.make [normalized "sync" (VObj (<["name" := VStr "a"]>
                                                     {["type" := VStr "later"]})) some_fn]
              [] ["x"] "async") = inr head
    ∧ create
        (series_content
           (Options.make [normalized "sync" (VObj (<["name" := VStr "a"]>
                                                     {["type" := VStr "later"]})) some_fn]
              [] ["x"] "async"))
        (Options.make [normalized "sync" (VObj (<["name" := VStr "a"]>
                                                  {["type" := VStr "later"]})) some_fn]
           [] ["x"] "async")
      = inr (Some ("x, _callback",
                   use_strict +:+ head +:+ "var _fn0 = _x[0];" +:+ nl)).
Proof.
  destruct (unknown_tap_type_is_not_called
              (Options.make [normalized "sync" (VObj (<["name" := VStr "a"]>
                                                        {["type" := VStr "later"]}))
                               some_fn] [] ["x"] "async")
              (normalized "sync" (VObj (<["name" := VStr "a"]>
                                          {["type" := VStr "later"]})) some_fn))
    as [_ H].
  - reflexivity.
  - reflexivity.
  - vm_compute. discriminate.
  - vm_compute. discriminate.
  - vm_compute. discriminate.
  - apply H. reflexivity.
Defined.

(** ** Async and promise taps in series *)

Lemma firstAsync_from_first t taps i :
  nullish t = false → has_type "sync" (read t "type") = false →
  firstAsync_from i (t :: taps) = inr (Some i).
Proof.
  intros Hn Ht. simpl. rewrite get_readable by done.
  rewrite sync_case, Ht. done.
Qed.

Lemma callTap_link_text cb options i current done flag :
  nullish (array_get (Options.taps options) i) = false →
  has_type "async" (read (array_get (Options.taps options) i) "type") = true
  ∨ has_type "promise" (read (array_get (Options.taps options) i) "type") = true →
  (∀ f, run_content cb current f = inr (done, f)) →
  run_content cb (callTap options i ask_onError None (Some current) false) flag
  = inr (tap_text cb options i done, true).
Proof.
  intros Hn Ht Hcf. unfold tap_text, callTap.
  rewrite !get_readable by done. cbn [given]. rewrite !tap_type_case.
  destruct (has_type "sync" _) eqn:Hs.
  { destruct (read _ "type") as [| | | |ty| | |]; try done. simpl in *.
    apply String.eqb_eq in Hs as ->. by destruct Ht. }
  destruct (has_type "async" _) eqn:Ha.
  - simpl. rewrite !run_content_bind, Hcf. done.
  - destruct Ht as [Ht|Ht]; [done|]. rewrite Ht. simpl.
    rewrite !run_content_bind, Hcf. simpl. done.
Qed.

Section chain.
Context (cb : callbacks) (options : Options.t).
Hypothesis chained : ∀ i, i < length (Options.taps options) →
  nullish (array_get (Options.taps options) i) = false
  ∧ (has_type "async" (read (array_get (Options.taps options) i) "type") = true
     ∨ has_type "promise" (read (array_get (Options.taps options) i) "type") = true).

Lemma chained_not_sync i :
  i < length (Options.taps options) →
  has_type "sync" (read (array_get (Options.taps options) i) "type") = false.
Proof.
  intros Hi. destruct (chained i Hi) as [_ Ht].
  destruct (read _ "type") as [| | | |ty| | |]; try done. simpl in *.
  destruct Ht as [->%String.eqb_eq| ->%String.eqb_eq]; done.
Qed.

Lemma series_loop_chain rethrowIfPossible j : ∀ code flag,
  j < length (Options.taps options) →
  run_content cb
    (series_loop options (λ _ err _ _, ask_onError err) None (Some ask_onDone) false
       rethrowIfPossible (Some 0) j code (Some (Ret (link cb options j))) false) flag
  = inr (code
         +:+ foldr (λ i rest, next_decl i (link cb options (S i)) +:+ rest)
               (link cb options 0) (rev (seq 0 j)),
         flag || (0 <? j)%nat).
Proof.
  induction j as [|i IH]; intros code flag Hj.
  { simpl. by rewrite orb_false_r. }
  cbn [series_loop]. rewrite get_readable by (apply chained; lia).
  rewrite sync_case, chained_not_sync by lia.
  rewrite run_content_bind. cbn [call_thunk run_content].
  change ("" +:+ "_next" +:+ pretty i +:+ "();" +:+ nl) with (next_call i).
  change (λ error : string, ask_onError error) with ask_onError.
  rewrite run_content_bind.
  assert (Hrip : rethrowIfPossible && (i <? 0)%nat = false) by apply andb_false_r.
  rewrite Hrip.
  rewrite (callTap_link_text cb options i (Ret (next_call i)) (next_call i));
    [|apply chained; lia|apply chained; lia|done].
  assert (Hlink : tap_text cb options i (next_call i) = link cb options i).
  { unfold link. destruct (Nat.eqb_spec (S i) (length (Options.taps options))); [lia|done]. }
  rewrite Hlink, IH by lia.
  rewrite seq_S, rev_app_distr. simpl.
  unfold next_decl at 2. rewrite !string_append_assoc.
  by rewrite orb_true_r.
Qed.
End chain.

(** X24. Async and promise taps in series. When every tap is a descriptor of
    type async or promise, a series flavor generates, for n taps, the
    declarations of [_next(n-2)], ..., [_next0], where [_nextI] holds the code
    of tap I+1, and then the code of tap 0; the code of a tap goes on with
    the call of its [_nextI], that of the last tap with what [onDone] gives,
    and [onError] is called. *)
Theorem async_series_chain (cb : callbacks) (options : Options.t)
    (resultReturns rethrowIfPossible flag : bool) :
  Options.taps options ≠ [] →
  Forall (λ t, nullish t = false
               ∧ (has_type "async" (read t "type") = true
                  ∨ has_type "promise" (read t "type") = true))
    (Options.taps options) →
  run_content cb (series_content options resultReturns rethrowIfPossible) flag
  = inr (foldr (λ i rest, next_decl i (link cb options (S i)) +:+ rest)
           (link cb options 0)
           (rev (seq 0 (length (Options.taps options) - 1))),
         true).
Proof.
  intros Hne Hts.
  assert (Hchained : ∀ i, i < length (Options.taps options) →
    nullish (array_get (Options.taps options) i) = false
    ∧ (has_type "async" (read (array_get (Options.taps options) i) "type") = true
       ∨ has_type "promise" (read (array_get (Options.taps options) i) "type") = true)).
  { intros i Hi. destruct (lookup_lt_is_Some_2 _ _ Hi) as [t Ht].
    unfold array_get. rewrite Ht. simpl.
    rewrite Forall_forall in Hts. apply Hts. by eapply list_elem_of_lookup_2. }
  unfold series_content, callTapsSeries.
  destruct (Options.taps options) as [|t0 rest] eqn:Htaps; [done|].
  rewrite <- Htaps in *. clear Hne.
  assert (Hlen : length (Options.taps options) = S (length rest)) by (by rewrite Htaps).
  rewrite Hlen. cbn [Nat.eqb].
  assert (Hfirst : firstAsync_from 0 (Options.taps options) = inr (Some 0)).
  { rewrite Htaps. apply firstAsync_from_first.
    - specialize (Hchained 0). rewrite Htaps in Hchained. apply Hchained. simpl. lia.
    - pose proof (chained_not_sync options Hchained 0) as H0.
      rewrite Htaps in H0. apply H0. simpl. lia. }
  rewrite Hfirst. cbn [series_loop orb]. rewrite run_content_bind.
  cbn [call_thunk]. change (λ error : string, ask_onError error) with ask_onError.
  replace (rethrowIfPossible && (length rest <? 0)%nat) with false
    by (symmetry; apply andb_false_r).
  rewrite (callTap_link_text cb options (length rest) ask_onDone (onDone cb));
    [|apply Hchained; lia|apply Hchained; lia|done].
  assert (Hlink : tap_text cb options (length rest) (onDone cb)
                  = link cb options (length rest)).
  { unfold link. by rewrite Hlen, Nat.eqb_refl. }
  rewrite Hlink, series_loop_chain by (done || lia).
  replace (S (length rest) - 1) with (length rest) by lia. done.
Qed.

Lemma async_series_chain_witness :
  run_content async_callbacks
    (series_content (Options.make two_async_taps [] ["x"] "async") false false) false
  = inr ("function _next0() {" +:+ nl
         +:+ "var _fn1 = _x[1];" +:+ nl
         +:+ "_fn1(x, _err1 => {" +:+ nl
         +:+ "if(_err1) {" +:+ nl
         +:+ "_callback(_err1);" +:+ nl
         +:+ "} else {" +:+ nl
         +:+ "_callback();" +:+ nl
         +:+ "}" +:+ nl
         +:+ "});" +:+ nl
         +:+ "}" +:+ nl
         +:+ "var _fn0 = _x[0];" +:+ nl
         +:+ "_fn0(x, _err0 => {" +:+ nl
         +:+ "if(_err0) {" +:+ nl
         +:+ "_callback(_err0);" +:+ nl
         +:+ "} else {" +:+ nl
         +:+ "_next0();" +:+ nl
         +:+ "}" +:+ nl
         +:+ "});" +:+ nl, true).
Proof.
  rewrite async_series_chain.
  - reflexivity.
  - discriminate.
  - repeat constructor.
Defined.

(** ** Sync taps whose errors are caught *)

Lemma callTap_caught_text cb options i current done flag :
  nullish (array_get (Options.taps options) i) = false →
  read (array_get (Options.taps options) i) "type" = VStr "sync" →
  (∀ f, run_content cb current f = inr (done, f)) →
  run_content cb (callTap options i ask_onError None (Some current) false) flag
  = inr (tap_text cb options i done, true).
Proof.
  intros Hn Ht Hcf. unfold tap_text, callTap.
  rewrite !get_readable, Ht by done. cbn [given]. simpl.
  rewrite !run_content_bind, Hcf. done.
Qed.

Lemma series_loop_caught cb options somethingReturns j :
  ∀ code current rest is_onDone flag,
  (∀ i, i < j → nullish (array_get (Options.taps options) i) = false
                ∧ read (array_get (Options.taps options) i) "type" = VStr "sync") →
  (∀ f, run_content cb current f = inr (rest, f)) →
  run_content cb
    (series_loop options (λ _ err _ _, ask_onError err) None (Some ask_onDone)
       somethingReturns false None j code (Some current) is_onDone) flag
  = inr (code +:+ foldr (λ i rest, tap_text cb options i rest) rest (seq 0 j),
         flag || (0 <? j)%nat).
Proof.
  induction j as [|i IH]; intros code current rest is_onDone flag Hts Hcf.
  { simpl. by rewrite run_content_bind, Hcf, orb_false_r. }
  destruct (Hts i) as [Hn Ht]; [lia|].
  assert (Hresume :
    run_content cb
      (content ← callTap options i (λ error, ask_onError error) None (Some current)
                   false;
       series_loop options (λ _ err _ _, ask_onError err) None (Some ask_onDone)
         somethingReturns false None i code (Some (Ret content)) false) flag
    = inr (code +:+ foldr (λ i rest, tap_text cb options i rest) rest (seq 0 (S i)),
           flag || true)).
  { change (λ error : string, ask_onError error) with ask_onError.
    rewrite run_content_bind, (callTap_caught_text cb options i current rest) by done.
    rewrite (IH code (Ret (tap_text cb options i rest)) (tap_text cb options i rest))
      by (done || intros k Hk; apply Hts; lia).
    by rewrite seq_S, foldr_app, orb_true_r. }
  cbn [series_loop andb]. destruct is_onDone; [exact Hresume|].
  rewrite get_readable, Ht by done. exact Hresume.
Qed.

(** X25. Sync taps whose errors are caught. Without [rethrowIfPossible], as
    under [callAsync] and [promise], when every tap is a descriptor of type
    sync, a series flavor nests the taps: the code of tap I calls [_fnI]
    inside [try], reports what is caught to [onError], and holds the code of
    the taps after it inside [if(!_hasErrorI) { ... }], the innermost one
    holding what [onDone] gives. [onError] is called as soon as there is a
    tap. *)
Theorem caught_sync_series (cb : callbacks) (options : Options.t)
    (resultReturns flag : bool) :
  Forall (λ t, nullish t = false ∧ read t "type" = VStr "sync") (Options.taps options) →
  run_content cb (series_content options resultReturns false) flag
  = inr (foldr (λ i rest, tap_text cb options i rest) (onDone cb)
           (seq 0 (length (Options.taps options))),
         flag || (0 <? length (Options.taps options))%nat)
  ∧ ∀ i t rest,
      Options.taps options !! i = Some t →
      tap_text cb options i rest
      = tap_calls i 0 (Options.interceptors options) false
        +:+ "var _fn" +:+ pretty i +:+ " = _x[" +:+ pretty i +:+ "];" +:+ nl
        +:+ "var _hasError" +:+ pretty i +:+ " = false;" +:+ nl
        +:+ "try {" +:+ nl
        +:+ "_fn" +:+ pretty i +:+ "("
        +:+ factory_args (Options.args options)
              (if truthy (read t "context") then Some "_context" else None) None
        +:+ ");" +:+ nl
        +:+ "} catch(_err) {" +:+ nl
        +:+ "_hasError" +:+ pretty i +:+ " = true;" +:+ nl
        +:+ onError cb "_err"
        +:+ "}" +:+ nl
        +:+ "if(!_hasError" +:+ pretty i +:+ ") {" +:+ nl
        +:+ rest
        +:+ "}" +:+ nl.
Proof.
  intros Hts. split.
  - unfold series_content, callTapsSeries.
    destruct (Nat.eqb_spec (length (Options.taps options)) 0) as [H0|H0].
    { rewrite H0. simpl. by rewrite orb_false_r. }
    rewrite (firstAsync_from_sync _ 0 Hts). simpl orb.
    rewrite (series_loop_caught cb options false _ "" ask_onDone (onDone cb));
      [done| |done].
    intros i Hi. unfold array_get.
    destruct (lookup_lt_is_Some_2 _ _ Hi) as [t Ht]. rewrite Ht. simpl.
    rewrite Forall_forall in Hts. apply Hts. by eapply list_elem_of_lookup_2.
  - intros i t rest Hi.
    rewrite Forall_forall in Hts. destruct (Hts t) as [Hn Ht];
      [by eapply list_elem_of_lookup_2|].
    unfold tap_text, callTap, array_get. rewrite Hi. simpl.
    rewrite !get_readable, Ht by done. simpl.
    unfold getTapFn. rewrite ?string_append_nil_r, !string_append_assoc. done.
Qed.

Lemma caught_sync_series_witness :
  run_content promise_callbacks
    (series_content (Options.make two_sync_taps [] ["x"] "promise") false false) false
  = inr ("var _fn0 = _x[0];" +:+ nl
         +:+ "var _hasError0 = false;" +:+ nl
         +:+ "try {" +:+ nl
         +:+ "_fn0(x);" +:+ nl
         +:+ "} catch(_err) {" +:+ nl
         +:+ "_hasError0 = true;" +:+ nl
         +:+ "_error(_err);" +:+ nl
         +:+ "}" +:+ nl
         +:+ "if(!_hasError0) {" +:+ nl
         +:+ "var _fn1 = _x[1];" +:+ nl
         +:+ "var _hasError1 = false;" +:+ nl
         +:+ "try {" +:+ nl
         +:+ "_fn1(_context, x);" +:+ nl
         +:+ "} catch(_err) {" +:+ nl
         +:+ "_hasError1 = true;" +:+ nl
         +:+ "_error(_err);" +:+ nl
         +:+ "}" +:+ nl
         +:+ "if(!_hasError1) {" +:+ nl
         +:+ "_resolve();" +:+ nl
         +:+ "}" +:+ nl
         +:+ "}" +:+ nl, true).
Proof.
  destruct (caught_sync_series promise_callbacks
              (Options.make two_sync_taps [] ["x"] "promise") false false) as [Hrun _].
  - repeat constructor.
  - rewrite Hrun. reflexivity.
Defined.

(** ** Taps in parallel *)

Lemma foldr_append_tail {A} (f : A → string) (tail : string) (l : list A) :
  foldr (λ i rest, f i +:+ rest) "" l +:+ tail = foldr (λ i rest, f i +:+ rest) tail l.
Proof.
  induction l as [|a l IH]; simpl; [done|].
  by rewrite string_append_assoc, IH.
Qed.

Lemma callTap_counted_text cb options i flag :
  nullish (array_get (Options.taps options) i) = false →
  has_type "sync" (read (array_get (Options.taps options) i) "type") = true
  ∨ has_type "async" (read (array_get (Options.taps options) i) "type") = true
  ∨ has_type "promise" (read (array_get (Options.taps options) i) "type") = true →
  run_content cb
    (callTap options i
       (λ error, inner ← ask_onError error;
                 Ret ("if(_counter > 0) {" +:+ nl +:+ inner +:+ "}" +:+ nl))
       None (Some (Ret count_down)) false) flag
  = inr (tap_text (counted cb) options i count_down, true).
Proof.
  intros Hn Ht. unfold tap_text, callTap.
  rewrite !get_readable by done. cbn [given]. rewrite !tap_type_case.
  destruct (has_type "sync" _) eqn:Hs; [done|].
  destruct (has_type "async" _) eqn:Ha; [done|].
  destruct (has_type "promise" _) eqn:Hp; [done|].
  by destruct Ht as [?|[?|?]].
Qed.

Lemma parallel_loop_flat cb options remaining : ∀ i code flag,
  (∀ k, i ≤ k < i + remaining →
     nullish (array_get (Options.taps options) k) = false
     ∧ (has_type "sync" (read (array_get (Options.taps options) k) "type") = true
        ∨ has_type "async" (read (array_get (Options.taps options) k) "type") = true
        ∨ has_type "promise" (read (array_get (Options.taps options) k) "type") = true)) →
  run_content cb
    (parallel_loop options (λ _ err _ _, ask_onError err) None (Some ask_onDone) false
       (λ _ run _ _, run) remaining i code) flag
  = inr (code
         +:+ foldr (λ k rest, ("if(_counter <= 0) break;" +:+ nl
                               +:+ tap_text (counted cb) options k count_down) +:+ rest)
               "" (seq i remaining),
         flag || (0 <? remaining)%nat).
Proof.
  induction remaining as [|remaining IH]; intros i code flag Hts.
  { simpl. by rewrite string_append_nil_r, orb_false_r. }
  cbn [parallel_loop given]. rewrite run_content_bind.
  change (Ret ("if(--_counter === 0) _done();" +:+ nl)) with (Ret count_down).
  destruct (Hts i) as [Hn Ht]; [lia|].
  rewrite callTap_counted_text by done.
  replace (i + 1) with (S i) by lia.
  rewrite IH by (intros k Hk; apply Hts; lia).
  cbn [seq foldr]. rewrite orb_true_r. simpl orb.
  by rewrite !string_append_assoc.
Qed.

(** X26. Taps in parallel. With two or more taps, each a descriptor of type
    sync, async or promise, and without [rethrowIfPossible], a parallel flavor
    generates [do { ... } while(false);] around the declaration of [_counter]
    with the number of taps, the declaration of [_done] around what [onDone]
    gives, and then for each tap in order, side by side,
    [if(_counter <= 0) break;] and the code of the tap: it goes on with
    [if(--_counter === 0) _done();] and reports its errors to [onError] inside
    [if(_counter > 0) { ... }]. No tap holds the code of another one. *)
Theorem parallel_taps_are_flat (cb : callbacks) (options : Options.t)
    (resultReturns flag : bool) :
  2 ≤ length (Options.taps options) →
  Forall (λ t, nullish t = false
               ∧ (has_type "sync" (read t "type") = true
                  ∨ has_type "async" (read t "type") = true
                  ∨ has_type "promise" (read t "type") = true))
    (Options.taps options) →
  run_content cb (parallel_content options resultReturns false) flag
  = inr ("do {" +:+ nl
         +:+ "var _counter = " +:+ pretty (length (Options.taps options)) +:+ ";" +:+ nl
         +:+ "var _done = () => {" +:+ nl
         +:+ onDone cb
         +:+ "};" +:+ nl
         +:+ foldr (λ i rest, ("if(_counter <= 0) break;" +:+ nl
                               +:+ tap_text (counted cb) options i count_down) +:+ rest)
               ("} while(false);" +:+ nl)
               (seq 0 (length (Options.taps options))),
         true).
Proof.
  intros Hlen Hts. unfold parallel_content, callTapsParallel.
  destruct (Nat.leb_spec (length (Options.taps options)) 1) as [?|_]; [lia|].
  rewrite run_content_bind. simpl run_content at 1. cbn [default].
  rewrite run_content_bind, parallel_loop_flat.
  - simpl run_content.
    destruct (length (Options.taps options)) as [|n] eqn:Hn; [lia|].
    rewrite orb_true_r.
    rewrite !string_append_assoc.
    by rewrite (foldr_append_tail
      (λ i, "if(_counter <= 0) break;" +:+ nl
            +:+ tap_text (counted cb) options i count_down)).
  - intros k Hk. unfold array_get.
    destruct (lookup_lt_is_Some_2 (Options.taps options) k) as [t Ht]; [lia|].
    rewrite Ht. simpl.
    rewrite Forall_forall in Hts. apply Hts. by eapply list_elem_of_lookup_2.
Qed.

Lemma parallel_taps_are_flat_witness :
  run_content async_callbacks
    (parallel_content (Options.make two_async_taps [] ["x"] "async") false false) false
  = inr ("do {" +:+ nl
         +:+ "var _counter = 2;" +:+ nl
         +:+ "var _done = () => {" +:+ nl
         +:+ "_callback();" +:+ nl
         +:+ "};" +:+ nl
         +:+ "if(_counter <= 0) break;" +:+ nl
         +:+ "var _fn0 = _x[0];" +:+ nl
         +:+ "_fn0(x, _err0 => {" +:+ nl
         +:+ "if(_err0) {" +:+ nl
         +:+ "if(_counter > 0) {" +:+ nl
         +:+ "_callback(_err0);" +:+ nl
         +:+ "}" +:+ nl
         +:+ "} else {" +:+ nl
         +:+ "if(--_counter === 0) _done();" +:+ nl
         +:+ "}" +:+ nl
         +:+ "});" +:+ nl
         +:+ "if(_counter <= 0) break;" +:+ nl
         +:+ "var _fn1 = _x[1];" +:+ nl
         +:+ "_fn1(x, _err1 => {" +:+ nl
         +:+ "if(_err1) {" +:+ nl
         +:+ "if(_counter > 0) {" +:+ nl
         +:+ "_callback(_err1);" +:+ nl
         +:+ "}" +:+ nl
         +:+ "} else {" +:+ nl
         +:+ "if(--_counter === 0) _done();" +:+ nl
         +:+ "}" +:+ nl
         +:+ "});" +:+ nl
         +:+ "} while(false);" +:+ nl, true).
Proof.
  rewrite parallel_taps_are_flat.
  - reflexivity.
  - simpl. lia.
  - repeat (apply List.Forall_cons; [by split; [|right; left]|]). apply List.Forall_nil.
Defined.
